(** * Alien Inbound: a shallow embedding of the concurrency core

    The C sources ([game.h], [game.c], [threads.c], [input.c], [render.c])
    are embedded as follows.

    - C [int] values are mathematical integers ([Z]); division and remainder
      are the truncating [Z.quot] and [Z.rem] of C.  Signed overflow is
      undefined in C and the counters stay far below it.  [next_spawn_ms]
      computes on whatever the configuration holds, and has its 32-bit
      arithmetic and its division by zero written out.
    - Fixed-size arrays are lists, read with [!!] and written with [alter].
    - Each thread is a small-step machine.  One step is the code from one
      blocking call ([pthread_mutex_lock], [pthread_cond_wait], [usleep],
      [getch]) up to the next one, so a step that takes and releases the same
      mutex is a whole critical section.  A step that needs a held mutex is
      not enabled ([None]).
    - [mutex_estado] is never held across another blocking call, hence it is
      free between steps and has no field; [mutex_naves], [mutex_foguetes]
      and [mutex_lancadores] are booleans ([true] = held).
    - What the environment decides ([rand], clocks, [getch], [getmaxyx],
      [malloc], [pthread_create]) is read from an [Oracle].
    - A step carries an [Event] that names what it did at the transition
      gate; events are observations and never flow back into the state.
    - The runs of the step machines include those of the program, and more:
      a wait on [cond_lancador_vazio] may end whenever the mutex is free, so
      the signals and the broadcast of [finalizar_threads] are not kept, and
      [mutex_render] has no field, so [getch] may run while [render_game]
      draws.  What is proved of all runs is an invariant of the program;
      nothing is claimed about a task that waits in [pthread_cond_wait], in
      [pthread_join] or for [mutex_render], and where a property is about
      waiting, these waits are told from the program points.
    - The ncurses drawing calls and the explosion ring of [render.c] touch
      no field of [GameState] and are left out of the step machines.  The
      explosion ring, the characters [render_game] puts on the playfield,
      the numbers of its HUD, and the start and the verdict of [main.c] are
      embedded on their own, after the threads. *)

From Stdlib Require Import ZArith Lia Bool List.
From stdpp Require Import base tactics option list list_numbers strings.

Open Scope Z_scope.

(** ** game.h *)

Definition MAX_NAVES : Z := 80.
Definition MAX_FOGUETES : Z := 150.
Definition MAX_LANCADORES : Z := 15.

Inductive DirecaoDisparo :=
| DIR_VERTICAL
| DIR_DIAGONAL_ESQ
| DIR_DIAGONAL_DIR
| DIR_HORIZONTAL_ESQ
| DIR_HORIZONTAL_DIR.

Record Lancador := {
  tem_foguete : bool;
  direcao : DirecaoDisparo }.

(** [thread_id] is the index of the thread in the pool of its kind. *)
Record Nave := {
  nave_id : Z;
  nave_x : Z;
  nave_y : Z;
  nave_ativa : bool;
  nave_destruida : bool;
  nave_thread_id : nat }.

Record Foguete := {
  fog_id : Z;
  fog_x : Z;
  fog_y : Z;
  fog_dx : Z;
  fog_dy : Z;
  fog_direcao : DirecaoDisparo;
  fog_lancador_id : Z;
  fog_ativa : bool;
  fog_thread_id : nat }.

Record DifficultyConfig := {
  cfg_id : Z;
  cfg_name : string;
  launchers : Z;
  reload_ms : Z;
  ships_total : Z;
  ship_speed_ms : Z;
  spawn_min_ms : Z;
  spawn_max_ms : Z }.

Record GameState := {
  screen_width : Z;
  screen_height : Z;
  hud_height : Z;
  controls_height : Z;
  pontuacao : Z;
  naves_total : Z;
  naves_destruidas : Z;
  naves_chegaram : Z;
  naves_spawned : Z;
  game_over : bool;
  dificuldade : Z;
  cfg : DifficultyConfig;
  start_time : Z;
  elapsed_sec : Z;
  shots_fired : Z;
  shots_hit : Z;
  current_streak : Z;
  best_streak : Z;
  bateria_x : Z;
  direcao_atual : DirecaoDisparo;
  lancadores : list Lancador;
  num_lancadores : Z;
  tempo_recarga : Z;
  naves : list Nave;
  num_naves_ativas : Z;
  foguetes : list Foguete;
  num_foguetes_ativos : Z;
  mutex_naves : bool;
  mutex_foguetes : bool;
  mutex_lancadores : bool }.

(** Field assignments [game->f = v]. *)
Definition set_screen_width v (g : GameState) : GameState :=
  Build_GameState v (screen_height g) (hud_height g) (controls_height g)
    (pontuacao g) (naves_total g) (naves_destruidas g) (naves_chegaram g)
    (naves_spawned g) (game_over g) (dificuldade g) (cfg g) (start_time g)
    (elapsed_sec g) (shots_fired g) (shots_hit g) (current_streak g)
    (best_streak g) (bateria_x g) (direcao_atual g) (lancadores g)
    (num_lancadores g) (tempo_recarga g) (naves g) (num_naves_ativas g)
    (foguetes g) (num_foguetes_ativos g) (mutex_naves g) (mutex_foguetes g)
    (mutex_lancadores g).
Definition set_screen_height v (g : GameState) : GameState :=
  Build_GameState (screen_width g) v (hud_height g) (controls_height g)
    (pontuacao g) (naves_total g) (naves_destruidas g) (naves_chegaram g)
    (naves_spawned g) (game_over g) (dificuldade g) (cfg g) (start_time g)
    (elapsed_sec g) (shots_fired g) (shots_hit g) (current_streak g)
    (best_streak g) (bateria_x g) (direcao_atual g) (lancadores g)
    (num_lancadores g) (tempo_recarga g) (naves g) (num_naves_ativas g)
    (foguetes g) (num_foguetes_ativos g) (mutex_naves g) (mutex_foguetes g)
    (mutex_lancadores g).
Definition set_pontuacao v (g : GameState) : GameState :=
  Build_GameState (screen_width g) (screen_height g) (hud_height g)
    (controls_height g) v (naves_total g) (naves_destruidas g) (naves_chegaram
    g) (naves_spawned g) (game_over g) (dificuldade g) (cfg g) (start_time g)
    (elapsed_sec g) (shots_fired g) (shots_hit g) (current_streak g)
    (best_streak g) (bateria_x g) (direcao_atual g) (lancadores g)
    (num_lancadores g) (tempo_recarga g) (naves g) (num_naves_ativas g)
    (foguetes g) (num_foguetes_ativos g) (mutex_naves g) (mutex_foguetes g)
    (mutex_lancadores g).
Definition set_naves_destruidas v (g : GameState) : GameState :=
  Build_GameState (screen_width g) (screen_height g) (hud_height g)
    (controls_height g) (pontuacao g) (naves_total g) v (naves_chegaram g)
    (naves_spawned g) (game_over g) (dificuldade g) (cfg g) (start_time g)
    (elapsed_sec g) (shots_fired g) (shots_hit g) (current_streak g)
    (best_streak g) (bateria_x g) (direcao_atual g) (lancadores g)
    (num_lancadores g) (tempo_recarga g) (naves g) (num_naves_ativas g)
    (foguetes g) (num_foguetes_ativos g) (mutex_naves g) (mutex_foguetes g)
    (mutex_lancadores g).
Definition set_naves_chegaram v (g : GameState) : GameState :=
  Build_GameState (screen_width g) (screen_height g) (hud_height g)
    (controls_height g) (pontuacao g) (naves_total g) (naves_destruidas g) v
    (naves_spawned g) (game_over g) (dificuldade g) (cfg g) (start_time g)
    (elapsed_sec g) (shots_fired g) (shots_hit g) (current_streak g)
    (best_streak g) (bateria_x g) (direcao_atual g) (lancadores g)
    (num_lancadores g) (tempo_recarga g) (naves g) (num_naves_ativas g)
    (foguetes g) (num_foguetes_ativos g) (mutex_naves g) (mutex_foguetes g)
    (mutex_lancadores g).
Definition set_naves_spawned v (g : GameState) : GameState :=
  Build_GameState (screen_width g) (screen_height g) (hud_height g)
    (controls_height g) (pontuacao g) (naves_total g) (naves_destruidas g)
    (naves_chegaram g) v (game_over g) (dificuldade g) (cfg g) (start_time g)
    (elapsed_sec g) (shots_fired g) (shots_hit g) (current_streak g)
    (best_streak g) (bateria_x g) (direcao_atual g) (lancadores g)
    (num_lancadores g) (tempo_recarga g) (naves g) (num_naves_ativas g)
    (foguetes g) (num_foguetes_ativos g) (mutex_naves g) (mutex_foguetes g)
    (mutex_lancadores g).
Definition set_game_over v (g : GameState) : GameState :=
  Build_GameState (screen_width g) (screen_height g) (hud_height g)
    (controls_height g) (pontuacao g) (naves_total g) (naves_destruidas g)
    (naves_chegaram g) (naves_spawned g) v (dificuldade g) (cfg g) (start_time
    g) (elapsed_sec g) (shots_fired g) (shots_hit g) (current_streak g)
    (best_streak g) (bateria_x g) (direcao_atual g) (lancadores g)
    (num_lancadores g) (tempo_recarga g) (naves g) (num_naves_ativas g)
    (foguetes g) (num_foguetes_ativos g) (mutex_naves g) (mutex_foguetes g)
    (mutex_lancadores g).
Definition set_elapsed_sec v (g : GameState) : GameState :=
  Build_GameState (screen_width g) (screen_height g) (hud_height g)
    (controls_height g) (pontuacao g) (naves_total g) (naves_destruidas g)
    (naves_chegaram g) (naves_spawned g) (game_over g) (dificuldade g) (cfg g)
    (start_time g) v (shots_fired g) (shots_hit g) (current_streak g)
    (best_streak g) (bateria_x g) (direcao_atual g) (lancadores g)
    (num_lancadores g) (tempo_recarga g) (naves g) (num_naves_ativas g)
    (foguetes g) (num_foguetes_ativos g) (mutex_naves g) (mutex_foguetes g)
    (mutex_lancadores g).
Definition set_shots_fired v (g : GameState) : GameState :=
  Build_GameState (screen_width g) (screen_height g) (hud_height g)
    (controls_height g) (pontuacao g) (naves_total g) (naves_destruidas g)
    (naves_chegaram g) (naves_spawned g) (game_over g) (dificuldade g) (cfg g)
    (start_time g) (elapsed_sec g) v (shots_hit g) (current_streak g)
    (best_streak g) (bateria_x g) (direcao_atual g) (lancadores g)
    (num_lancadores g) (tempo_recarga g) (naves g) (num_naves_ativas g)
    (foguetes g) (num_foguetes_ativos g) (mutex_naves g) (mutex_foguetes g)
    (mutex_lancadores g).
Definition set_shots_hit v (g : GameState) : GameState :=
  Build_GameState (screen_width g) (screen_height g) (hud_height g)
    (controls_height g) (pontuacao g) (naves_total g) (naves_destruidas g)
    (naves_chegaram g) (naves_spawned g) (game_over g) (dificuldade g) (cfg g)
    (start_time g) (elapsed_sec g) (shots_fired g) v (current_streak g)
    (best_streak g) (bateria_x g) (direcao_atual g) (lancadores g)
    (num_lancadores g) (tempo_recarga g) (naves g) (num_naves_ativas g)
    (foguetes g) (num_foguetes_ativos g) (mutex_naves g) (mutex_foguetes g)
    (mutex_lancadores g).
Definition set_current_streak v (g : GameState) : GameState :=
  Build_GameState (screen_width g) (screen_height g) (hud_height g)
    (controls_height g) (pontuacao g) (naves_total g) (naves_destruidas g)
    (naves_chegaram g) (naves_spawned g) (game_over g) (dificuldade g) (cfg g)
    (start_time g) (elapsed_sec g) (shots_fired g) (shots_hit g) v
    (best_streak g) (bateria_x g) (direcao_atual g) (lancadores g)
    (num_lancadores g) (tempo_recarga g) (naves g) (num_naves_ativas g)
    (foguetes g) (num_foguetes_ativos g) (mutex_naves g) (mutex_foguetes g)
    (mutex_lancadores g).
Definition set_best_streak v (g : GameState) : GameState :=
  Build_GameState (screen_width g) (screen_height g) (hud_height g)
    (controls_height g) (pontuacao g) (naves_total g) (naves_destruidas g)
    (naves_chegaram g) (naves_spawned g) (game_over g) (dificuldade g) (cfg g)
    (start_time g) (elapsed_sec g) (shots_fired g) (shots_hit g)
    (current_streak g) v (bateria_x g) (direcao_atual g) (lancadores g)
    (num_lancadores g) (tempo_recarga g) (naves g) (num_naves_ativas g)
    (foguetes g) (num_foguetes_ativos g) (mutex_naves g) (mutex_foguetes g)
    (mutex_lancadores g).
Definition set_bateria_x v (g : GameState) : GameState :=
  Build_GameState (screen_width g) (screen_height g) (hud_height g)
    (controls_height g) (pontuacao g) (naves_total g) (naves_destruidas g)
    (naves_chegaram g) (naves_spawned g) (game_over g) (dificuldade g) (cfg g)
    (start_time g) (elapsed_sec g) (shots_fired g) (shots_hit g)
    (current_streak g) (best_streak g) v (direcao_atual g) (lancadores g)
    (num_lancadores g) (tempo_recarga g) (naves g) (num_naves_ativas g)
    (foguetes g) (num_foguetes_ativos g) (mutex_naves g) (mutex_foguetes g)
    (mutex_lancadores g).
Definition set_direcao_atual v (g : GameState) : GameState :=
  Build_GameState (screen_width g) (screen_height g) (hud_height g)
    (controls_height g) (pontuacao g) (naves_total g) (naves_destruidas g)
    (naves_chegaram g) (naves_spawned g) (game_over g) (dificuldade g) (cfg g)
    (start_time g) (elapsed_sec g) (shots_fired g) (shots_hit g)
    (current_streak g) (best_streak g) (bateria_x g) v (lancadores g)
    (num_lancadores g) (tempo_recarga g) (naves g) (num_naves_ativas g)
    (foguetes g) (num_foguetes_ativos g) (mutex_naves g) (mutex_foguetes g)
    (mutex_lancadores g).
Definition set_lancadores v (g : GameState) : GameState :=
  Build_GameState (screen_width g) (screen_height g) (hud_height g)
    (controls_height g) (pontuacao g) (naves_total g) (naves_destruidas g)
    (naves_chegaram g) (naves_spawned g) (game_over g) (dificuldade g) (cfg g)
    (start_time g) (elapsed_sec g) (shots_fired g) (shots_hit g)
    (current_streak g) (best_streak g) (bateria_x g) (direcao_atual g) v
    (num_lancadores g) (tempo_recarga g) (naves g) (num_naves_ativas g)
    (foguetes g) (num_foguetes_ativos g) (mutex_naves g) (mutex_foguetes g)
    (mutex_lancadores g).
Definition set_naves v (g : GameState) : GameState :=
  Build_GameState (screen_width g) (screen_height g) (hud_height g)
    (controls_height g) (pontuacao g) (naves_total g) (naves_destruidas g)
    (naves_chegaram g) (naves_spawned g) (game_over g) (dificuldade g) (cfg g)
    (start_time g) (elapsed_sec g) (shots_fired g) (shots_hit g)
    (current_streak g) (best_streak g) (bateria_x g) (direcao_atual g)
    (lancadores g) (num_lancadores g) (tempo_recarga g) v (num_naves_ativas g)
    (foguetes g) (num_foguetes_ativos g) (mutex_naves g) (mutex_foguetes g)
    (mutex_lancadores g).
Definition set_num_naves_ativas v (g : GameState) : GameState :=
  Build_GameState (screen_width g) (screen_height g) (hud_height g)
    (controls_height g) (pontuacao g) (naves_total g) (naves_destruidas g)
    (naves_chegaram g) (naves_spawned g) (game_over g) (dificuldade g) (cfg g)
    (start_time g) (elapsed_sec g) (shots_fired g) (shots_hit g)
    (current_streak g) (best_streak g) (bateria_x g) (direcao_atual g)
    (lancadores g) (num_lancadores g) (tempo_recarga g) (naves g) v (foguetes
    g) (num_foguetes_ativos g) (mutex_naves g) (mutex_foguetes g)
    (mutex_lancadores g).
Definition set_foguetes v (g : GameState) : GameState :=
  Build_GameState (screen_width g) (screen_height g) (hud_height g)
    (controls_height g) (pontuacao g) (naves_total g) (naves_destruidas g)
    (naves_chegaram g) (naves_spawned g) (game_over g) (dificuldade g) (cfg g)
    (start_time g) (elapsed_sec g) (shots_fired g) (shots_hit g)
    (current_streak g) (best_streak g) (bateria_x g) (direcao_atual g)
    (lancadores g) (num_lancadores g) (tempo_recarga g) (naves g)
    (num_naves_ativas g) v (num_foguetes_ativos g) (mutex_naves g)
    (mutex_foguetes g) (mutex_lancadores g).
Definition set_num_foguetes_ativos v (g : GameState) : GameState :=
  Build_GameState (screen_width g) (screen_height g) (hud_height g)
    (controls_height g) (pontuacao g) (naves_total g) (naves_destruidas g)
    (naves_chegaram g) (naves_spawned g) (game_over g) (dificuldade g) (cfg g)
    (start_time g) (elapsed_sec g) (shots_fired g) (shots_hit g)
    (current_streak g) (best_streak g) (bateria_x g) (direcao_atual g)
    (lancadores g) (num_lancadores g) (tempo_recarga g) (naves g)
    (num_naves_ativas g) (foguetes g) v (mutex_naves g) (mutex_foguetes g)
    (mutex_lancadores g).
Definition set_mutex_naves v (g : GameState) : GameState :=
  Build_GameState (screen_width g) (screen_height g) (hud_height g)
    (controls_height g) (pontuacao g) (naves_total g) (naves_destruidas g)
    (naves_chegaram g) (naves_spawned g) (game_over g) (dificuldade g) (cfg g)
    (start_time g) (elapsed_sec g) (shots_fired g) (shots_hit g)
    (current_streak g) (best_streak g) (bateria_x g) (direcao_atual g)
    (lancadores g) (num_lancadores g) (tempo_recarga g) (naves g)
    (num_naves_ativas g) (foguetes g) (num_foguetes_ativos g) v
    (mutex_foguetes g) (mutex_lancadores g).
Definition set_mutex_foguetes v (g : GameState) : GameState :=
  Build_GameState (screen_width g) (screen_height g) (hud_height g)
    (controls_height g) (pontuacao g) (naves_total g) (naves_destruidas g)
    (naves_chegaram g) (naves_spawned g) (game_over g) (dificuldade g) (cfg g)
    (start_time g) (elapsed_sec g) (shots_fired g) (shots_hit g)
    (current_streak g) (best_streak g) (bateria_x g) (direcao_atual g)
    (lancadores g) (num_lancadores g) (tempo_recarga g) (naves g)
    (num_naves_ativas g) (foguetes g) (num_foguetes_ativos g) (mutex_naves g)
    v (mutex_lancadores g).
Definition set_mutex_lancadores v (g : GameState) : GameState :=
  Build_GameState (screen_width g) (screen_height g) (hud_height g)
    (controls_height g) (pontuacao g) (naves_total g) (naves_destruidas g)
    (naves_chegaram g) (naves_spawned g) (game_over g) (dificuldade g) (cfg g)
    (start_time g) (elapsed_sec g) (shots_fired g) (shots_hit g)
    (current_streak g) (best_streak g) (bateria_x g) (direcao_atual g)
    (lancadores g) (num_lancadores g) (tempo_recarga g) (naves g)
    (num_naves_ativas g) (foguetes g) (num_foguetes_ativos g) (mutex_naves g)
    (mutex_foguetes g) v.

(** Assignments to one field of an array element. *)
Definition nave_set_ativa (b : bool) (n : Nave) : Nave :=
  {| nave_id := nave_id n; nave_x := nave_x n; nave_y := nave_y n;
     nave_ativa := b; nave_destruida := nave_destruida n;
     nave_thread_id := nave_thread_id n |}.

Definition nave_set_destruida (b : bool) (n : Nave) : Nave :=
  {| nave_id := nave_id n; nave_x := nave_x n; nave_y := nave_y n;
     nave_ativa := nave_ativa n; nave_destruida := b;
     nave_thread_id := nave_thread_id n |}.

Definition nave_set_y (v : Z) (n : Nave) : Nave :=
  {| nave_id := nave_id n; nave_x := nave_x n; nave_y := v;
     nave_ativa := nave_ativa n; nave_destruida := nave_destruida n;
     nave_thread_id := nave_thread_id n |}.

Definition nave_set_thread_id (t : nat) (n : Nave) : Nave :=
  {| nave_id := nave_id n; nave_x := nave_x n; nave_y := nave_y n;
     nave_ativa := nave_ativa n; nave_destruida := nave_destruida n;
     nave_thread_id := t |}.

Definition fog_set_ativa (b : bool) (f : Foguete) : Foguete :=
  {| fog_id := fog_id f; fog_x := fog_x f; fog_y := fog_y f;
     fog_dx := fog_dx f; fog_dy := fog_dy f; fog_direcao := fog_direcao f;
     fog_lancador_id := fog_lancador_id f; fog_ativa := b;
     fog_thread_id := fog_thread_id f |}.

Definition fog_set_xy (x y : Z) (f : Foguete) : Foguete :=
  {| fog_id := fog_id f; fog_x := x; fog_y := y;
     fog_dx := fog_dx f; fog_dy := fog_dy f; fog_direcao := fog_direcao f;
     fog_lancador_id := fog_lancador_id f; fog_ativa := fog_ativa f;
     fog_thread_id := fog_thread_id f |}.

Definition fog_set_dxdy (dx dy : Z) (f : Foguete) : Foguete :=
  {| fog_id := fog_id f; fog_x := fog_x f; fog_y := fog_y f;
     fog_dx := dx; fog_dy := dy; fog_direcao := fog_direcao f;
     fog_lancador_id := fog_lancador_id f; fog_ativa := fog_ativa f;
     fog_thread_id := fog_thread_id f |}.

Definition fog_set_thread_id (t : nat) (f : Foguete) : Foguete :=
  {| fog_id := fog_id f; fog_x := fog_x f; fog_y := fog_y f;
     fog_dx := fog_dx f; fog_dy := fog_dy f; fog_direcao := fog_direcao f;
     fog_lancador_id := fog_lancador_id f; fog_ativa := fog_ativa f;
     fog_thread_id := t |}.

Definition lanc_set_tem_foguete (b : bool) (l : Lancador) : Lancador :=
  {| tem_foguete := b; direcao := direcao l |}.

(** [for (i = 0; i < n; i++) if (p(a[i])) { idx = i; break; }] with
    [idx = -1] before the loop: [None] stands for [-1]. *)
Fixpoint find_first {A} (p : A → bool) (l : list A) : option nat :=
  match l with
  | [] => None
  | x :: l' => if p x then Some 0%nat else S <$> find_first p l'
  end.

(** What the environment decides during one step. *)
Record Oracle := {
  o_rand : N;            (* rand() *)
  o_elapsed : Z;         (* (int)difftime(time(NULL), start_time) *)
  o_diff_ms : Z;         (* milliseconds since last_spawn_ts *)
  o_getch : Z;           (* getch() *)
  o_real_h : Z;          (* getmaxyx: rows *)
  o_real_w : Z;          (* getmaxyx: columns *)
  o_malloc_ok : bool;    (* malloc returned non-NULL *)
  o_create_ok : bool }.  (* pthread_create returned 0 *)

(** The events of the transition gate, observed on steps. *)
Inductive Event :=
| Tau
| Spawn (slot : nat)   (* criar_nave populated naves[slot] *)
| Flip (slot : nat)    (* a task flipped naves[slot].ativa from true to false *)
| Miss (slot : nat)    (* a task found naves[slot].ativa already false at its gate *)
| Score (slot : nat).  (* a task updated the run-state counters for naves[slot] *)

(** ** game.c *)

Definition DEF_W : Z := 120.
Definition DEF_H : Z := 32.
Definition HUD_H : Z := 3.
Definition CTRL_H : Z := 2.

Definition DIFFS : list DifficultyConfig :=
  [ Build_DifficultyConfig 0 "Easy" 4 2500 30 800 2000 3000;
    Build_DifficultyConfig 1 "Medium" 7 1500 40 600 2000 2000;
    Build_DifficultyConfig 2 "Hard" 12 800 60 450 1000 2000 ].

Definition nave_zero : Nave := Build_Nave 0 0 0 false false 0.
Definition fog_zero : Foguete :=
  Build_Foguete 0 0 0 0 0 DIR_VERTICAL 0 false 0.
Definition lanc_zero : Lancador := Build_Lancador false DIR_VERTICAL.

Definition game_init (dificuldade : Z) (now : Z) : GameState :=
  let d := if (dificuldade <? 0) || (2 <? dificuldade) then 1 else dificuldade in
  let c := default (Build_DifficultyConfig 0 "" 0 0 0 0 0 0)
                   (DIFFS !! Z.to_nat d) in
  {| screen_width := DEF_W;
     screen_height := DEF_H;
     hud_height := HUD_H;
     controls_height := CTRL_H;
     pontuacao := 0;
     naves_total := ships_total c;
     naves_destruidas := 0;
     naves_chegaram := 0;
     naves_spawned := 0;
     game_over := false;
     dificuldade := d;
     cfg := c;
     start_time := now;
     elapsed_sec := 0;
     shots_fired := 0;
     shots_hit := 0;
     current_streak := 0;
     best_streak := 0;
     bateria_x := Z.quot DEF_W 2;
     direcao_atual := DIR_VERTICAL;
     lancadores := replicate (Z.to_nat MAX_LANCADORES) lanc_zero;
     num_lancadores := launchers c;
     tempo_recarga := reload_ms c;
     naves := replicate (Z.to_nat MAX_NAVES) nave_zero;
     num_naves_ativas := 0;
     foguetes := replicate (Z.to_nat MAX_FOGUETES) fog_zero;
     num_foguetes_ativos := 0;
     mutex_naves := false;
     mutex_foguetes := false;
     mutex_lancadores := false |}.

(** [criar_nave].  The program points are the blocking calls of the body;
    [new_tid] is the handle [pthread_create] would hand out. *)
Inductive CriarPc :=
| C_entry                  (* lock(mutex_estado), line 89 *)
| C_find                   (* lock(mutex_naves), line 96 *)
| C_init (idx : nat)       (* lock(mutex_estado), line 108; mutex_naves held *)
| C_count (idx : nat)      (* lock(mutex_estado), line 120 *)
| C_undo (idx : nat)       (* lock(mutex_naves), line 130 *)
| C_ret.

Definition criar_nave_step (o : Oracle) (new_tid : nat) (g : GameState)
    (pc : CriarPc) : option (GameState * CriarPc * option nat * Event) :=
  match pc with
  | C_entry =>
      if naves_total g <=? naves_spawned g
      then Some (g, C_ret, None, Tau)
      else Some (g, C_find, None, Tau)
  | C_find =>
      if mutex_naves g then None
      else if MAX_NAVES <=? num_naves_ativas g
      then Some (g, C_ret, None, Tau)
      else match find_first (λ n, negb (nave_ativa n)) (naves g) with
           | None => Some (g, C_ret, None, Tau)
           | Some idx => Some (set_mutex_naves true g, C_init idx, None, Tau)
           end
  | C_init idx =>
      let w := screen_width g in
      let hud := hud_height g in
      let init n :=
        {| nave_id := Z.of_nat idx;
           nave_x := if 0 <? w then Z.rem (Z.of_N (o_rand o)) w else 0;
           nave_y := hud;
           nave_ativa := true;
           nave_destruida := false;
           nave_thread_id := nave_thread_id n |} in
      Some (set_mutex_naves false
              (set_num_naves_ativas (num_naves_ativas g + 1)
                 (set_naves (alter init idx (naves g)) g)),
            C_count idx, None, Spawn idx)
  | C_count idx =>
      let g1 := set_naves_spawned (naves_spawned g + 1) g in
      if negb (o_malloc_ok o) then Some (g1, C_ret, None, Tau)
      else if o_create_ok o
      then Some (set_naves (alter (nave_set_thread_id new_tid) idx (naves g1)) g1,
                 C_ret, Some idx, Tau)
      else Some (g1, C_undo idx, None, Tau)
  | C_undo idx =>
      if mutex_naves g then None
      else Some (set_num_naves_ativas (num_naves_ativas g - 1)
                   (set_naves (alter (nave_set_ativa false) idx (naves g)) g),
                 C_ret, None, Tau)
  | C_ret => None
  end.

(** [tentar_disparar].  [T_ret fired] carries the returned value. *)
Inductive FirePc :=
| T_entry                      (* lock(mutex_lancadores), line 140 *)
| T_bay (lancador_idx : nat)   (* lock(mutex_foguetes), line 150 *)
| T_slot (lancador_idx foguete_idx : nat)   (* lock(mutex_estado), line 163 *)
| T_count (lancador_idx foguete_idx : nat)  (* lock(mutex_estado), line 183 *)
| T_undo (foguete_idx : nat)   (* lock(mutex_foguetes), line 198 *)
| T_ret (fired : bool).

Definition tentar_disparar_step (o : Oracle) (new_tid : nat) (g : GameState)
    (pc : FirePc) : option (GameState * FirePc * option nat * Event) :=
  match pc with
  | T_entry =>
      if mutex_lancadores g then None
      else match find_first tem_foguete
                   (take (Z.to_nat (num_lancadores g)) (lancadores g)) with
           | None => Some (g, T_ret false, None, Tau)
           | Some l => Some (set_mutex_lancadores true g, T_bay l, None, Tau)
           end
  | T_bay l =>
      if mutex_foguetes g then None
      else match find_first (λ f, negb (fog_ativa f)) (foguetes g) with
           | None => Some (set_mutex_lancadores false g, T_ret false, None, Tau)
           | Some f => Some (set_mutex_foguetes true g, T_slot l f, None, Tau)
           end
  | T_slot l f =>
      let bx := bateria_x g in
      let dir := direcao_atual g in
      let sw := screen_width g in
      let sh := screen_height g in
      let ch := controls_height g in
      let fill r :=
        {| fog_id := Z.of_nat f;
           fog_x := if bx <? 0 then 0 else if sw <=? bx then sw - 1 else bx;
           fog_y := sh - ch - 1;
           fog_dx := fog_dx r;
           fog_dy := fog_dy r;
           fog_direcao := dir;
           fog_lancador_id := Z.of_nat l;
           fog_ativa := true;
           fog_thread_id := fog_thread_id r |} in
      Some (set_lancadores (alter (lanc_set_tem_foguete false) l (lancadores g))
              (set_num_foguetes_ativos (num_foguetes_ativos g + 1)
                 (set_foguetes (alter fill f (foguetes g)) g)),
            T_count l f, None, Tau)
  | T_count l f =>
      let g1 := set_mutex_lancadores false
                  (set_mutex_foguetes false
                     (set_shots_fired (shots_fired g + 1) g)) in
      if negb (o_malloc_ok o) then Some (g1, T_ret true, None, Tau)
      else if o_create_ok o
      then Some (set_foguetes
                   (alter (fog_set_thread_id new_tid) f (foguetes g1)) g1,
                 T_ret true, Some f, Tau)
      else Some (g1, T_undo f, None, Tau)
  | T_undo f =>
      if mutex_foguetes g then None
      else Some (set_num_foguetes_ativos (num_foguetes_ativos g - 1)
                   (set_foguetes (alter (fog_set_ativa false) f (foguetes g)) g),
                 T_ret false, None, Tau)
  | T_ret _ => None
  end.

(** [finalizar_threads]; the three [done_*] arguments tell which threads
    have returned, for [pthread_join]. *)
Inductive FinalPc :=
| Z_over                        (* lock(mutex_estado), line 208 *)
| Z_wake                        (* lock(mutex_lancadores), line 214 *)
| Z_naves                       (* lock(mutex_naves), line 220 *)
| Z_foguetes (nave_tids : list nat)            (* lock(mutex_foguetes), line 230 *)
| Z_join (nave_tids foguete_tids : list nat)   (* pthread_join, lines 238-242 *)
| Z_ret.

Definition finalizar_threads_step (done_nave done_foguete : nat → bool)
    (done_loops : bool) (g : GameState) (pc : FinalPc)
    : option (GameState * FinalPc) :=
  match pc with
  | Z_over => Some (set_game_over true g, Z_wake)
  | Z_wake => if mutex_lancadores g then None else Some (g, Z_naves)
  | Z_naves =>
      if mutex_naves g then None
      else Some (g, Z_foguetes
                      (nave_thread_id <$> filter (λ n, nave_ativa n = true) (naves g)))
  | Z_foguetes ntids =>
      if mutex_foguetes g then None
      else Some (g, Z_join ntids
                      (fog_thread_id <$> filter (λ f, fog_ativa f = true) (foguetes g)))
  | Z_join ntids ftids =>
      if forallb done_nave ntids && forallb done_foguete ftids && done_loops
      then Some (g, Z_ret) else None
  | Z_ret => None
  end.

(** ** input.c *)

(** Key codes of ncurses.h. *)
Definition ERR : Z := -1.
Definition KEY_UP : Z := 259.
Definition KEY_LEFT : Z := 260.
Definition KEY_RIGHT : Z := 261.

(** Character constants. *)
Definition ch_a : Z := 97.
Definition ch_A : Z := 65.
Definition ch_d : Z := 100.
Definition ch_D : Z := 68.
Definition ch_w : Z := 119.
Definition ch_W : Z := 87.
Definition ch_q : Z := 113.
Definition ch_Q : Z := 81.
Definition ch_e : Z := 101.
Definition ch_E : Z := 69.
Definition ch_z : Z := 122.
Definition ch_Z : Z := 90.
Definition ch_c : Z := 99.
Definition ch_C : Z := 67.
Definition ch_x : Z := 120.
Definition ch_X : Z := 88.
Definition ch_space : Z := 32.
Definition ch_esc : Z := 27.

Definition key_in (key : Z) (ks : list Z) : bool :=
  existsb (Z.eqb key) ks.

(** The critical section of [process_input]; the second component tells
    that the key was the space bar, for which [tentar_disparar] is called
    after the unlock. *)
Definition process_input (g : GameState) (key : Z) : GameState * bool :=
  let sw := screen_width g in
  if key_in key [ch_a; ch_A; KEY_LEFT] then
    (if 0 <? bateria_x g then set_bateria_x (bateria_x g - 1) g else g, false)
  else if key_in key [ch_d; ch_D; KEY_RIGHT] then
    (if bateria_x g <? sw - 1 then set_bateria_x (bateria_x g + 1) g else g, false)
  else if key_in key [ch_w; ch_W; KEY_UP] then
    (set_direcao_atual DIR_VERTICAL g, false)
  else if key_in key [ch_q; ch_Q] then
    (set_direcao_atual DIR_DIAGONAL_ESQ g, false)
  else if key_in key [ch_e; ch_E] then
    (set_direcao_atual DIR_DIAGONAL_DIR g, false)
  else if key_in key [ch_z; ch_Z] then
    (set_direcao_atual DIR_HORIZONTAL_ESQ g, false)
  else if key_in key [ch_c; ch_C] then
    (set_direcao_atual DIR_HORIZONTAL_DIR g, false)
  else if key_in key [ch_space] then
    (g, true)
  else if key_in key [ch_x; ch_X; ch_esc] then
    (set_game_over true g, false)
  else (g, false).

(** ** render.c: the part of [render_game] that touches [GameState] *)

Inductive RenderPc :=
| R_ships                       (* lock(mutex_naves), line 99 *)
| R_rockets                     (* lock(mutex_foguetes), line 114 *)
| R_metrics                     (* lock(mutex_estado), line 129 *)
| R_measure (sw sh : Z)         (* lock(mutex_render), line 139 *)
| R_publish (real_w real_h : Z) (* lock(mutex_estado), line 151 *)
| R_hud                         (* lock(mutex_estado), line 245 *)
| R_bar                         (* lock(mutex_lancadores), line 267 *)
| R_ret.

Definition render_game_step (o : Oracle) (g : GameState) (pc : RenderPc)
    : option (GameState * RenderPc) :=
  match pc with
  | R_ships => if mutex_naves g then None else Some (g, R_rockets)
  | R_rockets => if mutex_foguetes g then None else Some (g, R_metrics)
  | R_metrics => Some (g, R_measure (screen_width g) (screen_height g))
  | R_measure sw sh =>
      let real_h := if o_real_h o <? 8 then 8 else o_real_h o in
      let real_w := if o_real_w o <? 40 then 40 else o_real_w o in
      if negb (real_w =? sw) || negb (real_h =? sh)
      then Some (g, R_publish real_w real_h)
      else Some (g, R_hud)
  | R_publish real_w real_h =>
      let g1 := set_screen_height real_h (set_screen_width real_w g) in
      let sw := real_w in
      Some (if sw <=? bateria_x g1 then set_bateria_x (sw - 1) g1 else g1, R_hud)
  | R_hud => Some (g, R_bar)
  | R_bar => if mutex_lancadores g then None else Some (g, R_ret)
  | R_ret => None
  end.

(** ** threads.c *)

(** [next_spawn_ms] works on whatever the configuration holds, so its [int]
    arithmetic is written out: 32 bits, two's complement, as compiled.
    [None] is the division by zero of line 17, which stops the process. *)
Definition INT_MIN : Z := -2147483648.
Definition INT_MAX : Z := 2147483647.

Definition wrap_int (z : Z) : Z := (z - INT_MIN) mod 2 ^ 32 + INT_MIN.

Definition next_spawn_ms (c : DifficultyConfig) (rnd : N) : option Z :=
  if spawn_max_ms c <=? spawn_min_ms c then Some (spawn_min_ms c)
  else let span := wrap_int (spawn_max_ms c - spawn_min_ms c) in
       let m := wrap_int (span + 1) in
       if m =? 0 then None
       else Some (wrap_int (spawn_min_ms c + Z.rem (Z.of_N rnd) m)).

(** The score update of a kill, lines 151-157 and 242-248. *)
Definition score_kill (g : GameState) : GameState :=
  let g1 := set_current_streak (current_streak g + 1)
              (set_shots_hit (shots_hit g + 1)
                 (set_pontuacao (pontuacao g + 10)
                    (set_naves_destruidas (naves_destruidas g + 1) g))) in
  if best_streak g1 <? current_streak g1
  then set_best_streak (current_streak g1) g1 else g1.

(** The score update of a ship on the ground, lines 115-118. *)
Definition score_ground (g : GameState) : GameState :=
  set_current_streak 0 (set_naves_chegaram (naves_chegaram g + 1) g).

(** The forgiving collision box. *)
Definition in_box (x y cx cy : Z) : bool :=
  (Z.abs (x - cx) <=? 2) && (Z.abs (y - cy) <=? 2).

(** [thread_nave] for the ship in slot [k]. *)
Inductive NavePc :=
| N_loop                   (* loop head, line 92 *)
| N_move                   (* lock(mutex_naves), line 93 *)
| N_metrics (nx ny : Z)    (* lock(mutex_estado), line 101 *)
| N_ground                 (* lock(mutex_naves), line 107 *)
| N_score_ground           (* lock(mutex_estado), line 115 *)
| N_scan (nx ny : Z)       (* lock(mutex_foguetes), line 124 *)
| N_gate (nx ny : Z)       (* lock(mutex_naves), line 141 *)
| N_score_kill             (* lock(mutex_estado), line 151 *)
| N_exit                   (* lock(mutex_naves), line 165 *)
| N_done.

Definition thread_nave_step (k : nat) (g : GameState) (pc : NavePc)
    : option (GameState * NavePc * Event) :=
  match pc with
  | N_loop =>
      if game_over g then Some (g, N_exit, Tau) else Some (g, N_move, Tau)
  | N_move =>
      if mutex_naves g then None
      else n ← naves g !! k;
           if negb (nave_ativa n) then Some (g, N_exit, Tau)
           else Some (set_naves (alter (nave_set_y (nave_y n + 1)) k (naves g)) g,
                      N_metrics (nave_x n) (nave_y n + 1), Tau)
  | N_metrics nx ny =>
      let sh := screen_height g in
      let ch := controls_height g in
      if sh - ch - 1 <=? ny then Some (g, N_ground, Tau)
      else Some (g, N_scan nx ny, Tau)
  | N_ground =>
      if mutex_naves g then None
      else n ← naves g !! k;
           if nave_ativa n
           then Some (set_naves (alter (nave_set_ativa false) k (naves g)) g,
                      N_score_ground, Flip k)
           else Some (g, N_exit, Miss k)
  | N_score_ground => Some (score_ground g, N_exit, Score k)
  | N_scan nx ny =>
      if mutex_foguetes g then None
      else match find_first
                   (λ f, fog_ativa f && in_box (fog_x f) (fog_y f) nx ny)
                   (foguetes g) with
           | Some i =>
               Some (set_foguetes (alter (fog_set_ativa false) i (foguetes g)) g,
                     N_gate nx ny, Tau)
           | None => Some (g, N_loop, Tau)
           end
  | N_gate nx ny =>
      if mutex_naves g then None
      else n ← naves g !! k;
           if nave_ativa n
           then Some (set_naves
                        (alter (λ n, nave_set_destruida true (nave_set_ativa false n))
                               k (naves g)) g,
                      N_score_kill, Flip k)
           else Some (g, N_exit, Miss k)
  | N_score_kill => Some (score_kill g, N_exit, Score k)
  | N_exit =>
      if mutex_naves g then None
      else Some (set_num_naves_ativas (num_naves_ativas g - 1) g, N_done, Tau)
  | N_done => None
  end.

(** [thread_foguete] for the rocket in slot [k]. *)
Inductive FoguetePc :=
| F_init                         (* the switch, lines 178-184 *)
| F_loop                         (* loop head, line 186 *)
| F_move                         (* lock(mutex_foguetes), line 187 *)
| F_metrics                      (* lock(mutex_estado), line 194 *)
| F_bounds (sw sh hud ch : Z)    (* the test of line 199 *)
| F_oob                          (* lock(mutex_foguetes), line 200 *)
| F_snap                         (* line 207 *)
| F_scan (fx fy : Z)             (* lock(mutex_naves), line 210 *)
| F_kill (hit_ship : nat) (first : bool)   (* lock(mutex_foguetes), line 229 *)
| F_expl (hit_ship : nat) (first : bool)   (* lock(mutex_naves), line 235 *)
| F_score (hit_ship : nat)       (* lock(mutex_estado), line 242 *)
| F_exit                         (* lock(mutex_foguetes), line 256 *)
| F_done.

Definition dir_vector (d : DirecaoDisparo) : Z * Z :=
  match d with
  | DIR_VERTICAL => (0, -1)
  | DIR_DIAGONAL_ESQ => (-1, -1)
  | DIR_DIAGONAL_DIR => (1, -1)
  | DIR_HORIZONTAL_ESQ => (-1, 0)
  | DIR_HORIZONTAL_DIR => (1, 0)
  end.

Definition thread_foguete_step (k : nat) (g : GameState) (pc : FoguetePc)
    : option (GameState * FoguetePc * Event) :=
  match pc with
  | F_init =>
      f ← foguetes g !! k;
      let '(dx, dy) := dir_vector (fog_direcao f) in
      Some (set_foguetes (alter (fog_set_dxdy dx dy) k (foguetes g)) g,
            F_loop, Tau)
  | F_loop =>
      if game_over g then Some (g, F_exit, Tau) else Some (g, F_move, Tau)
  | F_move =>
      if mutex_foguetes g then None
      else f ← foguetes g !! k;
           if negb (fog_ativa f) then Some (g, F_exit, Tau)
           else Some (set_foguetes
                        (alter (fog_set_xy (fog_x f + fog_dx f) (fog_y f + fog_dy f))
                               k (foguetes g)) g,
                      F_metrics, Tau)
  | F_metrics =>
      Some (g, F_bounds (screen_width g) (screen_height g)
                        (hud_height g) (controls_height g), Tau)
  | F_bounds sw sh hud ch =>
      f ← foguetes g !! k;
      if (fog_x f <? 0) || (sw <=? fog_x f) || (fog_y f <? hud)
         || (sh - ch <=? fog_y f)
      then Some (g, F_oob, Tau)
      else Some (g, F_snap, Tau)
  | F_oob =>
      if mutex_foguetes g then None
      else Some (set_foguetes (alter (fog_set_ativa false) k (foguetes g)) g,
                 F_exit, Tau)
  | F_snap =>
      f ← foguetes g !! k;
      Some (g, F_scan (fog_x f) (fog_y f), Tau)
  | F_scan fx fy =>
      if mutex_naves g then None
      else match find_first
                   (λ n, nave_ativa n && in_box (nave_x n) (nave_y n) fx fy)
                   (naves g) with
           | Some i =>
               Some (set_naves
                       (alter (λ n, nave_set_destruida true (nave_set_ativa false n))
                              i (naves g)) g,
                     F_kill i true, Flip i)
           | None => Some (g, F_loop, Tau)
           end
  | F_kill hit_ship first =>
      if mutex_foguetes g then None
      else let g1 := set_foguetes (alter (fog_set_ativa false) k (foguetes g)) g in
           if first then Some (g1, F_expl hit_ship first, Tau)
           else Some (g1, F_exit, Tau)
  | F_expl hit_ship first =>
      if mutex_naves g then None
      else if first then Some (g, F_score hit_ship, Tau)
           else Some (g, F_exit, Tau)
  | F_score hit_ship => Some (score_kill g, F_exit, Score hit_ship)
  | F_exit =>
      if mutex_foguetes g then None
      else Some (set_num_foguetes_ativos (num_foguetes_ativos g - 1) g,
                 F_done, Tau)
  | F_done => None
  end.

(** [thread_artilheiro].  [A_sleep] records the argument of [usleep]. *)
Inductive ArtPc :=
| A_loop                        (* loop head, line 267 *)
| A_scan                        (* lock(mutex_lancadores), line 270 *)
| A_found (i : nat)             (* lock(mutex_estado), line 275; mutex_lancadores held *)
| A_sleep (i : nat) (dir_atual : DirecaoDisparo) (usec : Z)
                                (* usleep, then lock(mutex_lancadores), lines 280-281 *)
| A_wait                        (* inside pthread_cond_wait, line 293 *)
| A_done.

Definition bays (g : GameState) : list Lancador :=
  take (Z.to_nat (num_lancadores g)) (lancadores g).

(** A wait on [cond_lancador_vazio] may end at any time the mutex is free
    (POSIX allows spurious wake-ups), so the signals themselves are not kept. *)
Definition thread_artilheiro_step (g : GameState) (pc : ArtPc)
    : option (GameState * ArtPc) :=
  match pc with
  | A_loop => if game_over g then Some (g, A_done) else Some (g, A_scan)
  | A_scan =>
      if mutex_lancadores g then None
      else match find_first (λ l, negb (tem_foguete l)) (bays g) with
           | Some i => Some (set_mutex_lancadores true g, A_found i)
           | None =>
               (* todos_cheios: enter the inner loop *)
               if game_over g then Some (g, A_loop) else Some (g, A_wait)
           end
  | A_found i =>
      Some (set_mutex_lancadores false g,
            A_sleep i (direcao_atual g) (tempo_recarga g * 1000))
  | A_sleep i dir_atual _ =>
      if mutex_lancadores g then None
      else l ← lancadores g !! i;
           if negb (game_over g) && negb (tem_foguete l)
           then Some (set_lancadores
                        (alter (λ _, Build_Lancador true dir_atual) i (lancadores g)) g,
                      A_loop)
           else Some (g, A_loop)
  | A_wait =>
      if mutex_lancadores g then None
      else let any_empty := existsb (λ l, negb (tem_foguete l)) (bays g) in
           if any_empty then Some (g, A_loop)
           else if game_over g then Some (g, A_loop)
           else Some (g, A_wait)
  | A_done => None
  end.

(** [thread_input]. *)
Inductive InputPc :=
| I_loop                   (* loop head, line 74 *)
| I_getch                  (* lock(mutex_render); getch, lines 75-77 *)
| I_input (ch : Z)         (* process_input: lock(mutex_estado) *)
| I_fire (pc : FirePc)     (* inside tentar_disparar *)
| I_done.

Definition thread_input_step (o : Oracle) (new_tid : nat) (g : GameState)
    (pc : InputPc) : option (GameState * InputPc * option nat * Event) :=
  match pc with
  | I_loop =>
      if game_over g then Some (g, I_done, None, Tau)
      else Some (g, I_getch, None, Tau)
  | I_getch =>
      if o_getch o =? ERR then Some (g, I_loop, None, Tau)
      else Some (g, I_input (o_getch o), None, Tau)
  | I_input ch =>
      let '(g1, fire) := process_input g ch in
      if fire then Some (g1, I_fire T_entry, None, Tau)
      else Some (g1, I_loop, None, Tau)
  | I_fire (T_ret _) => Some (g, I_loop, None, Tau)
  | I_fire pc =>
      '(g1, pc1, sp, e) ← tentar_disparar_step o new_tid g pc;
      Some (g1, I_fire pc1, sp, e)
  | I_done => None
  end.

(** [thread_principal], with the calls of [criar_nave] and [render_game]. *)
Inductive PrincipalPc :=
| P_start                              (* lines 22-24 *)
| P_loop (wait_ms : Z)                 (* loop head, line 26 *)
| P_check (wait_ms : Z)                (* lock(mutex_estado), line 28 *)
| P_over                               (* lock(mutex_estado), line 44 *)
| P_criar (wait_ms : Z) (pc : CriarPc) (* inside criar_nave, line 60 *)
| P_render (wait_ms : Z) (pc : RenderPc)   (* inside render_game, line 66 *)
| P_ret.

Definition thread_principal_step (o : Oracle) (new_tid : nat) (g : GameState)
    (pc : PrincipalPc) : option (GameState * PrincipalPc * option nat * Event) :=
  match pc with
  | P_start =>
      wait_ms ← next_spawn_ms (cfg g) (o_rand o);
      Some (g, P_loop wait_ms, None, Tau)
  | P_loop wait_ms =>
      if game_over g then Some (g, P_ret, None, Tau)
      else Some (g, P_check wait_ms, None, Tau)
  | P_check wait_ms =>
      let g1 := set_elapsed_sec (o_elapsed o) g in
      let total := naves_total g1 in
      let destroyed := naves_destruidas g1 in
      let reached := naves_chegaram g1 in
      let spawned := naves_spawned g1 in
      let lose_now := Z.quot total 2 <? reached in
      let all_handled := total <=? destroyed + reached in
      if lose_now || all_handled then Some (g1, P_over, None, Tau)
      else if (spawned <? total) && (wait_ms <=? o_diff_ms o)
      then Some (g1, P_criar wait_ms C_entry, None, Tau)
      else Some (g1, P_render wait_ms R_ships, None, Tau)
  | P_over => Some (set_game_over true g, P_ret, None, Tau)
  | P_criar _ C_ret =>
      wait_ms ← next_spawn_ms (cfg g) (o_rand o);
      Some (g, P_render wait_ms R_ships, None, Tau)
  | P_criar wait_ms pc =>
      '(g1, pc1, sp, e) ← criar_nave_step o new_tid g pc;
      Some (g1, P_criar wait_ms pc1, sp, e)
  | P_render wait_ms R_ret => Some (g, P_loop wait_ms, None, Tau)
  | P_render wait_ms pc =>
      '(g1, pc1) ← render_game_step o g pc;
      Some (g1, P_render wait_ms pc1, None, Tau)
  | P_ret => None
  end.

(** ** main.c: the main thread runs [thread_principal], then
    [finalizar_threads] *)
Inductive MainPc :=
| M_principal (pc : PrincipalPc)
| M_final (pc : FinalPc)
| M_exit.                       (* [finalizar_threads] has returned, line 52 *)

(** ** The threads of a run *)

Record World := {
  game : GameState;
  th_main : MainPc;
  th_input : InputPc;
  th_artilheiro : ArtPc;
  th_naves : list (nat * NavePc);        (* slot and program point *)
  th_foguetes : list (nat * FoguetePc) }.

Inductive Tid :=
| TMain
| TInput
| TArtilheiro
| TNave (t : nat)
| TFoguete (t : nat).

Definition nave_done (w : World) (t : nat) : bool :=
  match th_naves w !! t with Some (_, N_done) => true | _ => false end.

Definition foguete_done (w : World) (t : nat) : bool :=
  match th_foguetes w !! t with Some (_, F_done) => true | _ => false end.

Definition loops_done (w : World) : bool :=
  match th_input w, th_artilheiro w with
  | I_done, A_done => true
  | _, _ => false
  end.

Definition spawn_nave (sp : option nat) (l : list (nat * NavePc)) :=
  match sp with Some idx => l ++ [(idx, N_loop)] | None => l end.

Definition spawn_foguete (sp : option nat) (l : list (nat * FoguetePc)) :=
  match sp with Some idx => l ++ [(idx, F_init)] | None => l end.

Definition main_step (o : Oracle) (w : World) : option (World * Event) :=
  match th_main w with
  | M_principal P_ret =>
      Some (Build_World (game w) (M_final Z_over) (th_input w)
              (th_artilheiro w) (th_naves w) (th_foguetes w), Tau)
  | M_principal pc =>
      '(g1, pc1, sp, e) ←
        thread_principal_step o (length (th_naves w)) (game w) pc;
      Some (Build_World g1 (M_principal pc1) (th_input w) (th_artilheiro w)
              (spawn_nave sp (th_naves w)) (th_foguetes w), e)
  | M_final Z_ret =>
      Some (Build_World (game w) M_exit (th_input w) (th_artilheiro w)
              (th_naves w) (th_foguetes w), Tau)
  | M_final pc =>
      '(g1, pc1) ← finalizar_threads_step (nave_done w) (foguete_done w)
                     (loops_done w) (game w) pc;
      Some (Build_World g1 (M_final pc1) (th_input w) (th_artilheiro w)
              (th_naves w) (th_foguetes w), Tau)
  | M_exit => None
  end.

Definition step_thread (o : Oracle) (t : Tid) (w : World)
    : option (World * Event) :=
  match t with
  | TMain => main_step o w
  | TInput =>
      '(g1, pc1, sp, e) ←
        thread_input_step o (length (th_foguetes w)) (game w) (th_input w);
      Some (Build_World g1 (th_main w) pc1 (th_artilheiro w) (th_naves w)
              (spawn_foguete sp (th_foguetes w)), e)
  | TArtilheiro =>
      '(g1, pc1) ← thread_artilheiro_step (game w) (th_artilheiro w);
      Some (Build_World g1 (th_main w) (th_input w) pc1 (th_naves w)
              (th_foguetes w), Tau)
  | TNave t =>
      '(k, pc) ← th_naves w !! t;
      '(g1, pc1, e) ← thread_nave_step k (game w) pc;
      Some (Build_World g1 (th_main w) (th_input w) (th_artilheiro w)
              (<[t := (k, pc1)]> (th_naves w)) (th_foguetes w), e)
  | TFoguete t =>
      '(k, pc) ← th_foguetes w !! t;
      '(g1, pc1, e) ← thread_foguete_step k (game w) pc;
      Some (Build_World g1 (th_main w) (th_input w) (th_artilheiro w)
              (th_naves w) (<[t := (k, pc1)]> (th_foguetes w)), e)
  end.

(** The world when [main] enters [thread_principal], at line 49: both
    [pthread_create] of lines 40-47 have succeeded. *)
Definition init_world (dificuldade now : Z) : World :=
  {| game := game_init dificuldade now;
     th_main := M_principal P_start;
     th_input := I_loop;
     th_artilheiro := A_loop;
     th_naves := [];
     th_foguetes := [] |}.

(** One step of some thread, and runs with their traces. *)
Inductive step : World → Tid * Event → World → Prop :=
| step_intro o t w w' e :
    step_thread o t w = Some (w', e) → step w (t, e) w'.

Inductive exec : World → list (Tid * Event) → World → Prop :=
| exec_nil w : exec w [] w
| exec_snoc w tr w1 l w2 :
    exec w tr w1 → step w1 l w2 → exec w (tr ++ [l]) w2.

Definition reachable (w : World) : Prop :=
  ∃ d now tr, exec (init_world d now) tr w.

(** ** Calls run to completion without interference *)

Fixpoint criar_nave_call (fuel : nat) (o : Oracle) (new_tid : nat)
    (g : GameState) (pc : CriarPc) (sp : option nat)
    : option (GameState * option nat) :=
  match pc, fuel with
  | C_ret, _ => Some (g, sp)
  | _, O => None
  | _, S fuel' =>
      '(g1, pc1, sp1, _) ← criar_nave_step o new_tid g pc;
      criar_nave_call fuel' o new_tid g1 pc1 (from_option Some sp sp1)
  end.

Definition criar_nave (o : Oracle) (new_tid : nat) (g : GameState) :=
  criar_nave_call 5 o new_tid g C_entry None.

Fixpoint tentar_disparar_call (fuel : nat) (o : Oracle) (new_tid : nat)
    (g : GameState) (pc : FirePc) (sp : option nat)
    : option (GameState * bool * option nat) :=
  match pc, fuel with
  | T_ret fired, _ => Some (g, fired, sp)
  | _, O => None
  | _, S fuel' =>
      '(g1, pc1, sp1, _) ← tentar_disparar_step o new_tid g pc;
      tentar_disparar_call fuel' o new_tid g1 pc1 (from_option Some sp sp1)
  end.

Definition tentar_disparar (o : Oracle) (new_tid : nat) (g : GameState) :=
  tentar_disparar_call 5 o new_tid g T_entry None.

(** The counters the scoring path writes. *)
Definition score_counters (g : GameState) : Z * Z * Z * Z * Z * Z :=
  (pontuacao g, naves_destruidas g, naves_chegaram g,
   shots_hit g, current_streak g, best_streak g).

(** * The rest of render.c and main.c *)

(** ** render.c: the explosion ring *)

Record Explosion := {
  expl_x : Z;
  expl_y : Z;
  frames_left : Z }.

Definition MAX_EXPLOSIONS : Z := 32.

(** The static array [s_expl] and [s_expl_count]. *)
Record ExplRing := {
  s_expl : list Explosion;
  s_expl_count : Z }.

(** The ring at program start, and after [render_init] (which resets the
    count only). *)
Definition expl_zero : Explosion := Build_Explosion 0 0 0.

Definition ring_init : ExplRing :=
  {| s_expl := replicate (Z.to_nat MAX_EXPLOSIONS) expl_zero;
     s_expl_count := 0 |}.

(** [expl_add], which [render_add_explosion] calls. *)
Definition expl_add (x y : Z) (r : ExplRing) : ExplRing :=
  if s_expl_count r <? MAX_EXPLOSIONS
  then {| s_expl := <[Z.to_nat (s_expl_count r) := Build_Explosion x y 5]> (s_expl r);
          s_expl_count := s_expl_count r + 1 |}
  else r.

Definition render_add_explosion (x y : Z) (r : ExplRing) : ExplRing :=
  expl_add x y r.

(** The inner loop of [expl_update], line 48:
    [for (j = i; j < s_expl_count - 1; ++j) s_expl[j] = s_expl[j+1]].
    [None] is a read outside the array, or fuel that ran out. *)
Fixpoint expl_shift (fuel : nat) (j : Z) (r : ExplRing) : option ExplRing :=
  if negb (j <? s_expl_count r - 1) then Some r
  else match fuel with
       | O => None
       | S fuel' =>
           e ← s_expl r !! Z.to_nat (j + 1);
           expl_shift fuel' (j + 1)
             {| s_expl := <[Z.to_nat j := e]> (s_expl r);
                s_expl_count := s_expl_count r |}
       end.

Definition expl_age (e : Explosion) : Explosion :=
  {| expl_x := expl_x e; expl_y := expl_y e; frames_left := frames_left e - 1 |}.

(** The outer loop of [expl_update], lines 45-52, from index [i]. *)
Fixpoint expl_update_loop (fuel : nat) (i : Z) (r : ExplRing)
    : option ExplRing :=
  if negb (i <? s_expl_count r) then Some r
  else match fuel with
       | O => None
       | S fuel' =>
           e ← s_expl r !! Z.to_nat i;
           let r1 := {| s_expl := <[Z.to_nat i := expl_age e]> (s_expl r);
                        s_expl_count := s_expl_count r |} in
           if frames_left (expl_age e) <=? 0
           then r2 ← expl_shift (Z.to_nat (s_expl_count r1)) i r1;
                expl_update_loop fuel' (i - 1 + 1)
                  {| s_expl := s_expl r2; s_expl_count := s_expl_count r2 - 1 |}
           else expl_update_loop fuel' (i + 1) r1
       end.

(** Every pass of the outer loop either advances [i] or shortens the ring,
    so [s_expl_count] passes are enough. *)
Definition expl_update (r : ExplRing) : option ExplRing :=
  expl_update_loop (Z.to_nat (s_expl_count r)) 0 r.

(** The explosions in the ring. *)
Definition expl_live (r : ExplRing) : list Explosion :=
  take (Z.to_nat (s_expl_count r)) (s_expl r).

(** ** render.c: what [render_game] draws on the pad *)

(** [mvwaddch(s_pad, y, x, c)], with the character as its code. *)
Inductive Draw :=
| Addch (y x : Z) (c : Z).

Definition ch_ground : Z := 95.     (* '_' *)
Definition ch_ship : Z := 86.       (* 'V' *)
Definition ch_bar : Z := 124.       (* '|' *)
Definition ch_backslash : Z := 92.  (* '\\' *)
Definition ch_slash : Z := 47.      (* '/' *)
Definition ch_lt : Z := 60.         (* '<' *)
Definition ch_gt : Z := 62.         (* '>' *)
Definition ch_caret : Z := 94.      (* '^' *)
Definition ch_star : Z := 42.       (* '*' *)
Definition ch_eq : Z := 61.         (* '=' *)

(** The snapshots of lines 99-107 and 114-123. *)
Definition ships_snapshot (g : GameState) : list (Z * Z) :=
  (λ n, (nave_x n, nave_y n)) <$> filter (λ n, nave_ativa n = true) (naves g).

Definition rockets_snapshot (g : GameState) : list (Z * Z * DirecaoDisparo) :=
  (λ f, (fog_x f, fog_y f, fog_direcao f))
    <$> filter (λ f, fog_ativa f = true) (foguetes g).

(** [x >= 0 && x < sw && y >= game_start_y && y < game_end_y]. *)
Definition in_field (sw game_start_y game_end_y x y : Z) : bool :=
  (0 <=? x) && (x <? sw) && (game_start_y <=? y) && (y <? game_end_y).

(** Lines 165-167. *)
Definition draw_ground (sw ground_y : Z) : list Draw :=
  (λ x, Addch ground_y x ch_ground) <$> seqZ 0 sw.

(** Lines 170-176. *)
Definition draw_ships (sw game_start_y game_end_y : Z) (ships : list (Z * Z))
    : list Draw :=
  omap (λ '(x, y),
          if in_field sw game_start_y game_end_y x y
          then Some (Addch y x ch_ship) else None) ships.

(** Lines 182-189. *)
Definition rocket_sym (d : DirecaoDisparo) : Z :=
  match d with
  | DIR_VERTICAL => ch_bar
  | DIR_DIAGONAL_ESQ => ch_backslash
  | DIR_DIAGONAL_DIR => ch_slash
  | DIR_HORIZONTAL_ESQ => ch_lt
  | DIR_HORIZONTAL_DIR => ch_gt
  end.

(** Lines 179-193. *)
Definition draw_rockets (sw game_start_y game_end_y : Z)
    (rockets : list (Z * Z * DirecaoDisparo)) : list Draw :=
  omap (λ '(x, y, d),
          if in_field sw game_start_y game_end_y x y
          then Some (Addch y x (rocket_sym d)) else None) rockets.

(** Lines 196-206. *)
Definition draw_battery (sw ground_y bx : Z) : list Draw :=
  if (0 <=? bx) && (bx <? sw)
  then if (0 <? bx) && (bx <? sw - 1)
       then [Addch ground_y (bx - 1) ch_slash;
             Addch ground_y bx ch_caret;
             Addch ground_y (bx + 1) ch_backslash]
       else [Addch ground_y bx ch_caret]
  else [].

(** Lines 209-216: [(aim_dx, aim_dy, aim_ch)]. *)
Definition aim_of (dir : DirecaoDisparo) : Z * Z * Z :=
  match dir with
  | DIR_VERTICAL => (0, -1, ch_bar)
  | DIR_DIAGONAL_ESQ => (-1, -1, ch_backslash)
  | DIR_DIAGONAL_DIR => (1, -1, ch_slash)
  | DIR_HORIZONTAL_ESQ => (-1, 0, ch_lt)
  | DIR_HORIZONTAL_DIR => (1, 0, ch_gt)
  end.

(** Lines 218-223: [n] passes of the loop from [(px, py)]. *)
Fixpoint draw_aim (n : nat) (sw game_start_y game_end_y : Z)
    (px py aim_dx aim_dy aim_ch : Z) : list Draw :=
  match n with
  | O => []
  | S n' =>
      let px := px + aim_dx in
      let py := py + aim_dy in
      (if in_field sw game_start_y game_end_y px py
       then [Addch py px aim_ch] else [])
      ++ draw_aim n' sw game_start_y game_end_y px py aim_dx aim_dy aim_ch
  end.

(** Lines 230-237. *)
Definition draw_explosion (sw game_start_y game_end_y : Z) (e : Explosion)
    : list Draw :=
  let ex := expl_x e in
  let ey := expl_y e in
  if in_field sw game_start_y game_end_y ex ey
  then [Addch ey ex ch_star]
       ++ (if 0 <? ex then [Addch ey (ex - 1) ch_star] else [])
       ++ (if ex <? sw - 1 then [Addch ey (ex + 1) ch_star] else [])
       ++ (if game_start_y <? ey then [Addch (ey - 1) ex ch_star] else [])
       ++ (if ey <? game_end_y - 1 then [Addch (ey + 1) ex ch_star] else [])
  else [].

(** Lines 160-240: the playfield, from the values [render_game] holds after
    its snapshots and the publication of the terminal size. *)
Definition draw_playfield (sw sh hud ch bx : Z) (dir : DirecaoDisparo)
    (ships : list (Z * Z)) (rockets : list (Z * Z * DirecaoDisparo))
    (r : ExplRing) : list Draw :=
  let game_start_y := hud in
  let game_end_y := sh - ch in
  let ground_y := game_end_y - 1 in
  let '(aim_dx, aim_dy, aim_ch) := aim_of dir in
  draw_ground sw ground_y
  ++ draw_ships sw game_start_y game_end_y ships
  ++ draw_rockets sw game_start_y game_end_y rockets
  ++ draw_battery sw ground_y bx
  ++ draw_aim 4 sw game_start_y game_end_y bx ground_y aim_dx aim_dy aim_ch
  ++ (expl_live r ≫= draw_explosion sw game_start_y game_end_y).

(** Lines 259-261: the number shown as [Ships Rem]. *)
Definition hud_remaining (total destroyed reached : Z) : Z :=
  let handled := destroyed + reached in
  let remaining := total - handled in
  if remaining <? 0 then 0 else remaining.

(** Lines 266-282: the bar of loaded bays. *)
Definition loaded_bays (g : GameState) : Z :=
  Z.of_nat (length (filter (λ l, tem_foguete l = true) (bays g))).

Definition bar_x : Z := 58.

Definition bar_w (sw : Z) : Z := if 60 <? sw then Z.quot sw 5 else 12.

Definition bar_shown (sw : Z) : bool :=
  (bar_x + 10 <? sw) && (bar_x + 2 + bar_w sw + 8 <? sw).

Definition bar_filled (launchers loaded bar_w : Z) : Z :=
  if 0 <? launchers then Z.quot (loaded * bar_w) launchers else 0.

(** The cells of the bar, line 279. *)
Definition bar_cells (bar_w filled : Z) : list Z :=
  (λ i, if i <? filled then ch_eq else ch_space) <$> seqZ 0 bar_w.

(** ** main.c *)

(** The character [s[i]] of a C string, as its code; the terminator is 0. *)
Definition char_at (i : nat) (s : string) : Z :=
  from_option (λ c, Z.of_nat (Ascii.nat_of_ascii c)) 0 (String.get i s).

(** How [main] starts, lines 26-31: [argv1] is [argv[1]] when [argc > 1],
    and [atoi] is the C library's. *)
Inductive MainStart :=
| Usage                     (* print_usage; return 0 *)
| Invalid                   (* "Invalid difficulty."; return 1 *)
| Play (dificuldade : Z).   (* game_init(&game, dificuldade) *)

Definition main_start (atoi : string → Z) (argv1 : option string)
    : MainStart :=
  match argv1 with
  | None => Play 1
  | Some a =>
      if (char_at 0 a =? 45) && (char_at 1 a =? 104) then Usage
      else let dificuldade := atoi a in
           if (dificuldade <? 0) || (2 <? dificuldade) then Invalid
           else Play dificuldade
  end.


(** * Vocabulary of the properties *)

(** ** Counting on a set of slots

    Slots are selected by [sel : nat → bool]: [Nat.eqb i] for the statements
    about one actor, [all_slots] for the totals. *)

Abbreviation all_slots := (λ _ : nat, true).

Definition bit (b : bool) : nat := if b then 1%nat else 0%nat.

(** Events on selected slots. *)
Definition is_spawn (sel : nat → bool) (e : Event) : nat :=
  match e with Spawn i => bit (sel i) | _ => 0%nat end.

Definition is_flip (sel : nat → bool) (e : Event) : nat :=
  match e with Flip i => bit (sel i) | _ => 0%nat end.

Definition is_score (sel : nat → bool) (e : Event) : nat :=
  match e with Score i => bit (sel i) | _ => 0%nat end.

Definition count (f : Event → nat) (tr : list (Tid * Event)) : nat :=
  sum_list_with (λ l, f l.2) tr.

(** Selected slots whose [ativa] is set; [alive_from] counts from index [i]. *)
Fixpoint alive_from (sel : nat → bool) (i : nat) (l : list Nave) : nat :=
  match l with
  | [] => 0%nat
  | n :: l' => (bit (sel i && nave_ativa n) + alive_from sel (S i) l')%nat
  end.

Definition alive (sel : nat → bool) (l : list Nave) : nat := alive_from sel 0 l.

Definition slot_ativa (g : GameState) (i : nat) : option bool :=
  nave_ativa <$> naves g !! i.

(** A task is pending on a slot from its flip of [ativa] (it holds
    [first = true]) to its score update: a ship task at lines 115 and 151, a
    rocket task from line 229 to line 242. *)
Definition pendN (sel : nat → bool) (t : nat * NavePc) : nat :=
  match t.2 with
  | N_score_ground | N_score_kill => bit (sel t.1)
  | _ => 0%nat
  end.

Definition pendF (sel : nat → bool) (t : nat * FoguetePc) : nat :=
  match t.2 with
  | F_kill i true | F_expl i true | F_score i => bit (sel i)
  | _ => 0%nat
  end.

(** The pending weight of one thread, and of all threads. *)
Definition pend_of (sel : nat → bool) (t : Tid) (w : World) : nat :=
  match t with
  | TNave n => from_option (pendN sel) 0%nat (th_naves w !! n)
  | TFoguete n => from_option (pendF sel) 0%nat (th_foguetes w !! n)
  | _ => 0%nat
  end.

Definition pending (sel : nat → bool) (w : World) : nat :=
  (sum_list_with (pendN sel) (th_naves w)
   + sum_list_with (pendF sel) (th_foguetes w))%nat.

(** Ships handled: destroyed plus on the ground. *)
Definition handled (g : GameState) : Z := naves_destruidas g + naves_chegaram g.

(** The write of a kill, lines 143-144 and 217-218. *)
Definition kill (n : Nave) : Nave :=
  nave_set_destruida true (nave_set_ativa false n).

(** ** What steps keep *)

(** What every step keeps: the gate accounting on the selected slots, the
    sum of destroyed and escaped ships, the total, a set termination flag,
    and, unless it is a score update, the score counters.  [p] and [p'] are
    the pending weights of the stepping task before and after. *)
Definition gate_ok (sel : nat → bool) (g g' : GameState) (e : Event)
    (p p' : nat) : Prop :=
  (is_score sel e + p' = is_flip sel e + p)%nat
  ∧ (is_flip sel e + alive sel (naves g') ≤ is_spawn sel e + alive sel (naves g))%nat
  ∧ handled g' = handled g + Z.of_nat (is_score all_slots e)
  ∧ naves_total g' = naves_total g
  ∧ (game_over g = true → game_over g' = true)
  ∧ (is_score all_slots e = 0%nat → score_counters g' = score_counters g).

(** What the steps outside [criar_nave], [process_input] and [render_game]
    keep besides. *)
Definition frame_ok (g g' : GameState) (e : Event) : Prop :=
  naves_spawned g' = naves_spawned g
  ∧ bateria_x g' = bateria_x g
  ∧ screen_width g' = screen_width g
  ∧ is_spawn all_slots e = 0%nat.

(** What each kind of event says about the step that carries it: [p] and
    [p'] tell on which slots the stepping task is pending before and after. *)
Definition gate_event_ok (g g' : GameState) (e : Event)
    (p p' : (nat → bool) → nat) : Prop :=
  match e with
  | Flip i =>
      mutex_naves g = false ∧ mutex_naves g' = false
      ∧ slot_ativa g i = Some true ∧ slot_ativa g' i = Some false
      ∧ score_counters g' = score_counters g
      ∧ p all_slots = 0%nat ∧ p' (Nat.eqb i) = 1%nat
  | Miss i =>
      slot_ativa g i = Some false ∧ g' = g
      ∧ p all_slots = 0%nat ∧ p' all_slots = 0%nat
  | Score i =>
      p (Nat.eqb i) = 1%nat ∧ p' all_slots = 0%nat
      ∧ handled g' = handled g + 1
  | Spawn _ | Tau =>
      score_counters g' = score_counters g ∧ ∀ sel, p' sel = p sel
  end.

(** Events of the threads that have no gate. *)
Definition silent (e : Event) : Prop :=
  match e with Tau | Spawn _ => True | _ => False end.

(** ** Spawn accounting

    [uncountedC] is one while [criar_nave] is between the write of the slot
    and the increment of [naves_spawned] (lines 118-121); [reservedC] is one
    from the passed check of line 90 to that increment. *)
Definition uncountedC (pc : CriarPc) : Z :=
  match pc with C_count _ => 1 | _ => 0 end.

Definition reservedC (pc : CriarPc) : Z :=
  match pc with C_find | C_init _ | C_count _ => 1 | _ => 0 end.

Definition uncounted (pc : MainPc) : Z :=
  match pc with M_principal (P_criar _ c) => uncountedC c | _ => 0 end.

Definition reserved (pc : MainPc) : Z :=
  match pc with M_principal (P_criar _ c) => reservedC c | _ => 0 end.

Definition spawn_ok (w w' : World) (e : Event) : Prop :=
  naves_spawned (game w') + uncounted (th_main w')
  = naves_spawned (game w) + uncounted (th_main w)
    + Z.of_nat (is_spawn all_slots e)
  ∧ (naves_spawned (game w) + reserved (th_main w) <= naves_total (game w) →
     naves_spawned (game w') + reserved (th_main w') <= naves_total (game w')).

(** ** The battery on the screen *)

Definition aim_ok (g : GameState) : Prop :=
  0 <= bateria_x g <= screen_width g - 1.

(** [render_game] is about to publish a width of at least 40 columns
    (line 144). *)
Definition publish_ok (pc : RenderPc) : Prop :=
  match pc with R_publish real_w _ => 40 <= real_w | _ => True end.

Definition main_publish_ok (pc : MainPc) : Prop :=
  match pc with M_principal (P_render _ r) => publish_ok r | _ => True end.

Definition aim_inv (w : World) : Prop :=
  main_publish_ok (th_main w) ∧ aim_ok (game w).

(** ** Schedules

    A schedule run as a function, with the trace of its events. *)
Fixpoint run_trace (sched : list (Oracle * Tid)) (w : World)
    : option (list (Tid * Event) * World) :=
  match sched with
  | [] => Some ([], w)
  | (o, t) :: sched' =>
      '(w1, e) ← step_thread o t w;
      '(tr, w2) ← run_trace sched' w1;
      Some ((t, e) :: tr, w2)
  end.

(** ** What a key can touch

    [g'] is [g] up to the battery column, the aim and the termination
    flag. *)
Definition input_frame (g g' : GameState) : Prop :=
  g' = set_game_over (game_over g')
         (set_direcao_atual (direcao_atual g')
            (set_bateria_x (bateria_x g') g)).

(** ** What every step keeps of the game state

    The configuration and the array sizes stay; the counters do not go
    down. *)
Definition steady (g g' : GameState) : Prop :=
  cfg g' = cfg g
  ∧ dificuldade g' = dificuldade g
  ∧ naves_total g' = naves_total g
  ∧ num_lancadores g' = num_lancadores g
  ∧ tempo_recarga g' = tempo_recarga g
  ∧ hud_height g' = hud_height g
  ∧ controls_height g' = controls_height g
  ∧ start_time g' = start_time g
  ∧ length (naves g') = length (naves g)
  ∧ length (foguetes g') = length (foguetes g)
  ∧ length (lancadores g') = length (lancadores g)
  ∧ pontuacao g <= pontuacao g'
  ∧ naves_destruidas g <= naves_destruidas g'
  ∧ naves_chegaram g <= naves_chegaram g'
  ∧ naves_spawned g <= naves_spawned g'
  ∧ shots_fired g <= shots_fired g'
  ∧ shots_hit g <= shots_hit g'
  ∧ best_streak g <= best_streak g'
  ∧ (game_over g = true → game_over g' = true).

(** Steps that leave the mutexes and the published terminal size alone. *)
Definition quiet (g g' : GameState) : Prop :=
  mutex_naves g' = mutex_naves g
  ∧ mutex_foguetes g' = mutex_foguetes g
  ∧ mutex_lancadores g' = mutex_lancadores g
  ∧ screen_width g' = screen_width g
  ∧ screen_height g' = screen_height g.

(** A step of a task that holds mutex [m] at the program points told by
    [h] (before) and [h'] (after). *)
Definition lock_step (h h' m m' : bool) : Prop :=
  (h = true → m = true) →
  m' = (if h' then true else if h then false else m)
  ∧ (h' = true → h = false → m = false).

(** How the score counters hang together. *)
Definition score_rel (g : GameState) : Prop :=
  pontuacao g = 10 * naves_destruidas g
  ∧ shots_hit g = naves_destruidas g
  ∧ 0 <= current_streak g <= best_streak g
  ∧ best_streak g <= naves_destruidas g
  ∧ 0 <= naves_chegaram g.

(** The terminal as [render_game] publishes it, and the two bands. *)
Definition screen_ok (g : GameState) : Prop :=
  40 <= screen_width g ∧ 8 <= screen_height g
  ∧ hud_height g = HUD_H ∧ controls_height g = CTRL_H.

Definition publish_big (pc : MainPc) : Prop :=
  match pc with
  | M_principal (P_render _ (R_publish real_w real_h)) => 40 <= real_w ∧ 8 <= real_h
  | _ => True
  end.

(** ** Who holds a mutex

    The program points between a [pthread_mutex_lock] and its unlock that
    lie in different steps. *)
Definition holds_naves (pc : MainPc) : bool :=
  match pc with M_principal (P_criar _ (C_init _)) => true | _ => false end.

Definition input_holds_lancadores (pc : InputPc) : bool :=
  match pc with
  | I_fire (T_bay _ | T_slot _ _ | T_count _ _) => true
  | _ => false
  end.

Definition input_holds_foguetes (pc : InputPc) : bool :=
  match pc with I_fire (T_slot _ _ | T_count _ _) => true | _ => false end.

Definition art_holds_lancadores (pc : ArtPc) : bool :=
  match pc with A_found _ => true | _ => false end.

Definition locks_ok (w : World) : Prop :=
  mutex_naves (game w) = holds_naves (th_main w)
  ∧ mutex_foguetes (game w) = input_holds_foguetes (th_input w)
  ∧ mutex_lancadores (game w)
    = input_holds_lancadores (th_input w) || art_holds_lancadores (th_artilheiro w)
  ∧ input_holds_lancadores (th_input w) && art_holds_lancadores (th_artilheiro w)
    = false.

(** ** Indices held by the tasks *)

Definition criar_slot_ok (g : GameState) (pc : MainPc) : Prop :=
  match pc with
  | M_principal (P_criar _ (C_init idx | C_count idx | C_undo idx)) =>
      (idx < length (naves g))%nat
  | _ => True
  end.

Definition fire_slot_ok (g : GameState) (pc : InputPc) : Prop :=
  match pc with
  | I_fire (T_bay l) => (l < length (lancadores g))%nat
  | I_fire (T_slot l f | T_count l f) =>
      (l < length (lancadores g))%nat ∧ (f < length (foguetes g))%nat
  | I_fire (T_undo f) => (f < length (foguetes g))%nat
  | _ => True
  end.

Definition art_slot_ok (g : GameState) (pc : ArtPc) : Prop :=
  match pc with
  | A_found i | A_sleep i _ _ => (i < length (lancadores g))%nat
  | _ => True
  end.

Definition slots_ok (w : World) : Prop :=
  length (naves (game w)) = Z.to_nat MAX_NAVES
  ∧ length (foguetes (game w)) = Z.to_nat MAX_FOGUETES
  ∧ length (lancadores (game w)) = Z.to_nat MAX_LANCADORES
  ∧ Forall (λ t, (t.1 < Z.to_nat MAX_NAVES)%nat) (th_naves w)
  ∧ Forall (λ t, (t.1 < Z.to_nat MAX_FOGUETES)%nat) (th_foguetes w)
  ∧ criar_slot_ok (game w) (th_main w)
  ∧ fire_slot_ok (game w) (th_input w)
  ∧ art_slot_ok (game w) (th_artilheiro w).

(** ** Ship tasks and their count *)

Definition live_nave (t : nat * NavePc) : nat :=
  match t.2 with N_done => 0%nat | _ => 1%nat end.

Definition live_naves (w : World) : nat :=
  sum_list_with live_nave (th_naves w).

(** [criar_nave] has counted a ship whose task does not exist yet. *)
Definition counted_ahead (pc : MainPc) : Z :=
  match pc with
  | M_principal (P_criar _ (C_count _ | C_undo _)) => 1
  | _ => 0
  end.

Definition spawned_one (sp : option nat) : Z :=
  match sp with Some _ => 1 | None => 0 end.

Definition tasks_ok (w : World) : Prop :=
  Z.of_nat (live_naves w) + counted_ahead (th_main w) <= num_naves_ativas (game w)
  ∧ num_naves_ativas (game w) + Z.b2z (holds_naves (th_main w)) <= MAX_NAVES.

(** ** The end of a run *)

(** The test of [thread_principal], lines 36-43, on the current counters. *)
Definition rule_end (g : GameState) : bool :=
  (Z.quot (naves_total g) 2 <? naves_chegaram g)
  || (naves_total g <=? naves_destruidas g + naves_chegaram g).

Definition main_past_loop (pc : MainPc) : bool :=
  match pc with
  | M_principal P_ret | M_final _ | M_exit => true
  | _ => false
  end.

Definition main_joined (pc : MainPc) : bool :=
  match pc with M_final Z_ret | M_exit => true | _ => false end.

Definition ending_ok (w : World) : Prop :=
  (th_main w = M_principal P_over → rule_end (game w) = true)
  ∧ (main_past_loop (th_main w) = true → game_over (game w) = true)
  ∧ (main_joined (th_main w) = true → loops_done w = true).

(** All of it. *)
Definition coherent (w : World) : Prop :=
  score_rel (game w)
  ∧ screen_ok (game w)
  ∧ publish_big (th_main w)
  ∧ 0 < naves_total (game w)
  ∧ locks_ok w
  ∧ slots_ok w
  ∧ tasks_ok w
  ∧ ending_ok w.

(** ** Tasks that hold a mutex, and tasks that wait for none

    [mutex_render] has no field: [render_game] takes it at line 139 and
    releases it at line 314, and [thread_input] holds it within one step. *)
Definition holds_render (pc : MainPc) : bool :=
  match pc with
  | M_principal (P_render _ (R_publish _ _ | R_hud | R_bar)) => true
  | _ => false
  end.

(** The task is between a lock and its unlock. *)
Definition holder (w : World) (t : Tid) : bool :=
  match t with
  | TMain => holds_naves (th_main w) || holds_render (th_main w)
  | TInput => input_holds_lancadores (th_input w)
  | TArtilheiro => art_holds_lancadores (th_artilheiro w)
  | TNave _ | TFoguete _ => false
  end.

(** A schedule in which every step is taken by a task that holds a mutex. *)
Fixpoint run_holders (sched : list (Oracle * Tid)) (w : World) : option World :=
  match sched with
  | [] => Some w
  | (o, t) :: sched' =>
      if holder w t
      then '(w1, _) ← step_thread o t w; run_holders sched' w1
      else None
  end.

(** The task exists, has not returned, and is neither inside
    [pthread_cond_wait] (the reloader) nor inside [pthread_join] (the main
    thread): what it needs next is a mutex at most. *)
Definition can_run (w : World) (t : Tid) : Prop :=
  match t with
  | TMain =>
      match th_main w with
      | M_exit | M_final (Z_join _ _) => False
      | _ => True
      end
  | TInput => th_input w ≠ I_done
  | TArtilheiro => th_artilheiro w ≠ A_done ∧ th_artilheiro w ≠ A_wait
  | TNave n => ∃ k pc, th_naves w !! n = Some (k, pc) ∧ pc ≠ N_done
  | TFoguete n => ∃ k pc, th_foguetes w !! n = Some (k, pc) ∧ pc ≠ F_done
  end.

Definition mutexes_free (g : GameState) : Prop :=
  mutex_naves g = false ∧ mutex_foguetes g = false ∧ mutex_lancadores g = false.

(** ** The explosion ring *)

(** The count is within the array, and every explosion in the ring has
    between one and five frames left. *)
Definition ring_ok (r : ExplRing) : Prop :=
  0 <= s_expl_count r <= MAX_EXPLOSIONS
  ∧ length (s_expl r) = Z.to_nat MAX_EXPLOSIONS
  ∧ ∀ e, e ∈ expl_live r → 1 <= frames_left e <= 5.

(** [n] frames, each ending in [expl_update]. *)
Definition expl_frames (n : nat) (r : ExplRing) : option ExplRing :=
  Nat.iter n (λ r, r ≫= expl_update) (Some r).

Definition expl_age_by (k : nat) (e : Explosion) : Explosion :=
  {| expl_x := expl_x e; expl_y := expl_y e;
     frames_left := frames_left e - Z.of_nat k |}.

(** ** Where a character lands *)

Definition draw_inside (sw lo hi : Z) (d : Draw) : Prop :=
  match d with Addch y x _ => 0 <= x < sw ∧ lo <= y < hi end.

(** ** A rocket's ticks

    The move of one tick of [thread_foguete] (lines 187-191), and [n] of
    them. *)
Definition foguete_move (k : nat) (g : GameState) : option GameState :=
  '(g', _, _) ← thread_foguete_step k g F_move; Some g'.

Definition foguete_moves (n : nat) (k : nat) (g : GameState)
    : option GameState :=
  Nat.iter n (λ r, r ≫= foguete_move k) (Some g).

(** * Concrete states and runs *)

Definition oracle_create_fails : Oracle :=
  Build_Oracle 7 0 5000 32 32 120 true false.

Definition oracle_malloc_fails : Oracle :=
  Build_Oracle 7 0 5000 32 32 120 false true.

Definition oracle_fire : Oracle :=
  Build_Oracle 60 0 5000 ch_space 32 120 true true.

Definition oracle_quit : Oracle :=
  Build_Oracle 60 0 5000 ch_x 32 120 true true.

Definition by_thread (t : Tid) (n : nat) : list (Oracle * Tid) :=
  replicate n (oracle_fire, t).

(** The reloader loads bay 0; the player fires; the main loop spawns a
    ship in column 60; the rocket climbs 23 rows and starts its 24th tick;
    the ship takes one step down and sees the rocket first; the rocket then
    finds the ship and flips its flag; the ship reaches its gate too late; the
    rocket scores. *)
Definition sched_hit : list (Oracle * Tid) :=
  by_thread TArtilheiro 4 ++ by_thread TInput 7 ++ by_thread TMain 7
  ++ by_thread (TFoguete 0) (1 + 23 * 6 + 5)
  ++ by_thread (TNave 0) 4
  ++ by_thread (TFoguete 0) 1
  ++ by_thread (TNave 0) 1
  ++ by_thread (TFoguete 0) 3.

Definition world_hit : World :=
  default (init_world 0 0) (snd <$> run_trace sched_hit (init_world 0 0)).

Definition trace_hit : list (Tid * Event) :=
  default [] (fst <$> run_trace sched_hit (init_world 0 0)).

(** The reloader has loaded bay 0. *)
Definition world_loaded : World :=
  default (init_world 0 0)
          (snd <$> run_trace (by_thread TArtilheiro 4) (init_world 0 0)).

Definition game_one_loaded : GameState := game world_loaded.

(** A rocket that meets nothing: the reloader loads bay 0, the player
    fires, and the rocket climbs from row 29 to row 2, above the HUD band;
    [world_rocket_top] is the state at its boundary test there. *)
Definition sched_rocket_top : list (Oracle * Tid) :=
  by_thread TArtilheiro 4 ++ by_thread TInput 7
  ++ by_thread (TFoguete 0) (1 + 26 * 6 + 3).

Definition world_rocket_top : World :=
  default (init_world 0 0)
          (snd <$> run_trace sched_rocket_top (init_world 0 0)).

Definition world_rocket_gone : World :=
  default world_rocket_top
          (snd <$> run_trace (by_thread (TFoguete 0) 3) world_rocket_top).

(** The Easy scenario: one pass of the main loop that spawns a ship and
    draws a frame, then the ship walks its 26 rows to the ground line; sixteen
    times over, each ship in slot 0 again, and the main loop at its check. *)
Definition main_cycle : list (Oracle * Tid) := by_thread TMain 14.

Definition ship_to_ground (t : nat) : list (Oracle * Tid) :=
  by_thread (TNave t) (25 * 4 + 3 + 3).

Definition sched_easy_16 : list (Oracle * Tid) :=
  by_thread TMain 1
  ++ concat (map (λ t, main_cycle ++ ship_to_ground t) (seq 0 16))
  ++ by_thread TMain 1.

Definition world_easy_16 : World :=
  default (init_world 0 0) (snd <$> run_trace sched_easy_16 (init_world 0 0)).

Definition trace_easy_16 : list (Tid * Event) :=
  default [] (fst <$> run_trace sched_easy_16 (init_world 0 0)).





(** The race of [sched_hit], with the main loop in between.  Up to
    [world_detected] the run is that of [sched_hit]: the ship task has seen
    the rocket (threads.c:131) and stands before its gate (threads.c:141),
    the rocket task stands before its scan of the ships (threads.c:210).
    Then the rocket flips the ship's flag and scores; the main loop comes
    round and [criar_nave] finds slot 0 free and writes a new ship into it,
    in column 10; the task of the first ship passes its gate on the new ship
    and scores; the task of the new ship finds its ship dead at its first
    look. *)
Definition oracle_far : Oracle :=
  Build_Oracle 10 0 5000 ch_space 32 120 true true.

Definition sched_detect : list (Oracle * Tid) :=
  by_thread TArtilheiro 4 ++ by_thread TInput 7 ++ by_thread TMain 7
  ++ by_thread (TFoguete 0) (1 + 23 * 6 + 5)
  ++ by_thread (TNave 0) 4.

Definition sched_stale_gate : list (Oracle * Tid) :=
  by_thread (TFoguete 0) 5
  ++ replicate 14 (oracle_far, TMain)
  ++ by_thread (TNave 0) 3
  ++ by_thread (TNave 1) 3.

Definition world_detected : World :=
  default (init_world 0 0) (snd <$> run_trace sched_detect (init_world 0 0)).

Definition trace_detect : list (Tid * Event) :=
  default [] (fst <$> run_trace sched_detect (init_world 0 0)).

Definition world_stale_gate : World :=
  default world_detected (snd <$> run_trace sched_stale_gate world_detected).

Definition trace_stale_gate : list (Tid * Event) :=
  default [] (fst <$> run_trace sched_stale_gate world_detected).

(** The player presses X after the hit; then all threads wind down. *)
Definition sched_press : list (Oracle * Tid) := replicate 4 (oracle_quit, TInput).

Definition sched_wind_down : list (Oracle * Tid) :=
  by_thread (TNave 0) 1 ++ by_thread (TFoguete 0) 1
  ++ by_thread TArtilheiro 1 ++ by_thread TInput 1 ++ by_thread TMain 16.

Definition world_pressed : World :=
  default world_hit (snd <$> run_trace sched_press world_hit).

Definition trace_wind_down : list (Tid * Event) :=
  default [] (fst <$> run_trace sched_wind_down world_pressed).

Definition world_exit : World :=
  default world_pressed (snd <$> run_trace sched_wind_down world_pressed).

(** All thirty ships of an Easy run spawned, none of them moved yet. *)
Definition sched_all_spawned : list (Oracle * Tid) :=
  by_thread TMain 1 ++ concat (replicate 30 main_cycle).

Definition world_all_spawned : World :=
  default (init_world 0 0)
          (snd <$> run_trace sched_all_spawned (init_world 0 0)).

(** The sixteenth ship of [sched_easy_16] is on the ground and the main
    loop has made its check: it stands before the store of [game_over]. *)
Definition world_easy_over : World :=
  default world_easy_16
          (snd <$> run_trace (by_thread TMain 1) world_easy_16).

Definition trace_easy_over : list (Tid * Event) :=
  default [] (fst <$> run_trace (by_thread TMain 1) world_easy_16).

(** From there to the exit of [main]: the reloader and the input task see
    the flag, and [finalizar_threads] has nobody to wait for. *)
Definition sched_easy_exit : list (Oracle * Tid) :=
  by_thread TMain 1 ++ by_thread TArtilheiro 1 ++ by_thread TInput 1
  ++ by_thread TMain 7.

Definition world_easy_exit : World :=
  default world_easy_over
          (snd <$> run_trace sched_easy_exit world_easy_over).

Definition trace_easy_exit : list (Tid * Event) :=
  default [] (fst <$> run_trace sched_easy_exit world_easy_over).

(** The player has pressed the space bar and [tentar_disparar] has taken a
    bay and a slot: it holds [mutex_lancadores] and [mutex_foguetes]. *)
Definition world_firing : World :=
  default world_loaded
          (snd <$> run_trace (by_thread TInput 5) world_loaded).

Definition trace_firing : list (Tid * Event) :=
  default [] (fst <$> run_trace (by_thread TInput 5) world_loaded).

(** * Properties *)

(** Reading a field after assignments: only the record projections and the
    assignment functions are unfolded. *)
Ltac gsimpl :=
  cbn [
    screen_width screen_height hud_height controls_height pontuacao
    naves_total naves_destruidas naves_chegaram naves_spawned game_over
    dificuldade cfg start_time elapsed_sec shots_fired shots_hit
    current_streak best_streak bateria_x direcao_atual lancadores
    num_lancadores tempo_recarga naves num_naves_ativas foguetes
    num_foguetes_ativos mutex_naves mutex_foguetes mutex_lancadores
    set_screen_width set_screen_height set_pontuacao set_naves_destruidas
    set_naves_chegaram set_naves_spawned set_game_over set_elapsed_sec
    set_shots_fired set_shots_hit set_current_streak set_best_streak
    set_bateria_x set_direcao_atual set_lancadores set_naves
    set_num_naves_ativas set_foguetes set_num_foguetes_ativos
    set_mutex_naves set_mutex_foguetes set_mutex_lancadores score_kill
    score_ground score_counters game th_main th_input th_artilheiro
    th_naves th_foguetes ].

Ltac gsimpl_all :=
  cbn [
    screen_width screen_height hud_height controls_height pontuacao
    naves_total naves_destruidas naves_chegaram naves_spawned game_over
    dificuldade cfg start_time elapsed_sec shots_fired shots_hit
    current_streak best_streak bateria_x direcao_atual lancadores
    num_lancadores tempo_recarga naves num_naves_ativas foguetes
    num_foguetes_ativos mutex_naves mutex_foguetes mutex_lancadores
    set_screen_width set_screen_height set_pontuacao set_naves_destruidas
    set_naves_chegaram set_naves_spawned set_game_over set_elapsed_sec
    set_shots_fired set_shots_hit set_current_streak set_best_streak
    set_bateria_x set_direcao_atual set_lancadores set_naves
    set_num_naves_ativas set_foguetes set_num_foguetes_ativos
    set_mutex_naves set_mutex_foguetes set_mutex_lancadores score_kill
    score_ground score_counters game th_main th_input th_artilheiro
    th_naves th_foguetes ] in *.

(** ** Array scans *)

Lemma find_first_Some {A} (p : A → bool) (l : list A) (i : nat) :
  find_first p l = Some i →
  ∃ x, l !! i = Some x ∧ p x = true
       ∧ ∀ j y, (j < i)%nat → l !! j = Some y → p y = false.
Proof.
  revert i. induction l as [|a l IH]; intros i; simpl; [done|].
  destruct (p a) eqn:Hp.
  - intros [= <-]. exists a. repeat split; [done|]. intros j y Hj. lia.
  - destruct (find_first p l) as [i'|] eqn:Hf; simpl; [|done].
    intros [= <-]. destruct (IH i' eq_refl) as (x & Hx & Hpx & Hlt).
    exists x. repeat split; [done..|].
    intros [|j] y Hj; simpl.
    + by intros [= <-].
    + apply Hlt. lia.
Qed.

Lemma find_first_None {A} (p : A → bool) (l : list A) :
  find_first p l = None ↔ ∀ x, x ∈ l → p x = false.
Proof.
  induction l as [|a l IH]; simpl.
  - split; [|done]. intros _ x Hx. by apply elem_of_nil in Hx.
  - destruct (p a) eqn:Hp.
    + split; [done|]. intros H. specialize (H a (list_elem_of_here _ _)). congruence.
    + destruct (find_first p l) eqn:Hf; simpl.
      * split; [done|]. intros H.
        assert (Some n = None) as Habs; [|done].
        apply IH. intros x Hx. apply H. by apply list_elem_of_further.
      * split; [|done]. intros _ x Hx.
        apply elem_of_cons in Hx as [->|Hx]; [done|]. by apply IH.
Qed.

(** ** Schedules give runs *)

Lemma exec_cons w l w1 tr w2 :
  step w l w1 → exec w1 tr w2 → exec w (l :: tr) w2.
Proof.
  intros Hs Hex. induction Hex as [w1|w1 tr w2 l' w3 Hex IH Hstep].
  - apply (exec_snoc w [] w l w1); [constructor|done].
  - apply (exec_snoc w (l :: tr) w2 l' w3); [by apply IH|done].
Qed.

Lemma run_trace_exec sched w tr w' :
  run_trace sched w = Some (tr, w') → exec w tr w'.
Proof.
  revert w tr. induction sched as [|[o t] sched IH]; intros w tr H.
  - simpl in H. simplify_eq. constructor.
  - cbn [run_trace] in H.
    destruct (step_thread o t w) as [[w1 e]|] eqn:Hs; [|done].
    cbn [mbind option_bind] in H.
    destruct (run_trace sched w1) as [[tr1 w2]|] eqn:Hr; [|done].
    cbn [mbind option_bind] in H. simplify_eq.
    eapply exec_cons; [by econstructor|by apply IH].
Qed.

(** ** Records *)

Lemma GameState_eta (g : GameState) :
  g = Build_GameState (screen_width g) (screen_height g) (hud_height g)
        (controls_height g) (pontuacao g) (naves_total g) (naves_destruidas g)
        (naves_chegaram g) (naves_spawned g) (game_over g) (dificuldade g)
        (cfg g) (start_time g) (elapsed_sec g) (shots_fired g) (shots_hit g)
        (current_streak g) (best_streak g) (bateria_x g) (direcao_atual g)
        (lancadores g) (num_lancadores g) (tempo_recarga g) (naves g)
        (num_naves_ativas g) (foguetes g) (num_foguetes_ativos g)
        (mutex_naves g) (mutex_foguetes g) (mutex_lancadores g).
Proof. by destruct g. Qed.

Lemma unlock_lock_lancadores (g : GameState) :
  mutex_lancadores g = false →
  set_mutex_lancadores false (set_mutex_lancadores true g) = g.
Proof. intros H. rewrite (GameState_eta g) at 2. rewrite <- H. reflexivity. Qed.

(** ** Calls, one step at a time *)

Lemma tentar_disparar_call_step fuel o tid g pc sp g1 pc1 sp1 e :
  tentar_disparar_step o tid g pc = Some (g1, pc1, sp1, e) →
  tentar_disparar_call (S fuel) o tid g pc sp
  = tentar_disparar_call fuel o tid g1 pc1 (from_option Some sp sp1).
Proof.
  intros H. destruct pc; try (by simpl in H);
    cbn [tentar_disparar_call]; rewrite H; reflexivity.
Qed.

Lemma tentar_disparar_call_ret fuel o tid g b sp :
  tentar_disparar_call fuel o tid g (T_ret b) sp = Some (g, b, sp).
Proof. by destruct fuel. Qed.

Lemma criar_nave_call_step fuel o tid g pc sp g1 pc1 sp1 e :
  criar_nave_step o tid g pc = Some (g1, pc1, sp1, e) →
  criar_nave_call (S fuel) o tid g pc sp
  = criar_nave_call fuel o tid g1 pc1 (from_option Some sp sp1).
Proof.
  intros H. destruct pc; try (by simpl in H);
    cbn [criar_nave_call]; rewrite H; reflexivity.
Qed.

Lemma criar_nave_call_ret fuel o tid g sp :
  criar_nave_call fuel o tid g C_ret sp = Some (g, sp).
Proof. by destruct fuel. Qed.

(** ** The fire action *)

Lemma T_entry_no_bay o tid g :
  mutex_lancadores g = false →
  find_first tem_foguete (bays g) = None →
  tentar_disparar_step o tid g T_entry = Some (g, T_ret false, None, Tau).
Proof.
  intros Hl Hb. cbn [tentar_disparar_step]. rewrite Hl. fold (bays g).
  by rewrite Hb.
Qed.

Lemma T_entry_bay o tid g l :
  mutex_lancadores g = false →
  find_first tem_foguete (bays g) = Some l →
  tentar_disparar_step o tid g T_entry
  = Some (set_mutex_lancadores true g, T_bay l, None, Tau).
Proof.
  intros Hl Hb. cbn [tentar_disparar_step]. rewrite Hl. fold (bays g).
  by rewrite Hb.
Qed.

Lemma T_bay_no_slot o tid g l :
  mutex_foguetes g = false →
  find_first (λ r, negb (fog_ativa r)) (foguetes g) = None →
  tentar_disparar_step o tid g (T_bay l)
  = Some (set_mutex_lancadores false g, T_ret false, None, Tau).
Proof. intros Hf Hs. cbn [tentar_disparar_step]. by rewrite Hf, Hs. Qed.

Lemma T_bay_slot o tid g l f :
  mutex_foguetes g = false →
  find_first (λ r, negb (fog_ativa r)) (foguetes g) = Some f →
  tentar_disparar_step o tid g (T_bay l)
  = Some (set_mutex_foguetes true g, T_slot l f, None, Tau).
Proof. intros Hf Hs. cbn [tentar_disparar_step]. by rewrite Hf, Hs. Qed.

(** C4.  When no bay of the battery is loaded, or no projectile slot is
    free, [tentar_disparar] returns false and the whole game state, bays,
    projectile slots and shot counter included, is as before the call; hence
    any number of attempts made while the bays stay empty leaves the shot
    counter where it was.  The same holds step by step when other threads run
    in between: the search for a bay changes nothing but the mutex it takes,
    and a failed search for a slot, in whatever state it is made, only gives
    that mutex back. *)
Theorem tentar_disparar_no_shot (o : Oracle) (new_tid : nat) (g : GameState) :
  mutex_lancadores g = false →
  mutex_foguetes g = false →
  (∀ l, l ∈ bays g → tem_foguete l = false)
  ∨ (∀ f, f ∈ foguetes g → fog_ativa f = true) →
  tentar_disparar o new_tid g = Some (g, false, None)
  ∧ (∀ n : nat,
       Nat.iter n (λ r, g1 ← r; fst ∘ fst <$> tentar_disparar o new_tid g1)
         (Some g)
       = Some g)
  ∧ (∀ g1 pc1 sp e,
       tentar_disparar_step o new_tid g T_entry = Some (g1, pc1, sp, e) →
       (g1 = g ∧ pc1 = T_ret false)
       ∨ (g1 = set_mutex_lancadores true g ∧ ∃ l, pc1 = T_bay l))
  ∧ (∀ g2 l,
       mutex_foguetes g2 = false →
       (∀ f, f ∈ foguetes g2 → fog_ativa f = true) →
       tentar_disparar_step o new_tid g2 (T_bay l)
       = Some (set_mutex_lancadores false g2, T_ret false, None, Tau)).
Proof.
  intros Hl Hf Hcase.
  assert (tentar_disparar o new_tid g = Some (g, false, None)) as Hcall.
  { unfold tentar_disparar.
    destruct (find_first tem_foguete (bays g)) as [l|] eqn:Hbay.
    - destruct Hcase as [Hempty|Hfull].
      + apply find_first_Some in Hbay as (x & Hx & Hpx & _).
        rewrite (Hempty x) in Hpx; [done|]. by eapply list_elem_of_lookup_2.
      + erewrite tentar_disparar_call_step by by apply T_entry_bay.
        erewrite tentar_disparar_call_step.
        2:{ apply T_bay_no_slot; [done|].
            apply find_first_None. intros f Hin.
            change (f ∈ foguetes g) in Hin. by rewrite (Hfull f Hin). }
        rewrite tentar_disparar_call_ret.
        by rewrite unlock_lock_lancadores.
    - erewrite tentar_disparar_call_step by by apply T_entry_no_bay.
      apply tentar_disparar_call_ret. }
  split_and!; [done| | |].
  - induction n as [|n IH]; [done|].
    rewrite Nat.iter_succ, IH. cbn [mbind option_bind]. by rewrite Hcall.
  - intros g1 pc1 sp e. cbn [tentar_disparar_step]. rewrite Hl.
    destruct (find_first _ _); intros [= <- <- <- <-]; eauto.
  - intros g2 l Hf2 Hfull. apply T_bay_no_slot; [done|].
    apply find_first_None. intros f Hin. by rewrite (Hfull f Hin).
Qed.

Lemma tentar_disparar_no_shot_witness :
  tentar_disparar oracle_create_fails 0 (game_init 0 0)
  = Some (game_init 0 0, false, None).
Proof.
  apply (tentar_disparar_no_shot oracle_create_fails 0 (game_init 0 0));
    [reflexivity | reflexivity |].
  left. intros l Hl. vm_compute in Hl.
  repeat (apply elem_of_cons in Hl as [->|Hl]; [reflexivity|]).
  by apply elem_of_nil in Hl.
Defined.

(** C9.  If [pthread_create] fails after a loaded bay and a free slot were
    taken, [tentar_disparar] returns false.  At the failed launch the slot
    is active and counted, the shot is counted, the bay is unloaded and both
    mutexes are free again; the failure branch then takes [mutex_foguetes],
    clears the slot's [ativa] and takes one off [num_foguetes_ativos], in
    whatever state the other threads left, and touches neither the shot
    counter nor the bay: these stay as the fire action left them. *)
Theorem tentar_disparar_create_failure (o : Oracle) (new_tid : nat)
    (g : GameState) (l f : nat) :
  mutex_lancadores g = false →
  mutex_foguetes g = false →
  find_first tem_foguete (bays g) = Some l →
  find_first (λ r, negb (fog_ativa r)) (foguetes g) = Some f →
  o_malloc_ok o = true →
  o_create_ok o = false →
  (∃ ga gb gc g1 g',
     (* the steps of the call *)
     tentar_disparar_step o new_tid g T_entry = Some (ga, T_bay l, None, Tau)
     ∧ tentar_disparar_step o new_tid ga (T_bay l)
       = Some (gb, T_slot l f, None, Tau)
     ∧ tentar_disparar_step o new_tid gb (T_slot l f)
       = Some (gc, T_count l f, None, Tau)
     ∧ tentar_disparar_step o new_tid gc (T_count l f)
       = Some (g1, T_undo f, None, Tau)
     ∧ tentar_disparar_step o new_tid g1 (T_undo f)
       = Some (g', T_ret false, None, Tau)
     ∧ tentar_disparar o new_tid g = Some (g', false, None)
     (* before the call *)
     ∧ fog_ativa <$> foguetes g !! f = Some false
     ∧ tem_foguete <$> lancadores g !! l = Some true
     (* at the failed launch *)
     ∧ fog_ativa <$> foguetes g1 !! f = Some true
     ∧ num_foguetes_ativos g1 = num_foguetes_ativos g + 1
     ∧ shots_fired g1 = shots_fired g + 1
     ∧ tem_foguete <$> lancadores g1 !! l = Some false
     ∧ mutex_lancadores g1 = false
     ∧ mutex_foguetes g1 = false
     (* at the return *)
     ∧ fog_ativa <$> foguetes g' !! f = Some false
     ∧ num_foguetes_ativos g' = num_foguetes_ativos g1 - 1
     ∧ num_foguetes_ativos g' = num_foguetes_ativos g + 1 - 1
     ∧ shots_fired g' = shots_fired g + 1
     ∧ tem_foguete <$> lancadores g' !! l = Some false
     ∧ mutex_lancadores g' = false
     ∧ mutex_foguetes g' = false)
  (* the failure branch, in any state *)
  ∧ (∀ g2, mutex_foguetes g2 = true →
           tentar_disparar_step o new_tid g2 (T_undo f) = None)
  ∧ (∀ g2 r,
       mutex_foguetes g2 = false →
       foguetes g2 !! f = Some r →
       ∃ g3,
         tentar_disparar_step o new_tid g2 (T_undo f)
         = Some (g3, T_ret false, None, Tau)
         ∧ foguetes g3 !! f = Some (fog_set_ativa false r)
         ∧ fog_ativa <$> foguetes g3 !! f = Some false
         ∧ (∀ j, j ≠ f → foguetes g3 !! j = foguetes g2 !! j)
         ∧ num_foguetes_ativos g3 = num_foguetes_ativos g2 - 1
         ∧ shots_fired g3 = shots_fired g2
         ∧ lancadores g3 = lancadores g2
         ∧ mutex_foguetes g3 = false).
Proof.
  intros Hl Hf Hbay Hslot Hm Hc.
  pose proof Hbay as Hbay'. pose proof Hslot as Hslot'.
  apply find_first_Some in Hbay' as (x & Hx & Hpx & _).
  apply find_first_Some in Hslot' as (y & Hy & Hpy & _).
  unfold bays in Hx. apply lookup_take_Some in Hx as [Hx _].
  apply negb_true_iff in Hpy.
  split_and!.
  - eexists _, _, _, _, _.
    split; [by apply T_entry_bay|].
    split; [by apply T_bay_slot|].
    split; [cbn [tentar_disparar_step]; reflexivity|].
    split; [cbn [tentar_disparar_step]; rewrite Hm, Hc; reflexivity|].
    split; [cbn [tentar_disparar_step]; gsimpl; reflexivity|].
    split.
    { unfold tentar_disparar.
      erewrite tentar_disparar_call_step by by apply T_entry_bay.
      erewrite tentar_disparar_call_step by by apply T_bay_slot.
      erewrite tentar_disparar_call_step
        by (cbn [tentar_disparar_step]; reflexivity).
      erewrite tentar_disparar_call_step
        by (cbn [tentar_disparar_step]; rewrite Hm, Hc; reflexivity).
      erewrite tentar_disparar_call_step
        by (cbn [tentar_disparar_step]; gsimpl; reflexivity).
      apply tentar_disparar_call_ret. }
    gsimpl.
    rewrite ?list_lookup_alter_eq, Hx, Hy.
    cbn [fmap option_fmap option_map]. rewrite Hpx, Hpy.
    split_and!; try done; lia.
  - intros g2 Hheld. cbn [tentar_disparar_step]. by rewrite Hheld.
  - intros g2 r Hfree Hr. cbn [tentar_disparar_step]. rewrite Hfree.
    eexists. split; [reflexivity|]. gsimpl.
    rewrite list_lookup_alter_eq, Hr. cbn [fmap option_fmap option_map].
    split_and!; try done.
    intros j Hj. by rewrite list_lookup_alter_ne.
Qed.

Lemma tentar_disparar_create_failure_witness :
  ∃ g1 g',
    tentar_disparar_step oracle_create_fails 0 g1 (T_undo 0)
    = Some (g', T_ret false, None, Tau)
    ∧ tentar_disparar oracle_create_fails 0 game_one_loaded
      = Some (g', false, None)
    ∧ fog_ativa <$> foguetes game_one_loaded !! 0%nat = Some false
    ∧ num_foguetes_ativos game_one_loaded = 0
    ∧ shots_fired game_one_loaded = 0
    ∧ tem_foguete <$> lancadores game_one_loaded !! 0%nat = Some true
    ∧ fog_ativa <$> foguetes g1 !! 0%nat = Some true
    ∧ num_foguetes_ativos g1 = 1
    ∧ shots_fired g1 = 1
    ∧ tem_foguete <$> lancadores g1 !! 0%nat = Some false
    ∧ fog_ativa <$> foguetes g' !! 0%nat = Some false
    ∧ num_foguetes_ativos g' = 0
    ∧ shots_fired g' = 1
    ∧ tem_foguete <$> lancadores g' !! 0%nat = Some false.
Proof.
  destruct (tentar_disparar_create_failure oracle_create_fails 0
              game_one_loaded 0 0)
    as ((ga & gb & gc & g1 & g' & _ & _ & _ & _ & Hundo & Hcall
         & Hs0 & Hb0 & Hs1 & Hn1 & Hf1 & Hb1 & _ & _
         & Hs' & Hn' & _ & Hf' & Hb' & _) & _);
    [by vm_compute..|].
  exists g1, g'. split_and!; try done.
  - rewrite Hn'. rewrite Hn1. by vm_compute.
Defined.

(** ** The spawn supervisor *)

(** What [criar_nave] does when [pthread_create] fails: the slot is
    released and the active count restored, and [naves_spawned] keeps the
    increment of line 121. *)
Lemma criar_nave_create_failure (o : Oracle) (new_tid : nat) (g : GameState)
    (idx : nat) :
  mutex_naves g = false →
  naves_spawned g < naves_total g →
  num_naves_ativas g < MAX_NAVES →
  find_first (λ n, negb (nave_ativa n)) (naves g) = Some idx →
  o_malloc_ok o = true →
  o_create_ok o = false →
  ∃ g', criar_nave o new_tid g = Some (g', None)
        ∧ nave_ativa <$> naves g' !! idx = Some false
        ∧ num_naves_ativas g' = num_naves_ativas g
        ∧ naves_spawned g' = naves_spawned g + 1.
Proof.
  intros Hn Hsp Hact Hfree Hm Hc.
  eexists. split.
  { unfold criar_nave.
    erewrite criar_nave_call_step.
    2:{ cbn [criar_nave_step].
        destruct (Z.leb_spec (naves_total g) (naves_spawned g)); [lia|].
        reflexivity. }
    erewrite criar_nave_call_step.
    2:{ cbn [criar_nave_step]. rewrite Hn, Hfree.
        destruct (Z.leb_spec MAX_NAVES (num_naves_ativas g)); [lia|].
        reflexivity. }
    erewrite criar_nave_call_step by (cbn [criar_nave_step]; reflexivity).
    erewrite criar_nave_call_step
      by (cbn [criar_nave_step]; rewrite Hm, Hc; reflexivity).
    erewrite criar_nave_call_step
      by (cbn [criar_nave_step]; gsimpl; reflexivity).
    apply criar_nave_call_ret. }
  gsimpl.
  apply find_first_Some in Hfree as (x & Hx & _).
  rewrite !list_lookup_alter_eq, Hx. cbn [fmap option_fmap option_map].
  repeat split. lia.
Qed.

(** What [criar_nave] does when [malloc] fails: it returns at line 125
    with the slot still marked active and [naves_spawned] incremented. *)
Lemma criar_nave_malloc_failure (o : Oracle) (new_tid : nat) (g : GameState)
    (idx : nat) :
  mutex_naves g = false →
  naves_spawned g < naves_total g →
  num_naves_ativas g < MAX_NAVES →
  find_first (λ n, negb (nave_ativa n)) (naves g) = Some idx →
  o_malloc_ok o = false →
  ∃ g', criar_nave o new_tid g = Some (g', None)
        ∧ nave_ativa <$> naves g' !! idx = Some true
        ∧ num_naves_ativas g' = num_naves_ativas g + 1
        ∧ naves_spawned g' = naves_spawned g + 1.
Proof.
  intros Hn Hsp Hact Hfree Hm.
  eexists. split.
  { unfold criar_nave.
    erewrite criar_nave_call_step.
    2:{ cbn [criar_nave_step].
        destruct (Z.leb_spec (naves_total g) (naves_spawned g)); [lia|].
        reflexivity. }
    erewrite criar_nave_call_step.
    2:{ cbn [criar_nave_step]. rewrite Hn, Hfree.
        destruct (Z.leb_spec MAX_NAVES (num_naves_ativas g)); [lia|].
        reflexivity. }
    erewrite criar_nave_call_step by (cbn [criar_nave_step]; reflexivity).
    erewrite criar_nave_call_step
      by (cbn [criar_nave_step]; rewrite Hm; reflexivity).
    apply criar_nave_call_ret. }
  gsimpl.
  apply find_first_Some in Hfree as (x & Hx & _).
  rewrite !list_lookup_alter_eq, Hx. cbn [fmap option_fmap option_map].
  repeat split.
Qed.

(** C2, on the code.  At the start of an Easy run, a spawn whose
    [pthread_create] fails releases slot 0 and restores the active count, yet
    leaves [naves_spawned] at 1 instead of 0: the reservation is not rolled
    back.  A spawn whose [malloc] fails leaves [naves_spawned] at 1 too, and
    slot 0 active with no task. *)
Theorem criar_nave_create_failure_keeps_reservation :
  naves_spawned (game_init 0 0) = 0
  ∧ (∃ g', criar_nave oracle_create_fails 0 (game_init 0 0) = Some (g', None)
           ∧ nave_ativa <$> naves g' !! 0%nat = Some false
           ∧ num_naves_ativas g' = 0
           ∧ naves_spawned g' = 1)
  ∧ (∃ g', criar_nave oracle_malloc_fails 0 (game_init 0 0) = Some (g', None)
           ∧ nave_ativa <$> naves g' !! 0%nat = Some true
           ∧ num_naves_ativas g' = 1
           ∧ naves_spawned g' = 1).
Proof.
  split_and!; [reflexivity| |].
  - destruct (criar_nave_create_failure oracle_create_fails 0 (game_init 0 0) 0)
      as (g' & Hcall & Hslot & Hact & Hsp); try reflexivity.
    exists g'. repeat split; [done..|by rewrite Hsp].
  - destruct (criar_nave_malloc_failure oracle_malloc_fails 0 (game_init 0 0) 0)
      as (g' & Hcall & Hslot & Hact & Hsp); try reflexivity.
    exists g'. repeat split; [done|done|by rewrite Hact|by rewrite Hsp].
Qed.

(** ** The orchestrating loop *)

(** C6.  When the check of [thread_principal] finds more than half of the
    ships on the ground, whatever [naves_spawned] is, the loop goes straight
    to the store of the termination flag, which sets it in any state; no
    spawn or frame comes in between. *)
Theorem thread_principal_defeat_now (o : Oracle) (new_tid : nat)
    (g : GameState) (wait_ms : Z) :
  0 <= naves_total g →
  naves_total g < 2 * naves_chegaram g →
  thread_principal_step o new_tid g (P_check wait_ms)
  = Some (set_elapsed_sec (o_elapsed o) g, P_over, None, Tau)
  ∧ ∀ o' tid' g',
      thread_principal_step o' tid' g' P_over
      = Some (set_game_over true g', P_ret, None, Tau)
      ∧ game_over (set_game_over true g') = true.
Proof.
  intros Htot Hhalf. split; [|done].
  cbn [thread_principal_step]. gsimpl.
  assert (Z.quot (naves_total g) 2 < naves_chegaram g) as Hlt.
  { rewrite Z.quot_div_nonneg by lia.
    pose proof (Z.div_mod (naves_total g) 2 ltac:(lia)).
    pose proof (Z.mod_pos_bound (naves_total g) 2 ltac:(lia)). lia. }
  destruct (Z.ltb_spec (Z.quot (naves_total g) 2) (naves_chegaram g)); [|lia].
  reflexivity.
Qed.

Lemma trace_easy_16_exec : exec (init_world 0 0) trace_easy_16 world_easy_16.
Proof. apply (run_trace_exec sched_easy_16). by vm_compute. Qed.

(** The Easy scenario, reached by a run: 30 ships in total, 16 spawned so
    far, all 16 on the ground, and the main loop at its check. *)
Lemma thread_principal_defeat_now_witness :
  reachable world_easy_16
  ∧ naves_total (game world_easy_16) = 30
  ∧ naves_spawned (game world_easy_16) = 16
  ∧ naves_chegaram (game world_easy_16) = 16
  ∧ th_main world_easy_16 = M_principal (P_check 2060)
  ∧ thread_principal_step oracle_fire 16 (game world_easy_16) (P_check 2060)
    = Some (set_elapsed_sec 0 (game world_easy_16), P_over, None, Tau).
Proof.
  split; [exists 0, 0, trace_easy_16; apply trace_easy_16_exec|].
  do 4 (split; [by vm_compute|]).
  destruct (thread_principal_defeat_now oracle_fire 16 (game world_easy_16) 2060)
    as [H _]; [by vm_compute..|exact H].
Defined.

(** ** The replenishment loop *)

(** C5.  [thread_artilheiro], on finding bay [i] unloaded, holds
    [mutex_lancadores] up to the read of [direcao_atual]; it then releases the
    mutex and sleeps [tempo_recarga * 1000] microseconds holding the direction
    it read, with the bays as they were.  The step after the sleep needs the
    mutex free and leaves it free; in whatever state the other threads left,
    bay [i] is then loaded with the direction read before the sleep exactly
    when the run is not over and the bay is still unloaded, no other bay and
    no other field changes, and nothing at all changes otherwise. *)
Theorem thread_artilheiro_reload (g : GameState) (i : nat) :
  mutex_lancadores g = false →
  find_first (λ l, negb (tem_foguete l)) (bays g) = Some i →
  (* the scan: the first unloaded bay, with the mutex taken *)
  (∃ g1,
     thread_artilheiro_step g A_scan = Some (g1, A_found i)
     ∧ g1 = set_mutex_lancadores true g
     ∧ mutex_lancadores g1 = true
     ∧ lancadores g1 = lancadores g
     ∧ tem_foguete <$> lancadores g !! i = Some false
     ∧ (i < Z.to_nat (num_lancadores g))%nat
     ∧ ∀ j b, (j < i)%nat → lancadores g !! j = Some b → tem_foguete b = true)
  (* the capture of the aim and the release *)
  ∧ (∀ g1,
       ∃ g2,
         thread_artilheiro_step g1 (A_found i)
         = Some (g2, A_sleep i (direcao_atual g1) (tempo_recarga g1 * 1000))
         ∧ g2 = set_mutex_lancadores false g1
         ∧ mutex_lancadores g2 = false
         ∧ lancadores g2 = lancadores g1)
  (* after the sleep: the mutex is needed *)
  ∧ (∀ g2 dir us,
       mutex_lancadores g2 = true →
       thread_artilheiro_step g2 (A_sleep i dir us) = None)
  (* after the sleep: the bay *)
  ∧ (∀ g2 dir us l,
       mutex_lancadores g2 = false →
       lancadores g2 !! i = Some l →
       ∃ g3,
         thread_artilheiro_step g2 (A_sleep i dir us) = Some (g3, A_loop)
         ∧ g3 = (if negb (game_over g2) && negb (tem_foguete l)
                 then set_lancadores
                        (<[i := Build_Lancador true dir]> (lancadores g2)) g2
                 else g2)
         ∧ mutex_lancadores g3 = false
         ∧ (∀ j, j ≠ i → lancadores g3 !! j = lancadores g2 !! j)
         ∧ g3 = set_lancadores (lancadores g3) g2
         ∧ (game_over g2 = false → tem_foguete l = false →
            lancadores g3 !! i = Some (Build_Lancador true dir))
         ∧ (game_over g2 = true ∨ tem_foguete l = true → g3 = g2)).
Proof.
  intros Hl Hfind. split_and!.
  - eexists. split; [cbn [thread_artilheiro_step]; by rewrite Hl, Hfind|].
    split; [done|]. split; [by gsimpl|]. split; [by gsimpl|].
    apply find_first_Some in Hfind as (b & Hb & Hpb & Hbefore).
    unfold bays in Hb. apply lookup_take_Some in Hb as [Hb Hi].
    split_and!.
    + rewrite Hb. cbn. by apply negb_true_iff in Hpb as ->.
    + done.
    + intros j b0 Hj Hj0.
      specialize (Hbefore j b0 Hj). unfold bays in Hbefore.
      rewrite lookup_take_lt in Hbefore by lia.
      specialize (Hbefore Hj0). by apply negb_false_iff in Hbefore.
  - intros g1. eexists. split; [reflexivity|]. split; [done|].
    split; by gsimpl.
  - intros g2 dir us Hheld. cbn [thread_artilheiro_step]. by rewrite Hheld.
  - intros g2 dir us l Hfree Hi. cbn [thread_artilheiro_step].
    rewrite Hfree, Hi. cbn [mbind option_bind].
    assert (alter (λ _, Build_Lancador true dir) i (lancadores g2)
            = <[i := Build_Lancador true dir]> (lancadores g2)) as ->.
    { apply list_eq. intros j.
      destruct (decide (i = j)) as [<-|Hne].
      + rewrite list_lookup_alter_eq, list_lookup_insert_eq, Hi; [done|].
        by eapply lookup_lt_Some.
      + by rewrite list_lookup_alter_ne, list_lookup_insert_ne. }
    assert (set_lancadores (lancadores g2) g2 = g2) as Heta by by destruct g2.
    destruct (game_over g2) eqn:Hover; destruct (tem_foguete l) eqn:Hload;
      cbn [negb andb]; eexists; (split; [reflexivity|]);
      (split; [reflexivity|]); gsimpl; rewrite ?Heta;
      split_and!; try done; try (by intros [?|?]).
    + intros j Hj. by rewrite list_lookup_insert_ne.
    + intros _ _. rewrite list_lookup_insert_eq; [done|].
      by eapply lookup_lt_Some.
Qed.

Lemma thread_artilheiro_reload_witness :
  ∃ g1 g2 g3,
    thread_artilheiro_step (game_init 0 0) A_scan = Some (g1, A_found 0)
    ∧ mutex_lancadores g1 = true
    ∧ thread_artilheiro_step g1 (A_found 0)
      = Some (g2, A_sleep 0 DIR_VERTICAL 2500000)
    ∧ mutex_lancadores g2 = false
    ∧ thread_artilheiro_step g2 (A_sleep 0 DIR_VERTICAL 2500000)
      = Some (g3, A_loop)
    ∧ lancadores (game_init 0 0) !! 0%nat
      = Some (Build_Lancador false DIR_VERTICAL)
    ∧ lancadores g3 !! 0%nat = Some (Build_Lancador true DIR_VERTICAL)
    ∧ lancadores g3 !! 1%nat = Some (Build_Lancador false DIR_VERTICAL)
    ∧ mutex_lancadores g3 = false.
Proof.
  destruct (thread_artilheiro_reload (game_init 0 0) 0)
    as ((g1 & Hs1 & -> & Hm1 & _) & Hfound & _ & Hsleep);
    [reflexivity..|].
  destruct (Hfound (set_mutex_lancadores true (game_init 0 0)))
    as (g2 & Hs2 & -> & Hm2 & _).
  destruct (Hsleep (set_mutex_lancadores false
                      (set_mutex_lancadores true (game_init 0 0)))
              DIR_VERTICAL 2500000 (Build_Lancador false DIR_VERTICAL)
              Hm2 eq_refl)
    as (g3 & Hs3 & _ & Hm3 & Hrest & _ & Hload & _).
  eexists _, _, g3. split_and!; [exact Hs1|exact Hm1|exact Hs2|exact Hm2
                                |exact Hs3|reflexivity| | |exact Hm3].
  - by apply Hload.
  - by rewrite Hrest.
Defined.

(** Four steps of the reloader from the initial state: bay 0 is loaded
    with the initial aim, the mutex is free again, the loop is at its head. *)
Example reload_first_bay :
  th_artilheiro world_loaded = A_loop
  ∧ lancadores (game world_loaded) !! 0%nat = Some (Build_Lancador true DIR_VERTICAL)
  ∧ lancadores (game world_loaded) !! 1%nat = Some (Build_Lancador false DIR_VERTICAL)
  ∧ mutex_lancadores (game world_loaded) = false.
Proof. by vm_compute. Qed.

(** ** The projectile task *)



(** Its exit: the slot is inactive, the task has returned, the active
    count is back at zero and every score counter is zero. *)
Example rocket_exits_top :
  th_foguetes world_rocket_gone = [(0%nat, F_done)]
  ∧ (fog_ativa <$> foguetes (game world_rocket_gone) !! 0%nat) = Some false
  ∧ num_foguetes_ativos (game world_rocket_gone) = 0
  ∧ shots_fired (game world_rocket_gone) = 1
  ∧ score_counters (game world_rocket_gone) = (0, 0, 0, 0, 0, 0).
Proof. by vm_compute. Qed.

(** ** Accounting of the transition gate, step by step *)

Lemma alter_lookup_None {A} (f : A → A) (k : nat) (l : list A) :
  l !! k = None → alter f k l = l.
Proof.
  intros Hk. apply list_eq. intros j. destruct (decide (k = j)) as [<-|Hne].
  - by rewrite list_lookup_alter_eq, Hk.
  - by rewrite list_lookup_alter_ne.
Qed.

Section AliveCount.
Context (sel : nat → bool).

Lemma alive_from_alter f k l n i :
  l !! k = Some n →
  (alive_from sel i (alter f k l) + bit (sel (i + k)%nat && nave_ativa n)
   = alive_from sel i l + bit (sel (i + k)%nat && nave_ativa (f n)))%nat.
Proof.
  revert k i. induction l as [|a l IH]; intros k i Hk; [done|].
  destruct k as [|k]; simpl in *.
  - simplify_eq. rewrite Nat.add_0_r. lia.
  - specialize (IH k (S i) Hk). rewrite Nat.add_succ_r.
    change (S i + k)%nat with (S (i + k)) in IH.
    unfold alter in IH. lia.
Qed.

Lemma alive_alter f k l n :
  l !! k = Some n →
  (alive sel (alter f k l) + bit (sel k && nave_ativa n)
   = alive sel l + bit (sel k && nave_ativa (f n)))%nat.
Proof. intros H. apply (alive_from_alter f k l n 0 H). Qed.

Lemma alive_alter_same f k l :
  (∀ n, nave_ativa (f n) = nave_ativa n) →
  alive sel (alter f k l) = alive sel l.
Proof.
  intros Hf. destruct (l !! k) as [n|] eqn:Hk.
  - pose proof (alive_alter f k l n Hk) as H. rewrite Hf in H. lia.
  - by rewrite alter_lookup_None.
Qed.

Lemma alive_alter_kill f k l n :
  l !! k = Some n → nave_ativa n = true →
  (∀ n, nave_ativa (f n) = false) →
  (bit (sel k) + alive sel (alter f k l) = alive sel l)%nat.
Proof.
  intros Hk Ha Hf. pose proof (alive_alter f k l n Hk) as H.
  rewrite Hf, Ha in H. destruct (sel k); simpl in *; lia.
Qed.

Lemma alive_alter_le f k l :
  (∀ n, nave_ativa (f n) = false) →
  (alive sel (alter f k l) ≤ alive sel l)%nat.
Proof.
  intros Hf. destruct (l !! k) as [n|] eqn:Hk.
  - pose proof (alive_alter f k l n Hk) as H. rewrite Hf in H.
    destruct (sel k), (nave_ativa n); simpl in *; lia.
  - by rewrite alter_lookup_None.
Qed.

Lemma alive_alter_spawn f k l :
  (alive sel (alter f k l) ≤ bit (sel k) + alive sel l)%nat.
Proof.
  destruct (l !! k) as [n|] eqn:Hk.
  - pose proof (alive_alter f k l n Hk) as H.
    destruct (sel k), (nave_ativa n), (nave_ativa (f n)); simpl in *; lia.
  - rewrite alter_lookup_None; [lia|done].
Qed.

End AliveCount.

Lemma sum_list_with_insert {A} (f : A → nat) (l : list A) (i : nat) (x y : A) :
  l !! i = Some x →
  (sum_list_with f (<[i := y]> l) + f x = sum_list_with f l + f y)%nat.
Proof.
  revert i. induction l as [|a l IH]; intros i Hi; [done|].
  destruct i as [|i]; simpl in *.
  - simplify_eq. lia.
  - specialize (IH i Hi). lia.
Qed.

(** Case analysis of one step: every branch of the step function, with the
    state after the step in terms of the state before. *)
Ltac step_cases :=
  repeat first
    [ progress simplify_eq
    | match goal with
      | H : context [mbind _ ?x] |- _ =>
          destruct x eqn:?; cbn [mbind option_bind] in H
      end
    | case_match ];
  unfold gate_ok, frame_ok, handled, score_kill, score_ground in *;
  repeat case_match; gsimpl_all;
  cbn [pendN pendF is_score is_flip is_spawn snd fst bit].

Ltac close_acc :=
  repeat split; try done; try lia;
  try (rewrite alive_alter_same by done; lia).

Lemma thread_nave_step_acc sel k g pc g' pc' e :
  thread_nave_step k g pc = Some (g', pc', e) →
  gate_ok sel g g' e (pendN sel (k, pc)) (pendN sel (k, pc'))
  ∧ frame_ok g g' e.
Proof.
  intros H. destruct pc; cbn [thread_nave_step] in H; step_cases.
  all: try (close_acc; fail).
  - pose proof (alive_alter_kill sel (nave_set_ativa false) k (naves g) n)
      as Hk. close_acc. rewrite <- Hk; done || lia.
  - pose proof (alive_alter_kill sel kill k (naves g) n) as Hk.
    close_acc. rewrite <- Hk; done || lia.
Qed.

Lemma thread_foguete_step_acc sel k g pc g' pc' e :
  thread_foguete_step k g pc = Some (g', pc', e) →
  gate_ok sel g g' e (pendF sel (k, pc)) (pendF sel (k, pc'))
  ∧ frame_ok g g' e.
Proof.
  intros H. destruct pc; cbn [thread_foguete_step] in H; step_cases.
  all: try (close_acc; fail).
  match goal with
  | Hf : find_first _ _ = Some ?i |- _ =>
      apply find_first_Some in Hf as (x & Hx & Hpx & _);
      apply andb_true_iff in Hpx as [Ha _];
      pose proof (alive_alter_kill sel kill i (naves g) x Hx Ha) as Hk
  end.
  close_acc. rewrite <- Hk; done || lia.
Qed.

Lemma thread_artilheiro_step_acc sel g pc g' pc' :
  thread_artilheiro_step g pc = Some (g', pc') →
  gate_ok sel g g' Tau 0 0 ∧ frame_ok g g' Tau.
Proof.
  intros H. destruct pc; cbn [thread_artilheiro_step] in H; step_cases;
    close_acc.
Qed.

Lemma tentar_disparar_step_acc sel o tid g pc g' pc' sp e :
  tentar_disparar_step o tid g pc = Some (g', pc', sp, e) →
  gate_ok sel g g' e 0 0 ∧ frame_ok g g' e.
Proof.
  intros H. destruct pc; cbn [tentar_disparar_step] in H; step_cases;
    close_acc.
Qed.

Lemma finalizar_threads_step_acc sel dn df dl g pc g' pc' :
  finalizar_threads_step dn df dl g pc = Some (g', pc') →
  gate_ok sel g g' Tau 0 0 ∧ frame_ok g g' Tau.
Proof.
  intros H. destruct pc; cbn [finalizar_threads_step] in H; step_cases;
    close_acc.
Qed.

Lemma process_input_acc sel g key g' fire :
  process_input g key = (g', fire) →
  gate_ok sel g g' Tau 0 0
  ∧ naves_spawned g' = naves_spawned g
  ∧ screen_width g' = screen_width g
  ∧ (aim_ok g → aim_ok g').
Proof.
  unfold process_input, aim_ok. intros H. step_cases; close_acc.
Qed.

Lemma thread_input_step_acc sel o tid g pc g' pc' sp e :
  thread_input_step o tid g pc = Some (g', pc', sp, e) →
  gate_ok sel g g' e 0 0
  ∧ naves_spawned g' = naves_spawned g
  ∧ screen_width g' = screen_width g
  ∧ is_spawn (λ _, true) e = 0%nat
  ∧ (aim_ok g → aim_ok g').
Proof.
  unfold aim_ok.
  intros H. destruct pc; cbn [thread_input_step] in H.
  - step_cases; close_acc.
  - step_cases; close_acc.
  - destruct (process_input g ch) as [g1 fire] eqn:Hp.
    pose proof (process_input_acc sel g ch g1 fire Hp) as Hacc.
    unfold aim_ok, gate_ok, handled in Hacc. destruct_and!.
    cbn [is_score is_flip is_spawn] in *. step_cases; close_acc.
  - destruct pc as [| | | | |b];
      try (destruct (tentar_disparar_step o tid g _)
             as [[[[g1 pc1] sp1] e1]|] eqn:Hs; [|done];
           destruct (tentar_disparar_step_acc sel _ _ _ _ _ _ _ _ Hs)
             as [? (? & Hb & Hw & ?)];
           cbn [mbind option_bind] in H; simplify_eq;
           rewrite Hb, Hw; done).
    step_cases; close_acc.
  - done.
Qed.

Lemma criar_nave_step_acc sel o tid g pc g' pc' sp e :
  criar_nave_step o tid g pc = Some (g', pc', sp, e) →
  gate_ok sel g g' e 0 0
  ∧ bateria_x g' = bateria_x g
  ∧ screen_width g' = screen_width g
  ∧ naves_spawned g' + uncountedC pc'
    = naves_spawned g + uncountedC pc + Z.of_nat (is_spawn (λ _, true) e)
  ∧ (naves_spawned g + reservedC pc <= naves_total g →
     naves_spawned g' + reservedC pc' <= naves_total g').
Proof.
  intros H. destruct pc; cbn [criar_nave_step] in H; step_cases;
    cbn [uncountedC reservedC].
  all: try (close_acc; fail).
  all: repeat split; try done; try lia.
  - apply (alive_alter_spawn sel).
  - apply (alive_alter_spawn sel).
  - by apply (alive_alter_le sel).
Qed.

Lemma render_game_step_acc sel o g pc g' pc' :
  render_game_step o g pc = Some (g', pc') →
  gate_ok sel g g' Tau 0 0
  ∧ naves_spawned g' = naves_spawned g.
Proof.
  intros H. destruct pc; cbn [render_game_step] in H; step_cases;
    close_acc.
Qed.

Lemma render_game_step_aim o g pc g' pc' :
  render_game_step o g pc = Some (g', pc') →
  publish_ok pc → aim_ok g →
  publish_ok pc' ∧ aim_ok g'.
Proof.
  unfold aim_ok.
  intros H. destruct pc; cbn [render_game_step] in H; step_cases;
    cbn [publish_ok]; intros; split; try done; try lia.
Qed.

Lemma thread_principal_step_acc sel o tid g pc g' pc' sp e :
  thread_principal_step o tid g pc = Some (g', pc', sp, e) →
  gate_ok sel g g' e 0 0
  ∧ naves_spawned g' + uncounted (M_principal pc')
    = naves_spawned g + uncounted (M_principal pc) + Z.of_nat (is_spawn (λ _, true) e)
  ∧ (naves_spawned g + reserved (M_principal pc) <= naves_total g →
     naves_spawned g' + reserved (M_principal pc') <= naves_total g')
  ∧ (main_publish_ok (M_principal pc) → aim_ok g →
     main_publish_ok (M_principal pc') ∧ aim_ok g').
Proof.
  unfold aim_ok.
  intros H. destruct pc as [|wt|wt| |wt c|wt r|]; cbn [thread_principal_step] in H.
  - step_cases. cbn. close_acc.
  - step_cases; cbn; close_acc.
  - step_cases; cbn; close_acc.
  - step_cases; cbn; close_acc.
  - destruct c;
      try (destruct (criar_nave_step o tid g _)
             as [[[[g1 c1] sp1] e1]|] eqn:Hs; [|done];
           pose proof (criar_nave_step_acc sel _ _ _ _ _ _ _ _ Hs) as Hacc;
           cbn [mbind option_bind] in H; simplify_eq;
           cbn [uncounted reserved main_publish_ok];
           destruct Hacc as (? & Hb & Hw & ? & ?); rewrite Hb, Hw; done).
    step_cases. cbn. close_acc.
  - destruct r;
      try (destruct (render_game_step o g _) as [[g1 r1]|] eqn:Hs; [|done];
           pose proof (render_game_step_acc sel _ _ _ _ _ Hs) as [? Hsp];
           pose proof (render_game_step_aim _ _ _ _ _ Hs) as Haim;
           unfold aim_ok in Haim;
           cbn [mbind option_bind] in H; simplify_eq;
           cbn [uncounted reserved main_publish_ok uncountedC reservedC is_spawn];
           unfold gate_ok in *; destruct_and!; repeat split; try done;
           try lia;
           (edestruct Haim as (? & ? & ?); [done|done|]; done || lia)).
    step_cases. cbn. close_acc.
  - done.
Qed.

Lemma gate_ok_frame sel g g' e p p' r r' :
  gate_ok sel g g' e p p' →
  (r' + p = r + p')%nat →
  gate_ok sel g g' e r r'.
Proof.
  unfold gate_ok. intros (? & ? & ? & ? & ? & ?) ?.
  repeat split; try done; lia.
Qed.

Lemma sum_list_with_snoc {A} (f : A → nat) (l : list A) (x : A) :
  f x = 0%nat → sum_list_with f (l ++ [x]) = sum_list_with f l.
Proof. intros Hx. rewrite sum_list_with_app. simpl. lia. Qed.

Lemma pendN_spawn sel sp l :
  sum_list_with (pendN sel) (spawn_nave sp l) = sum_list_with (pendN sel) l.
Proof. destruct sp; [|done]. by apply sum_list_with_snoc. Qed.

Lemma pendF_spawn sel sp l :
  sum_list_with (pendF sel) (spawn_foguete sp l) = sum_list_with (pendF sel) l.
Proof. destruct sp; [|done]. by apply sum_list_with_snoc. Qed.

Ltac finish_world Hg :=
  let Ht := fresh in
  pose proof Hg as (_ & _ & _ & Ht & _ & _);
  split; [eapply gate_ok_frame; [exact Hg|lia]|];
  split; [split; first [done|lia|tauto]|];
  unfold aim_ok in *; first [done|tauto|intros [? ?]; split; first [done|lia|tauto]].

Lemma main_step_acc sel o w w' e :
  main_step o w = Some (w', e) →
  gate_ok sel (game w) (game w') e (pending sel w) (pending sel w')
  ∧ spawn_ok w w' e
  ∧ (aim_inv w → aim_inv w').
Proof.
  unfold main_step, spawn_ok, aim_inv, pending. intros H.
  destruct (th_main w) as [pc|pc|] eqn:Hm; [| |done].
  - destruct pc;
      try (destruct (thread_principal_step o _ (game w) _)
             as [[[[g1 pc1] sp1] e1]|] eqn:Hs; [|done];
           pose proof (thread_principal_step_acc sel _ _ _ _ _ _ _ _ Hs)
             as (Hg & ? & ? & ?);
           cbn [mbind option_bind] in H; simplify_eq;
           cbn [game th_main th_naves th_foguetes]; rewrite pendN_spawn;
           finish_world Hg).
    simplify_eq. cbn [game th_main th_naves th_foguetes].
    unfold gate_ok, handled, aim_ok. cbn.
    repeat split; try done; try lia; tauto.
  - destruct pc;
      try (destruct (finalizar_threads_step _ _ _ (game w) _)
             as [[g1 pc1]|] eqn:Hs; [|done];
           pose proof (finalizar_threads_step_acc sel _ _ _ _ _ _ _ Hs)
             as (Hg & Hsp & Hb & Hw & ?);
           cbn [mbind option_bind] in H; simplify_eq;
           cbn [game th_main th_naves th_foguetes uncounted reserved main_publish_ok
                is_spawn];
           unfold aim_ok; rewrite Hsp, Hb, Hw;
           finish_world Hg).
    simplify_eq. cbn [game th_main th_naves th_foguetes].
    unfold gate_ok, handled, aim_ok. cbn.
    repeat split; try done; try lia; tauto.
Qed.

Lemma step_thread_acc sel o t w w' e :
  step_thread o t w = Some (w', e) →
  gate_ok sel (game w) (game w') e (pending sel w) (pending sel w')
  ∧ spawn_ok w w' e
  ∧ (aim_inv w → aim_inv w').
Proof.
  intros H. destruct t as [| | |t|t]; cbn [step_thread] in H.
  - by apply (main_step_acc sel o).
  - destruct (thread_input_step o _ (game w) _)
      as [[[[g1 pc1] sp1] e1]|] eqn:Hs; [|done].
    pose proof (thread_input_step_acc sel _ _ _ _ _ _ _ _ Hs)
      as (Hg & Hsp & Hw & He & Haim).
    cbn [mbind option_bind] in H. simplify_eq.
    unfold spawn_ok, aim_inv, pending.
    cbn [game th_main th_naves th_foguetes]. rewrite pendF_spawn, Hsp, He.
    finish_world Hg.
  - destruct (thread_artilheiro_step (game w) _) as [[g1 pc1]|] eqn:Hs; [|done].
    pose proof (thread_artilheiro_step_acc sel _ _ _ _ Hs)
      as (Hg & Hsp & Hb & Hw & He).
    cbn [mbind option_bind] in H. simplify_eq.
    unfold spawn_ok, aim_inv, aim_ok, pending.
    cbn [game th_main th_naves th_foguetes is_spawn]. rewrite Hsp, Hb, Hw.
    finish_world Hg.
  - destruct (th_naves w !! t) as [[k pc]|] eqn:Ht; [|done].
    cbn [mbind option_bind] in H.
    destruct (thread_nave_step k (game w) pc) as [[[g1 pc1] e1]|] eqn:Hs; [|done].
    pose proof (thread_nave_step_acc sel _ _ _ _ _ _ Hs)
      as (Hg & Hsp & Hb & Hw & He).
    cbn [mbind option_bind] in H. simplify_eq.
    unfold spawn_ok, aim_inv, aim_ok, pending.
    cbn [game th_main th_naves th_foguetes]. rewrite Hsp, Hb, Hw, He.
    pose proof (sum_list_with_insert (pendN sel) _ t _ (k, pc1) Ht).
    finish_world Hg.
  - destruct (th_foguetes w !! t) as [[k pc]|] eqn:Ht; [|done].
    cbn [mbind option_bind] in H.
    destruct (thread_foguete_step k (game w) pc) as [[[g1 pc1] e1]|] eqn:Hs; [|done].
    pose proof (thread_foguete_step_acc sel _ _ _ _ _ _ Hs)
      as (Hg & Hsp & Hb & Hw & He).
    cbn [mbind option_bind] in H. simplify_eq.
    unfold spawn_ok, aim_inv, aim_ok, pending.
    cbn [game th_main th_naves th_foguetes]. rewrite Hsp, Hb, Hw, He.
    pose proof (sum_list_with_insert (pendF sel) _ t _ (k, pc1) Ht).
    finish_world Hg.
Qed.

(** ** Runs *)

Lemma count_snoc f tr l : count f (tr ++ [l]) = (count f tr + f l.2)%nat.
Proof. unfold count. rewrite sum_list_with_app. simpl. lia. Qed.

Lemma uncounted_le_reserved pc : 0 <= uncounted pc <= reserved pc.
Proof. destruct pc as [[| | | |? []| |]| |]; simpl; lia. Qed.

Lemma exec_acc sel w tr w' :
  exec w tr w' →
  (count (is_score sel) tr + pending sel w'
   = count (is_flip sel) tr + pending sel w)%nat
  ∧ (count (is_flip sel) tr + alive sel (naves (game w'))
     ≤ count (is_spawn sel) tr + alive sel (naves (game w)))%nat
  ∧ handled (game w')
    = handled (game w) + Z.of_nat (count (is_score all_slots) tr)
  ∧ naves_total (game w') = naves_total (game w)
  ∧ (game_over (game w) = true → game_over (game w') = true)
  ∧ naves_spawned (game w') + uncounted (th_main w')
    = naves_spawned (game w) + uncounted (th_main w)
      + Z.of_nat (count (is_spawn all_slots) tr)
  ∧ (naves_spawned (game w) + reserved (th_main w) <= naves_total (game w) →
     naves_spawned (game w') + reserved (th_main w') <= naves_total (game w'))
  ∧ (aim_inv w → aim_inv w').
Proof.
  induction 1 as [w|w tr w1 l w2 Hex IH Hstep].
  - unfold count. simpl. split_and!; try done; lia.
  - destruct Hstep as [o t w1 w2 e Hstep].
    destruct (step_thread_acc sel o t w1 w2 e Hstep)
      as ((? & ? & _ & ? & ? & _) & _ & _).
    destruct (step_thread_acc all_slots o t w1 w2 e Hstep)
      as ((_ & _ & ? & _ & _ & _) & (? & ?) & ?).
    destruct IH as (? & ? & ? & ? & ? & ? & ? & ?).
    rewrite !count_snoc. cbn [snd].
    split_and!; try lia; try tauto; congruence.
Qed.

Lemma alive_from_dead sel i l :
  (∀ n, n ∈ l → nave_ativa n = false) → alive_from sel i l = 0%nat.
Proof.
  revert i. induction l as [|a l IH]; intros i Hl; [done|].
  simpl. rewrite (Hl a), andb_false_r by apply list_elem_of_here.
  rewrite IH; [done|]. intros n Hn. apply Hl. by apply list_elem_of_further.
Qed.

Lemma game_init_total d now : 0 <= naves_total (game_init d now).
Proof.
  unfold game_init. cbn [naves_total].
  destruct ((d <? 0) || (2 <? d)) eqn:Hd; [by vm_compute|].
  apply orb_false_iff in Hd as [H1 H2].
  assert (d = 0 ∨ d = 1 ∨ d = 2) as [->|[->| ->]] by lia; by vm_compute.
Qed.

Lemma init_world_alive sel d now :
  alive sel (naves (game (init_world d now))) = 0%nat.
Proof.
  apply alive_from_dead. intros n Hn. cbn in Hn.
  apply elem_of_replicate in Hn as [-> _]. done.
Qed.

(** ** The counters of a run *)

(** C3.  In every state a run can reach, the destroyed and the escaped
    ships together are at most [naves_total], and so are the spawned ones. *)
Theorem counters_bounded (w : World) :
  reachable w →
  naves_destruidas (game w) + naves_chegaram (game w) <= naves_total (game w)
  ∧ naves_spawned (game w) <= naves_total (game w).
Proof.
  intros (d & now & tr & Hex).
  destruct (exec_acc all_slots _ _ _ Hex)
    as (Hsc & Hfl & Hh & Ht & _ & Hsp & Hres & _).
  rewrite init_world_alive in Hfl.
  pose proof (game_init_total d now) as Htot.
  pose proof (uncounted_le_reserved (th_main w)) as Hps.
  unfold handled in Hh. cbn [init_world game th_main uncounted reserved] in *.
  change (pending all_slots (init_world d now)) with 0%nat in Hsc.
  assert (naves_spawned (game_init d now) = 0) as Hs0 by reflexivity.
  assert (naves_destruidas (game_init d now) = 0) as Hd0 by reflexivity.
  assert (naves_chegaram (game_init d now) = 0) as Hc0 by reflexivity.
  lia.
Qed.

(** C8.  Along any run, from any state, a set termination flag stays
    set: no step of the orchestrating loop, of the input processing, of the
    shutdown, or of an entity or reloader task stores false into it. *)
Theorem game_over_never_reset (w : World) (tr : list (Tid * Event)) (w' : World) :
  exec w tr w' →
  game_over (game w) = true →
  game_over (game w') = true.
Proof. intros Hex. by destruct (exec_acc all_slots _ _ _ Hex) as (_ & _ & _ & _ & ? & _). Qed.

(** ** The run [sched_hit] and its wind-down *)

Lemma trace_hit_exec : exec (init_world 0 0) trace_hit world_hit.
Proof. apply (run_trace_exec sched_hit). by vm_compute. Qed.

Lemma world_hit_reachable : reachable world_hit.
Proof. exists 0, 0, trace_hit. apply trace_hit_exec. Qed.

Lemma counters_bounded_witness :
  naves_destruidas (game world_hit) + naves_chegaram (game world_hit)
  <= naves_total (game world_hit)
  ∧ naves_spawned (game world_hit) <= naves_total (game world_hit).
Proof. apply (counters_bounded world_hit). apply world_hit_reachable. Defined.

Lemma trace_wind_down_exec : exec world_pressed trace_wind_down world_exit.
Proof. apply (run_trace_exec sched_wind_down). by vm_compute. Qed.

Lemma game_over_never_reset_witness :
  th_main world_exit = M_exit ∧ game_over (game world_exit) = true.
Proof.
  split; [by vm_compute|].
  apply (game_over_never_reset world_pressed trace_wind_down world_exit).
  - apply trace_wind_down_exec.
  - by vm_compute.
Defined.

(** ** The battery *)

Lemma key_in_cases key ks :
  key_in key ks = true → key ∈ ks.
Proof.
  unfold key_in. intros H. apply existsb_exists in H as (k & Hin & Hk).
  apply Z.eqb_eq in Hk as <-. by apply list_elem_of_In.
Qed.



(** ** The transition gate *)

Lemma bit_eqb (i : nat) : bit (i =? i)%nat = 1%nat.
Proof. by rewrite Nat.eqb_refl. Qed.

Lemma thread_nave_step_gate k g pc g' pc' e :
  thread_nave_step k g pc = Some (g', pc', e) →
  gate_event_ok g g' e (λ sel, pendN sel (k, pc)) (λ sel, pendN sel (k, pc')).
Proof.
  intros H. destruct pc; cbn [thread_nave_step] in H; step_cases;
    unfold gate_event_ok, slot_ativa, handled, score_counters; gsimpl;
    cbn [pendN snd fst bit];
    rewrite ?list_lookup_alter_eq, ?bit_eqb;
    repeat match goal with H : _ !! _ = Some _ |- _ => rewrite H end;
    cbn [fmap option_fmap option_map nave_set_ativa nave_set_destruida nave_ativa];
    split_and?; try done; try lia; try congruence.
Qed.

Lemma thread_foguete_step_gate k g pc g' pc' e :
  thread_foguete_step k g pc = Some (g', pc', e) →
  gate_event_ok g g' e (λ sel, pendF sel (k, pc)) (λ sel, pendF sel (k, pc')).
Proof.
  intros H. destruct pc; cbn [thread_foguete_step] in H; step_cases;
    unfold gate_event_ok, slot_ativa, handled, score_counters; gsimpl;
    cbn [pendF snd fst bit];
    rewrite ?list_lookup_alter_eq, ?bit_eqb;
    split_and?; try done; try lia.
  all: match goal with
       | Hf : find_first _ _ = Some ?i |- _ =>
           apply find_first_Some in Hf as (x & Hx & Hpx & _);
           apply andb_true_iff in Hpx as [Ha _]; rewrite ?Hx;
           cbn [fmap option_fmap option_map nave_set_ativa nave_set_destruida
                nave_ativa]
       end; congruence.
Qed.

Lemma criar_nave_step_silent o tid g pc g' pc' sp e :
  criar_nave_step o tid g pc = Some (g', pc', sp, e) → silent e.
Proof. intros H. destruct pc; cbn [criar_nave_step] in H; by step_cases. Qed.

Lemma tentar_disparar_step_silent o tid g pc g' pc' sp e :
  tentar_disparar_step o tid g pc = Some (g', pc', sp, e) → silent e.
Proof. intros H. destruct pc; cbn [tentar_disparar_step] in H; by step_cases. Qed.

Lemma thread_principal_step_silent o tid g pc g' pc' sp e :
  thread_principal_step o tid g pc = Some (g', pc', sp, e) → silent e.
Proof.
  intros H. destruct pc as [|wt|wt| |wt c|wt r|]; cbn [thread_principal_step] in H;
    try (by step_cases).
  - destruct c;
      try (destruct (criar_nave_step o tid g _)
             as [[[[g1 c1] sp1] e1]|] eqn:Hs; [|done];
           apply criar_nave_step_silent in Hs;
           cbn [mbind option_bind] in H; by simplify_eq).
    by step_cases.
Qed.

Lemma thread_input_step_silent o tid g pc g' pc' sp e :
  thread_input_step o tid g pc = Some (g', pc', sp, e) → silent e.
Proof.
  intros H. destruct pc as [| |ch|pc|]; cbn [thread_input_step] in H;
    try (by step_cases).
  destruct pc;
      try (destruct (tentar_disparar_step o tid g _)
             as [[[[g1 c1] sp1] e1]|] eqn:Hs; [|done];
           apply tentar_disparar_step_silent in Hs;
           cbn [mbind option_bind] in H; by simplify_eq).
  by simplify_eq.
Qed.

Lemma main_step_silent o w w' e : main_step o w = Some (w', e) → silent e.
Proof.
  unfold main_step. intros H.
  destruct (th_main w) as [pc|pc|]; [| |done].
  - destruct pc;
      try (destruct (thread_principal_step o _ (game w) _)
             as [[[[g1 c1] sp1] e1]|] eqn:Hs; [|done];
           apply thread_principal_step_silent in Hs;
           cbn [mbind option_bind] in H; by simplify_eq).
    by simplify_eq.
  - destruct pc; by step_cases.
Qed.

Lemma gate_event_ok_silent g g' e :
  silent e →
  score_counters g' = score_counters g →
  gate_event_ok g g' e (λ _, 0%nat) (λ _, 0%nat).
Proof. by destruct e. Qed.

Lemma pendN_spawn_lookup sel sp l n :
  from_option (pendN sel) 0%nat (spawn_nave sp l !! n)
  = from_option (pendN sel) 0%nat (l !! n).
Proof.
  destruct sp as [idx|]; [|done]. cbn [spawn_nave].
  destruct (decide (n < length l)%nat) as [Hlt|Hge].
  - by rewrite lookup_app_l.
  - rewrite lookup_app_r, (lookup_ge_None_2 l n) by lia.
    by destruct (n - length l)%nat as [|[|?]].
Qed.

Lemma pendF_spawn_lookup sel sp l n :
  from_option (pendF sel) 0%nat (spawn_foguete sp l !! n)
  = from_option (pendF sel) 0%nat (l !! n).
Proof.
  destruct sp as [idx|]; [|done]. cbn [spawn_foguete].
  destruct (decide (n < length l)%nat) as [Hlt|Hge].
  - by rewrite lookup_app_l.
  - rewrite lookup_app_r, (lookup_ge_None_2 l n) by lia.
    by destruct (n - length l)%nat as [|[|?]].
Qed.

(** Every step carries the event its code deserves, and changes the
    pending weight of no other thread. *)
Lemma step_thread_gate o t w w' e :
  step_thread o t w = Some (w', e) →
  gate_event_ok (game w) (game w') e
    (λ sel, pend_of sel t w) (λ sel, pend_of sel t w')
  ∧ ∀ t' sel, t' ≠ t → pend_of sel t' w' = pend_of sel t' w.
Proof.
  intros H.
  destruct (step_thread_acc all_slots o t w w' e H)
    as ((_ & _ & _ & _ & _ & Hsc) & _ & _).
  destruct t as [| | |t|t]; cbn [step_thread] in H.
  - pose proof (main_step_silent o w w' e H) as Hsil.
    split.
    + apply gate_event_ok_silent; [done|]. apply Hsc. by destruct e.
    + intros t' sel _. unfold main_step in H.
      destruct (th_main w) as [pc|pc|]; [| |done].
      * destruct pc;
          try (destruct (thread_principal_step o _ (game w) _)
                 as [[[[g1 c1] sp1] e1]|]; [|done];
               cbn [mbind option_bind] in H; simplify_eq;
               destruct t'; cbn [pend_of th_naves th_foguetes]; try done;
               apply pendN_spawn_lookup).
        by simplify_eq.
      * destruct pc;
          try (destruct (finalizar_threads_step _ _ _ (game w) _)
                 as [[g1 c1]|]; [|done];
               cbn [mbind option_bind] in H; by simplify_eq).
        by simplify_eq.
  - destruct (thread_input_step o _ (game w) _)
      as [[[[g1 pc1] sp1] e1]|] eqn:Hs; [|done].
    cbn [mbind option_bind] in H. simplify_eq.
    pose proof (thread_input_step_silent _ _ _ _ _ _ _ _ Hs) as Hsil.
    split.
    + apply gate_event_ok_silent; [done|]. apply Hsc. by destruct e.
    + intros t' sel _. destruct t'; cbn [pend_of th_naves th_foguetes]; try done.
      apply pendF_spawn_lookup.
  - destruct (thread_artilheiro_step (game w) _) as [[g1 pc1]|] eqn:Hs; [|done].
    cbn [mbind option_bind] in H. simplify_eq.
    split; [by apply gate_event_ok_silent; [|apply Hsc]|].
    intros t' sel _. by destruct t'.
  - destruct (th_naves w !! t) as [[k pc]|] eqn:Ht; [|done].
    cbn [mbind option_bind] in H.
    destruct (thread_nave_step k (game w) pc) as [[[g1 pc1] e1]|] eqn:Hs; [|done].
    cbn [mbind option_bind] in H. simplify_eq.
    apply thread_nave_step_gate in Hs.
    cbn [pend_of game th_naves]. split.
    + rewrite Ht, list_lookup_insert_eq by by eapply lookup_lt_Some. done.
    + intros t' sel Hne. destruct t' as [| | |t'|t'];
        cbn [pend_of th_naves th_foguetes]; try done.
      rewrite list_lookup_insert_ne; [done|congruence].
  - destruct (th_foguetes w !! t) as [[k pc]|] eqn:Ht; [|done].
    cbn [mbind option_bind] in H.
    destruct (thread_foguete_step k (game w) pc) as [[[g1 pc1] e1]|] eqn:Hs; [|done].
    cbn [mbind option_bind] in H. simplify_eq.
    apply thread_foguete_step_gate in Hs.
    cbn [pend_of game th_foguetes]. split.
    + rewrite Ht, list_lookup_insert_eq by by eapply lookup_lt_Some. done.
    + intros t' sel Hne. destruct t' as [| | |t'|t'];
        cbn [pend_of th_naves th_foguetes]; try done.
      rewrite list_lookup_insert_ne; [done|congruence].
Qed.

Lemma alive_from_eqb i j l :
  (alive_from (Nat.eqb i) j l ≤ bit (j <=? i)%nat)%nat.
Proof.
  revert j. induction l as [|a l IH]; intros j; simpl; [lia|].
  specialize (IH (S j)).
  destruct (Nat.eqb_spec i j) as [->|Hne].
  - rewrite Nat.leb_refl.
    destruct (Nat.leb_spec (S j) j); [lia|].
    simpl in IH. destruct (nave_ativa a); simpl; lia.
  - simpl. destruct (Nat.leb_spec (S j) i), (Nat.leb_spec j i);
      simpl in *; lia.
Qed.

Lemma alive_eqb i l : (alive (Nat.eqb i) l ≤ 1)%nat.
Proof.
  unfold alive. pose proof (alive_from_eqb i 0 l).
  destruct (0 <=? i)%nat; simpl in *; lia.
Qed.

Lemma sum_list_with_0 {A} (f : A → nat) (l : list A) :
  sum_list_with f l = 0%nat ↔ ∀ n, from_option f 0%nat (l !! n) = 0%nat.
Proof.
  induction l as [|a l IH]; simpl.
  - split; [|done]. by intros _ [|n].
  - split.
    + intros H [|n]; simpl; [lia|]. apply IH. lia.
    + intros H. pose proof (H 0%nat) as H0. simpl in H0.
      assert (sum_list_with f l = 0%nat); [|lia].
      apply IH. intros n. apply (H (S n)).
Qed.

Lemma pending_0 sel w :
  pending sel w = 0%nat ↔ ∀ t, pend_of sel t w = 0%nat.
Proof.
  unfold pending. split.
  - intros H [| | |n|n]; cbn [pend_of]; try done.
    + apply sum_list_with_0. lia.
    + apply sum_list_with_0. lia.
  - intros H.
    assert (sum_list_with (pendN sel) (th_naves w) = 0%nat).
    { apply sum_list_with_0. intros n. apply (H (TNave n)). }
    assert (sum_list_with (pendF sel) (th_foguetes w) = 0%nat).
    { apply sum_list_with_0. intros n. apply (H (TFoguete n)). }
    lia.
Qed.

(** The accounting of the transition gate, per slot.
    - A step flips [naves[i].ativa] from true to false only as one critical
      section on [mutex_naves], changes no score counter, and leaves the
      flipping task pending on slot [i]; a task that finds the flag already
      false at its gate changes nothing and is not pending; a score update is
      made only by a task pending on that slot, which then is pending no more
      and adds one to destroyed plus escaped; every other step leaves the score
      counters and the pending state alone, and no step changes the pending
      state of another task.
    - Along any run and for any set of slots, score updates plus pending tasks
      grow exactly as gate flips do, and gate flips plus alive slots are
      bounded by the spawns.
    - Hence for one slot, with nobody pending and no respawn, whatever the
      number of ship and rocket tasks that race for it: at most one flip, and
      as many score updates as flips once nobody is pending.
    - A pending task's score update is enabled in every state. *)
Theorem transition_gate_scores_once :
  (∀ o t w w' e,
     step_thread o t w = Some (w', e) →
     gate_event_ok (game w) (game w') e
       (λ sel, pend_of sel t w) (λ sel, pend_of sel t w')
     ∧ ∀ t' sel, t' ≠ t → pend_of sel t' w' = pend_of sel t' w)
  ∧ (∀ sel w, pending sel w = 0%nat ↔ ∀ t, pend_of sel t w = 0%nat)
  ∧ (∀ sel w tr w',
       exec w tr w' →
       (count (is_score sel) tr + pending sel w'
        = count (is_flip sel) tr + pending sel w)%nat
       ∧ (count (is_flip sel) tr + alive sel (naves (game w'))
          ≤ count (is_spawn sel) tr + alive sel (naves (game w)))%nat)
  ∧ (∀ i w tr w',
       exec w tr w' →
       pending (Nat.eqb i) w = 0%nat →
       count (is_spawn (Nat.eqb i)) tr = 0%nat →
       (count (is_flip (Nat.eqb i)) tr ≤ 1)%nat
       ∧ (count (is_score (Nat.eqb i)) tr + pending (Nat.eqb i) w'
          = count (is_flip (Nat.eqb i)) tr)%nat)
  ∧ (∀ k g i,
       thread_nave_step k g N_score_ground
       = Some (score_ground g, N_exit, Score k)
       ∧ thread_nave_step k g N_score_kill
         = Some (score_kill g, N_exit, Score k)
       ∧ thread_foguete_step k g (F_score i)
         = Some (score_kill g, F_exit, Score i)).
Proof.
  split_and!.
  - apply step_thread_gate.
  - apply pending_0.
  - intros sel w tr w' Hex.
    by destruct (exec_acc sel _ _ _ Hex) as (? & ? & _).
  - intros i w tr w' Hex Hp Hs.
    destruct (exec_acc (Nat.eqb i) _ _ _ Hex) as (Hsc & Hfl & _).
    pose proof (alive_eqb i (naves (game w))). lia.
  - done.
Qed.

Lemma transition_gate_scores_once_witness :
  (count (is_score (Nat.eqb 0)) trace_hit + pending (Nat.eqb 0) world_hit
   = count (is_flip (Nat.eqb 0)) trace_hit
     + pending (Nat.eqb 0) (init_world 0 0))%nat
  ∧ (count (is_flip (Nat.eqb 0)) trace_hit
     + alive (Nat.eqb 0) (naves (game world_hit))
     ≤ count (is_spawn (Nat.eqb 0)) trace_hit
       + alive (Nat.eqb 0) (naves (game (init_world 0 0))))%nat.
Proof.
  apply (proj1 (proj2 (proj2 transition_gate_scores_once))
           (Nat.eqb 0) (init_world 0 0) trace_hit world_hit).
  apply trace_hit_exec.
Defined.

(** C1.  One collision, scored twice.  In [world_detected], reached from
    [game_init], one ship and one rocket have ever existed; the ship task has
    seen the rocket and stands before its gate, the rocket task stands before
    its scan and sees the ship.  From there the rocket task flips the flag of
    slot 0 and scores, [criar_nave] writes the next ship into slot 0, and the
    task of the first ship finds the flag true at its gate, flips it and
    scores as well: two kills, two hits and twenty points for the one shot
    fired, and the second ship destroyed in row 3, column 10, fifty columns
    from the rocket, before its own task has moved it. *)
Theorem stale_gate_scores_twice :
  reachable world_detected
  ∧ th_naves world_detected = [(0%nat, N_gate 60 4)]
  ∧ th_foguetes world_detected = [(0%nat, F_scan 60 5)]
  ∧ nave_ativa <$> naves (game world_detected) !! 0%nat = Some true
  ∧ naves_spawned (game world_detected) = 1
  ∧ shots_fired (game world_detected) = 1
  ∧ score_counters (game world_detected) = (0, 0, 0, 0, 0, 0)
  ∧ exec world_detected trace_stale_gate world_stale_gate
  ∧ List.filter (λ l, match l.2 with Tau => false | _ => true end)
      trace_stale_gate
    = [(TFoguete 0, Flip 0); (TFoguete 0, Score 0); (TMain, Spawn 0);
       (TNave 0, Flip 0); (TNave 0, Score 0)]
  ∧ score_counters (game world_stale_gate) = (20, 2, 0, 2, 2, 2)
  ∧ shots_fired (game world_stale_gate) = 1
  ∧ naves (game world_stale_gate) !! 0%nat
    = Some (Build_Nave 0 10 3 false true 1)
  ∧ th_naves world_stale_gate = [(0%nat, N_done); (0%nat, N_done)].
Proof.
  split.
  { exists 0, 0, trace_detect. apply (run_trace_exec sched_detect).
    by vm_compute. }
  do 6 (split; [by vm_compute|]).
  split.
  { apply (run_trace_exec sched_stale_gate). by vm_compute. }
  by vm_compute.
Qed.

(** The run [sched_hit]: both tasks detect the hit, the rocket flips the
    flag, the ship misses the gate, and the kill is scored once. *)
Example trace_hit_events :
  List.filter (λ l, match l.2 with Tau => false | _ => true end) trace_hit
  = [(TMain, Spawn 0); (TFoguete 0, Flip 0); (TNave 0, Miss 0);
     (TFoguete 0, Score 0)]
  ∧ score_counters (game world_hit) = (10, 1, 0, 1, 1, 1).
Proof. by vm_compute. Qed.

(** The run [sched_easy_16]: slot 0 is occupied sixteen times, and each
    occupancy is flipped once, at the ground, and scored once. *)
Example trace_easy_16_events :
  count (is_spawn (Nat.eqb 0)) trace_easy_16 = 16%nat
  ∧ count (is_flip (Nat.eqb 0)) trace_easy_16 = 16%nat
  ∧ count (is_score (Nat.eqb 0)) trace_easy_16 = 16%nat
  ∧ count (is_score all_slots) trace_easy_16 = 16%nat
  ∧ score_counters (game world_easy_16) = (0, 0, 16, 0, 0, 0).
Proof. by vm_compute. Qed.

(** * Further properties *)

(** ** The spawn interval *)

Lemma game_init_cases d now :
  cfg (game_init d now) = Build_DifficultyConfig 0 "Easy" 4 2500 30 800 2000 3000
  ∨ cfg (game_init d now) = Build_DifficultyConfig 1 "Medium" 7 1500 40 600 2000 2000
  ∨ cfg (game_init d now) = Build_DifficultyConfig 2 "Hard" 12 800 60 450 1000 2000.
Proof.
  unfold game_init. cbn [cfg].
  destruct ((d <? 0) || (2 <? d)) eqn:Hd; [by right; left|].
  apply orb_false_iff in Hd as [H1 H2].
  assert (d = 0 ∨ d = 1 ∨ d = 2) as [->|[->| ->]] by lia; auto.
Qed.

Lemma wrap_int_id (z : Z) : INT_MIN <= z <= INT_MAX → wrap_int z = z.
Proof.
  unfold wrap_int, INT_MIN, INT_MAX. intros Hz.
  change (2 ^ 32) with 4294967296.
  rewrite Z.mod_small; lia.
Qed.


Lemma next_spawn_ms_in_range (c : DifficultyConfig) (rnd : N) :
  INT_MIN <= spawn_min_ms c →
  spawn_max_ms c <= INT_MAX →
  spawn_min_ms c < spawn_max_ms c →
  spawn_max_ms c - spawn_min_ms c < INT_MAX →
  ∃ ms, next_spawn_ms c rnd = Some ms
        ∧ spawn_min_ms c <= ms <= spawn_max_ms c.
Proof.
  intros Hmin Hmax Hlt Hspan. unfold next_spawn_ms.
  destruct (Z.leb_spec (spawn_max_ms c) (spawn_min_ms c)); [lia|].
  cbv zeta.
  rewrite (wrap_int_id (spawn_max_ms c - spawn_min_ms c))
    by (unfold INT_MIN, INT_MAX in *; lia).
  rewrite (wrap_int_id (spawn_max_ms c - spawn_min_ms c + 1))
    by (unfold INT_MIN, INT_MAX in *; lia).
  destruct (Z.eqb_spec (spawn_max_ms c - spawn_min_ms c + 1) 0); [lia|].
  pose proof (Z.rem_bound_pos (Z.of_N rnd) (spawn_max_ms c - spawn_min_ms c + 1)
                ltac:(lia) ltac:(lia)).
  eexists. split; [reflexivity|].
  rewrite wrap_int_id by (unfold INT_MIN, INT_MAX in *; lia). lia.
Qed.

Lemma next_spawn_ms_init (d now : Z) (rnd : N) :
  ∃ ms, next_spawn_ms (cfg (game_init d now)) rnd = Some ms
        ∧ 1000 <= ms <= 3000.
Proof.
  destruct (game_init_cases d now) as [->|[->| ->]].
  - destruct (next_spawn_ms_in_range
                (Build_DifficultyConfig 0 "Easy" 4 2500 30 800 2000 3000) rnd)
      as (ms & -> & Hms); [by vm_compute..|].
    exists ms. cbn [spawn_min_ms spawn_max_ms] in Hms. split; [done|lia].
  - exists 2000. split; [by vm_compute|lia].
  - destruct (next_spawn_ms_in_range
                (Build_DifficultyConfig 2 "Hard" 12 800 60 450 1000 2000) rnd)
      as (ms & -> & Hms); [by vm_compute..|].
    exists ms. cbn [spawn_min_ms spawn_max_ms] in Hms. split; [done|lia].
Qed.


(** ** The initial state *)

(** X2. [game_init] falls back to Medium for a difficulty outside 0..2, takes
    the row of [DIFFS] of that difficulty, and copies its launchers, reload
    time and ship total: between 1 and [MAX_LANCADORES] launchers, a positive
    total and reload time.  Every bay is empty, every ship and rocket slot
    is free, the counters are zero, the battery is in column 60 and the game
    is not over. *)
Theorem game_init_config (d now : Z) :
  dificuldade (game_init d now) = (if (d <? 0) || (2 <? d) then 1 else d)
  ∧ DIFFS !! Z.to_nat (dificuldade (game_init d now)) = Some (cfg (game_init d now))
  ∧ num_lancadores (game_init d now) = launchers (cfg (game_init d now))
  ∧ tempo_recarga (game_init d now) = reload_ms (cfg (game_init d now))
  ∧ naves_total (game_init d now) = ships_total (cfg (game_init d now))
  ∧ 0 < num_lancadores (game_init d now) <= MAX_LANCADORES
  ∧ 0 < naves_total (game_init d now)
  ∧ 0 < tempo_recarga (game_init d now)
  ∧ (∀ l, l ∈ lancadores (game_init d now) → tem_foguete l = false)
  ∧ (∀ n, n ∈ naves (game_init d now) → nave_ativa n = false)
  ∧ (∀ f, f ∈ foguetes (game_init d now) → fog_ativa f = false)
  ∧ score_counters (game_init d now) = (0, 0, 0, 0, 0, 0)
  ∧ bateria_x (game_init d now) = 60
  ∧ game_over (game_init d now) = false.
Proof.
  split; [reflexivity|].
  split.
  { unfold game_init. cbn [cfg dificuldade].
    destruct ((d <? 0) || (2 <? d)) eqn:Hd; [reflexivity|].
    apply orb_false_iff in Hd as [H1 H2].
    assert (d = 0 ∨ d = 1 ∨ d = 2) as [->|[->| ->]] by lia; reflexivity. }
  do 3 (split; [reflexivity|]).
  assert (num_lancadores (game_init d now) = launchers (cfg (game_init d now)))
    as -> by reflexivity.
  assert (naves_total (game_init d now) = ships_total (cfg (game_init d now)))
    as -> by reflexivity.
  assert (tempo_recarga (game_init d now) = reload_ms (cfg (game_init d now)))
    as -> by reflexivity.
  split_and!.
  - destruct (game_init_cases d now) as [->|[->| ->]]; by vm_compute.
  - destruct (game_init_cases d now) as [->|[->| ->]]; by vm_compute.
  - destruct (game_init_cases d now) as [->|[->| ->]]; by vm_compute.
  - destruct (game_init_cases d now) as [->|[->| ->]]; by vm_compute.
  - intros l Hl. cbn in Hl. by apply elem_of_replicate in Hl as [-> _].
  - intros n Hn. cbn in Hn. by apply elem_of_replicate in Hn as [-> _].
  - intros f Hf. cbn in Hf. by apply elem_of_replicate in Hf as [-> _].
  - reflexivity.
  - reflexivity.
  - reflexivity.
Qed.

(** ** The keys *)

Lemma set_bateria_x_same (g : GameState) : set_bateria_x (bateria_x g) g = g.
Proof. by destruct g. Qed.

Lemma set_bateria_x_twice x y (g : GameState) :
  set_bateria_x x (set_bateria_x y g) = set_bateria_x x g.
Proof. reflexivity. Qed.

Lemma process_input_left g key :
  key_in key [ch_a; ch_A; KEY_LEFT] = true →
  process_input g key
  = (if 0 <? bateria_x g then set_bateria_x (bateria_x g - 1) g else g, false).
Proof. intros Hk. unfold process_input. by rewrite Hk. Qed.

Lemma process_input_right g key :
  key_in key [ch_d; ch_D; KEY_RIGHT] = true →
  process_input g key
  = (if bateria_x g <? screen_width g - 1
     then set_bateria_x (bateria_x g + 1) g else g, false).
Proof.
  intros Hk. unfold process_input. rewrite Hk.
  apply key_in_cases in Hk.
  assert (key_in key [ch_a; ch_A; KEY_LEFT] = false) as ->; [|done].
  repeat (apply elem_of_cons in Hk as [->|Hk]; [done|]).
  by apply elem_of_nil in Hk.
Qed.

(** X3. A move to the right followed by a move to the left puts the battery
    back, and leaves the whole state as it was, unless the battery was in
    the last column; the same for left then right unless it was in column 0.
    At column 0 a move to the left does nothing, and at the last column a
    move to the right does nothing. *)
Theorem process_input_left_right (g : GameState) (left right : Z) :
  key_in left [ch_a; ch_A; KEY_LEFT] = true →
  key_in right [ch_d; ch_D; KEY_RIGHT] = true →
  (0 <= bateria_x g < screen_width g - 1 →
   (process_input (process_input g right).1 left).1 = g)
  ∧ (0 < bateria_x g <= screen_width g - 1 →
     (process_input (process_input g left).1 right).1 = g)
  ∧ (bateria_x g = 0 → (process_input g left).1 = g)
  ∧ (bateria_x g = screen_width g - 1 → (process_input g right).1 = g).
Proof.
  intros Hl Hr. split_and!.
  - intros Hx. rewrite (process_input_right g) by done. cbn [fst].
    destruct (Z.ltb_spec (bateria_x g) (screen_width g - 1)); [|lia].
    rewrite process_input_left by done. cbn [fst]. gsimpl.
    destruct (Z.ltb_spec 0 (bateria_x g + 1)); [|lia].
    rewrite set_bateria_x_twice.
    replace (bateria_x g + 1 - 1) with (bateria_x g) by lia.
    apply set_bateria_x_same.
  - intros Hx. rewrite (process_input_left g) by done. cbn [fst].
    destruct (Z.ltb_spec 0 (bateria_x g)); [|lia].
    rewrite process_input_right by done. cbn [fst]. gsimpl.
    destruct (Z.ltb_spec (bateria_x g - 1) (screen_width g - 1)); [|lia].
    rewrite set_bateria_x_twice.
    replace (bateria_x g - 1 + 1) with (bateria_x g) by lia.
    apply set_bateria_x_same.
  - intros Hx. rewrite process_input_left by done. cbn [fst]. by rewrite Hx.
  - intros Hx. rewrite process_input_right by done. cbn [fst].
    destruct (Z.ltb_spec (bateria_x g) (screen_width g - 1)); [lia|done].
Qed.

Lemma process_input_left_right_witness :
  (process_input (process_input (game_init 0 0) ch_d).1 ch_a).1 = game_init 0 0.
Proof.
  apply (process_input_left_right (game_init 0 0) ch_a ch_d);
    [reflexivity | reflexivity | by vm_compute].
Defined.

Lemma input_frame_refl g : input_frame g g.
Proof. unfold input_frame. by destruct g. Qed.

(** X4. [process_input] changes at most the battery column, the aim and the
    termination flag, and at most one of them per key; the column by at most
    one; it never clears the termination flag and sets it only on x, X or
    ESC.  It asks for a shot exactly on the space bar, and then leaves the
    state as it is. *)
Theorem process_input_touches (g : GameState) (key : Z) :
  input_frame g (process_input g key).1
  ∧ Z.abs (bateria_x (process_input g key).1 - bateria_x g) <= 1
  ∧ (game_over g = true → game_over (process_input g key).1 = true)
  ∧ (bateria_x (process_input g key).1 ≠ bateria_x g →
     direcao_atual (process_input g key).1 = direcao_atual g
     ∧ game_over (process_input g key).1 = game_over g)
  ∧ (direcao_atual (process_input g key).1 ≠ direcao_atual g →
     game_over (process_input g key).1 = game_over g)
  ∧ ((process_input g key).2 = true ↔ key = ch_space)
  ∧ ((process_input g key).2 = true → (process_input g key).1 = g)
  ∧ (game_over (process_input g key).1 ≠ game_over g →
     key ∈ [ch_x; ch_X; ch_esc]).
Proof.
  assert (∀ g1 : GameState, set_game_over (game_over g1)
            (set_direcao_atual (direcao_atual g1)
               (set_bateria_x (bateria_x g1) g1)) = g1) as Heta
    by (intros g1; by destruct g1).
  unfold process_input, input_frame.
  repeat match goal with
         | |- context [key_in key ?ks] =>
             let H := fresh "Hk" in
             destruct (key_in key ks) eqn:H;
             [apply key_in_cases in H|]
         end.
  all: repeat case_match; cbn [fst snd]; gsimpl.
  all: split_and!; try done; try lia; try (by rewrite Heta); try (by destruct g).
  all: try (split; [done|]; intros ->;
            match goal with
            | H : _ ∈ _ |- _ =>
                repeat (apply elem_of_cons in H as [H|H]; [by vm_compute in H|]);
                by apply elem_of_nil in H
            | H : key_in ch_space [ch_space] = false |- _ => by vm_compute in H
            end).
  split; [|done]. intros _.
  match goal with
  | H : _ ∈ _ |- _ =>
      apply elem_of_cons in H as [H|H]; [done|]; by apply elem_of_nil in H
  end.
Qed.

(** ** The command line *)

(** X5. When [main] goes on to [game_init], the difficulty it passes is 0, 1 or
    2 (1 without an argument), [game_init] keeps it and takes its row of
    [DIFFS]: the fallback of [game_init] is never used from [main]. *)
Theorem main_start_difficulty (atoi : string → Z) (argv1 : option string)
    (d now : Z) :
  main_start atoi argv1 = Play d →
  0 <= d <= 2
  ∧ dificuldade (game_init d now) = d
  ∧ DIFFS !! Z.to_nat d = Some (cfg (game_init d now))
  ∧ (argv1 = None → d = 1).
Proof.
  unfold main_start. intros H.
  assert (0 <= d <= 2) as Hd.
  { destruct argv1 as [a|]; [|by simplify_eq].
    destruct ((char_at 0 a =? 45) && (char_at 1 a =? 104)); [done|].
    destruct ((atoi a <? 0) || (2 <? atoi a)) eqn:Ha; [done|].
    apply orb_false_iff in Ha as [H1 H2]. simplify_eq. lia. }
  split; [done|].
  assert (d = 0 ∨ d = 1 ∨ d = 2) as Hc by lia.
  split_and!.
  - destruct Hc as [->|[->| ->]]; reflexivity.
  - destruct Hc as [->|[->| ->]]; reflexivity.
  - intros ->. by simplify_eq.
Qed.

Lemma main_start_difficulty_witness :
  0 <= 2 <= 2
  ∧ dificuldade (game_init 2 0) = 2
  ∧ DIFFS !! Z.to_nat 2 = Some (cfg (game_init 2 0))
  ∧ (Some "2" = None → 2 = 1).
Proof.
  apply (main_start_difficulty (λ _, 2) (Some "2") 2 0). reflexivity.
Defined.

(** ** The bar of loaded bays *)

(** X6. The bar of loaded bays is drawn exactly on terminals of 86 columns or
    more, and is then a fifth of the width, at least 17 cells.  With
    [launchers > 0] and [0 <= loaded <= launchers] the filled part is between
    0 and the width of the bar, and is the whole bar exactly when every bay
    is loaded; with no launcher it is empty.  The number of loaded bays is
    between 0 and [num_lancadores], and the cells are [=] up to the filled
    part and blanks after it. *)
Theorem rockets_bar_shape :
  (∀ sw, bar_shown sw = true ↔ 86 <= sw)
  ∧ (∀ sw, bar_shown sw = true → bar_w sw = Z.quot sw 5 ∧ 17 <= bar_w sw)
  ∧ (∀ launchers loaded w,
       0 < launchers → 0 <= loaded <= launchers → 0 <= w →
       0 <= bar_filled launchers loaded w <= w
       ∧ (0 < w → bar_filled launchers loaded w = w ↔ loaded = launchers))
  ∧ (∀ launchers loaded w, launchers <= 0 → bar_filled launchers loaded w = 0)
  ∧ (∀ g, 0 <= num_lancadores g →
          0 <= loaded_bays g <= num_lancadores g)
  ∧ (∀ w filled,
       length (bar_cells w filled) = Z.to_nat w
       ∧ ∀ i c, bar_cells w filled !! i = Some c →
                c = if Z.of_nat i <? filled then ch_eq else ch_space).
Proof.
  assert (∀ sw, bar_shown sw = true ↔ 86 <= sw) as Hshown.
  { intros sw. unfold bar_shown, bar_w, bar_x.
    rewrite andb_true_iff, !Z.ltb_lt.
    destruct (Z.ltb_spec 60 sw) as [Hsw|Hsw]; [|lia].
    rewrite Z.quot_div_nonneg by lia.
    pose proof (Z.div_mod sw 5 ltac:(lia)).
    pose proof (Z.mod_pos_bound sw 5 ltac:(lia)). lia. }
  split_and!; [done| | | | |].
  - intros sw Hs. apply Hshown in Hs. unfold bar_w.
    destruct (Z.ltb_spec 60 sw); [|lia]. split; [done|].
    rewrite Z.quot_div_nonneg by lia.
    pose proof (Z.div_mod sw 5 ltac:(lia)).
    pose proof (Z.mod_pos_bound sw 5 ltac:(lia)). lia.
  - intros launchers loaded w Hl Hld Hw. unfold bar_filled.
    destruct (Z.ltb_spec 0 launchers); [|lia].
    rewrite Z.quot_div_nonneg by nia.
    pose proof (Z.div_mod (loaded * w) launchers ltac:(lia)).
    pose proof (Z.mod_pos_bound (loaded * w) launchers ltac:(lia)).
    split; [nia|]. intros Hw0. split; [nia|].
    intros ->. rewrite Z.mul_comm. apply Z.div_mul. lia.
  - intros launchers loaded w Hl. unfold bar_filled.
    destruct (Z.ltb_spec 0 launchers); [lia|done].
  - intros g Hn. unfold loaded_bays, bays.
    pose proof (length_filter (λ l, tem_foguete l = true)
                  (take (Z.to_nat (num_lancadores g)) (lancadores g))) as H1.
    rewrite length_take in H1. lia.
  - intros w filled. unfold bar_cells. rewrite length_fmap, length_seqZ.
    split; [done|]. intros i c. rewrite list_lookup_fmap.
    destruct (seqZ 0 w !! i) as [x|] eqn:Hx; [|done].
    apply lookup_seqZ in Hx as [-> _]. cbn. by intros [= <-].
Qed.

(** ** The spawn supervisor, when it spawns and when it does not *)

Lemma alter_insert_lookup {A} (f : A → A) (i : nat) (l : list A) (x : A) :
  l !! i = Some x → alter f i l = <[i := f x]> l.
Proof.
  intros Hi. apply list_eq. intros j. destruct (decide (i = j)) as [<-|Hne].
  - rewrite list_lookup_alter_eq, list_lookup_insert_eq, Hi; [done|].
    by eapply lookup_lt_Some.
  - by rewrite list_lookup_alter_ne, list_lookup_insert_ne.
Qed.

(** X7. With ships left to spawn, fewer than [MAX_NAVES] active, a free slot,
    and the allocation and the launch of the task succeeding, [criar_nave]
    takes the first free slot, puts an active, not destroyed ship there in
    row [hud_height] and column [rand() % screen_width] (inside the screen),
    adds one to [num_naves_ativas] and to [naves_spawned], changes nothing
    else and releases [mutex_naves]. *)
Theorem criar_nave_spawns (o : Oracle) (new_tid : nat) (g : GameState)
    (idx : nat) :
  mutex_naves g = false →
  naves_spawned g < naves_total g →
  num_naves_ativas g < MAX_NAVES →
  find_first (λ n, negb (nave_ativa n)) (naves g) = Some idx →
  o_malloc_ok o = true →
  o_create_ok o = true →
  let x := if 0 <? screen_width g
           then Z.rem (Z.of_N (o_rand o)) (screen_width g) else 0 in
  criar_nave o new_tid g
  = Some (set_naves
            (<[idx := Build_Nave (Z.of_nat idx) x (hud_height g) true false new_tid]>
               (naves g))
            (set_naves_spawned (naves_spawned g + 1)
               (set_num_naves_ativas (num_naves_ativas g + 1) g)),
          Some idx)
  ∧ (0 < screen_width g → 0 <= x < screen_width g)
  ∧ (∀ j n, (j < idx)%nat → naves g !! j = Some n → nave_ativa n = true).
Proof.
  intros Hn Hsp Hact Hfree Hm Hc x.
  pose proof Hfree as Hfree'.
  apply find_first_Some in Hfree' as (n0 & Hx & Hp & Hbefore).
  split_and!.
  - unfold criar_nave.
    erewrite criar_nave_call_step.
    2:{ cbn [criar_nave_step].
        destruct (Z.leb_spec (naves_total g) (naves_spawned g)); [lia|].
        reflexivity. }
    erewrite criar_nave_call_step.
    2:{ cbn [criar_nave_step]. rewrite Hn, Hfree.
        destruct (Z.leb_spec MAX_NAVES (num_naves_ativas g)); [lia|].
        reflexivity. }
    erewrite criar_nave_call_step by (cbn [criar_nave_step]; reflexivity).
    erewrite criar_nave_call_step
      by (cbn [criar_nave_step]; rewrite Hm, Hc; reflexivity).
    rewrite criar_nave_call_ret. cbn [from_option]. gsimpl.
    do 2 f_equal.
    assert (naves_eq :
      alter (nave_set_thread_id new_tid) idx
        (alter (λ n, Build_Nave (Z.of_nat idx) x (hud_height g) true false
                       (nave_thread_id n)) idx (naves g))
      = <[idx := Build_Nave (Z.of_nat idx) x (hud_height g) true false new_tid]>
          (naves g)).
    { apply list_eq. intros j. destruct (decide (idx = j)) as [<-|Hne].
      - rewrite !list_lookup_alter_eq, list_lookup_insert_eq, Hx; [done|].
        by eapply lookup_lt_Some.
      - by rewrite !list_lookup_alter_ne, list_lookup_insert_ne. }
    unfold x in naves_eq. rewrite naves_eq. subst x.
    destruct g. cbn in Hn. subst. reflexivity.
  - intros Hw. unfold x. destruct (Z.ltb_spec 0 (screen_width g)); [|lia].
    apply Z.rem_bound_pos; lia.
  - intros j n Hj Hjn. specialize (Hbefore j n Hj Hjn).
    by apply negb_false_iff in Hbefore.
Qed.

Lemma criar_nave_spawns_witness :
  ∃ g', criar_nave oracle_fire 0 (game_init 0 0) = Some (g', Some 0%nat)
        ∧ naves g' !! 0%nat = Some (Build_Nave 0 60 3 true false 0)
        ∧ naves_spawned g' = 1
        ∧ num_naves_ativas g' = 1.
Proof.
  eexists. split.
  - apply (criar_nave_spawns oracle_fire 0 (game_init 0 0) 0); by vm_compute.
  - by vm_compute.
Defined.

(** X8. When all ships are spawned, or [MAX_NAVES] are active, or no slot is
    free, [criar_nave] returns with the state as it was and starts no task. *)
Theorem criar_nave_nothing (o : Oracle) (new_tid : nat) (g : GameState) :
  mutex_naves g = false →
  naves_total g <= naves_spawned g
  ∨ MAX_NAVES <= num_naves_ativas g
  ∨ (∀ n, n ∈ naves g → nave_ativa n = true) →
  criar_nave o new_tid g = Some (g, None).
Proof.
  intros Hn Hcase. unfold criar_nave.
  destruct (Z.leb_spec (naves_total g) (naves_spawned g)) as [Hq|Hq].
  { erewrite criar_nave_call_step.
    2:{ cbn [criar_nave_step].
        destruct (Z.leb_spec (naves_total g) (naves_spawned g)); [|lia].
        reflexivity. }
    apply criar_nave_call_ret. }
  erewrite criar_nave_call_step.
  2:{ cbn [criar_nave_step].
      destruct (Z.leb_spec (naves_total g) (naves_spawned g)); [lia|].
      reflexivity. }
  erewrite criar_nave_call_step.
  2:{ cbn [criar_nave_step]. rewrite Hn.
      destruct (Z.leb_spec MAX_NAVES (num_naves_ativas g)) as [Hc|Hc];
        [reflexivity|].
      destruct Hcase as [?|[?|Hfull]]; [lia..|].
      assert (find_first (λ n, negb (nave_ativa n)) (naves g) = None) as ->;
        [|reflexivity].
      apply find_first_None. intros n Hin. by rewrite (Hfull n Hin). }
  apply criar_nave_call_ret.
Qed.

Lemma criar_nave_nothing_witness :
  naves_spawned (game world_all_spawned) = 30
  ∧ criar_nave oracle_fire 30 (game world_all_spawned)
    = Some (game world_all_spawned, None).
Proof.
  split; [by vm_compute|].
  apply (criar_nave_nothing oracle_fire 30 (game world_all_spawned));
    [by vm_compute | left; by vm_compute].
Defined.

(** ** The fire action, when it fires *)

Lemma tentar_disparar_launch (o : Oracle) (new_tid : nat) (g : GameState)
    (l f : nat) (r : Foguete) :
  mutex_lancadores g = false →
  mutex_foguetes g = false →
  find_first tem_foguete (bays g) = Some l →
  find_first (λ r, negb (fog_ativa r)) (foguetes g) = Some f →
  foguetes g !! f = Some r →
  o_malloc_ok o = false ∨ o_create_ok o = true →
  let x := if bateria_x g <? 0 then 0
           else if screen_width g <=? bateria_x g then screen_width g - 1
           else bateria_x g in
  let tid := if o_malloc_ok o then new_tid else fog_thread_id r in
  tentar_disparar o new_tid g
  = Some (set_foguetes
            (<[f := Build_Foguete (Z.of_nat f) x
                      (screen_height g - controls_height g - 1)
                      (fog_dx r) (fog_dy r) (direcao_atual g) (Z.of_nat l)
                      true tid]> (foguetes g))
            (set_lancadores (alter (lanc_set_tem_foguete false) l (lancadores g))
               (set_num_foguetes_ativos (num_foguetes_ativos g + 1)
                  (set_shots_fired (shots_fired g + 1) g))),
          true, if o_malloc_ok o then Some f else None).
Proof.
  intros Hl Hf Hbay Hslot Hr Ho x tid.
  unfold tentar_disparar.
  erewrite tentar_disparar_call_step by by apply T_entry_bay.
  erewrite tentar_disparar_call_step by by apply T_bay_slot.
  erewrite tentar_disparar_call_step by (cbn [tentar_disparar_step]; reflexivity).
  subst tid.
  destruct (o_malloc_ok o) eqn:Hm.
  - destruct Ho as [?|Hc]; [done|].
    erewrite tentar_disparar_call_step
      by (cbn [tentar_disparar_step]; rewrite Hm, Hc; reflexivity).
    rewrite tentar_disparar_call_ret. cbn [from_option]. gsimpl.
    do 3 f_equal.
    match goal with
    | |- set_foguetes ?a _ = set_foguetes ?b _ => assert (a = b) as ->
    end.
    { apply list_eq. intros j. destruct (decide (f = j)) as [<-|Hne].
      - rewrite !list_lookup_alter_eq, list_lookup_insert_eq, Hr; [done|].
        by eapply lookup_lt_Some.
      - by rewrite !list_lookup_alter_ne, list_lookup_insert_ne. }
    destruct g. cbn in Hl, Hf. subst. reflexivity.
  - erewrite tentar_disparar_call_step
      by (cbn [tentar_disparar_step]; rewrite Hm; reflexivity).
    rewrite tentar_disparar_call_ret. cbn [from_option]. gsimpl.
    do 3 f_equal.
    match goal with
    | |- set_mutex_lancadores _ (set_mutex_foguetes _ (set_shots_fired _
           (set_lancadores _ (set_num_foguetes_ativos _ (set_foguetes ?a _)))))
         = set_foguetes ?b _ => assert (a = b) as ->
    end.
    { apply list_eq. intros j. destruct (decide (f = j)) as [<-|Hne].
      - rewrite !list_lookup_alter_eq, list_lookup_insert_eq, Hr; [done|].
        by eapply lookup_lt_Some.
      - by rewrite !list_lookup_alter_ne, list_lookup_insert_ne. }
    destruct g. cbn in Hl, Hf. subst. reflexivity.
Qed.

(** X9. With a loaded bay, a free slot, and the allocation and the launch of the
    task succeeding, [tentar_disparar] returns [true]: the first free slot
    holds an active rocket on the ground line at the battery's column
    (clamped into the screen), with the current aim and the first loaded bay
    as its launcher; that bay is unloaded, [num_foguetes_ativos] and
    [shots_fired] grow by one, the displacement of the slot is left for the
    rocket's task, nothing else changes, and both mutexes are released. *)
Theorem tentar_disparar_fires (o : Oracle) (new_tid : nat) (g : GameState)
    (l f : nat) (r : Foguete) :
  mutex_lancadores g = false →
  mutex_foguetes g = false →
  find_first tem_foguete (bays g) = Some l →
  find_first (λ r, negb (fog_ativa r)) (foguetes g) = Some f →
  foguetes g !! f = Some r →
  o_malloc_ok o = true →
  o_create_ok o = true →
  let x := if bateria_x g <? 0 then 0
           else if screen_width g <=? bateria_x g then screen_width g - 1
           else bateria_x g in
  tentar_disparar o new_tid g
  = Some (set_foguetes
            (<[f := Build_Foguete (Z.of_nat f) x
                      (screen_height g - controls_height g - 1)
                      (fog_dx r) (fog_dy r) (direcao_atual g) (Z.of_nat l)
                      true new_tid]> (foguetes g))
            (set_lancadores (alter (lanc_set_tem_foguete false) l (lancadores g))
               (set_num_foguetes_ativos (num_foguetes_ativos g + 1)
                  (set_shots_fired (shots_fired g + 1) g))),
          true, Some f)
  ∧ (0 <= bateria_x g < screen_width g → x = bateria_x g)
  ∧ (0 < screen_width g → 0 <= x < screen_width g)
  ∧ (∀ j b, (j < l)%nat → lancadores g !! j = Some b → tem_foguete b = false)
  ∧ (∀ j s, (j < f)%nat → foguetes g !! j = Some s → fog_ativa s = true).
Proof.
  intros Hl Hf Hbay Hslot Hr Hm Hc x.
  pose proof (tentar_disparar_launch o new_tid g l f r Hl Hf Hbay Hslot Hr
                (or_intror Hc)) as Hcall.
  cbv zeta in Hcall. rewrite Hm in Hcall.
  split; [exact Hcall|]. subst x.
  split_and!.
  - intros Hx. destruct (Z.ltb_spec (bateria_x g) 0); [lia|].
    destruct (Z.leb_spec (screen_width g) (bateria_x g)); [lia|done].
  - intros Hw. destruct (Z.ltb_spec (bateria_x g) 0); [lia|].
    destruct (Z.leb_spec (screen_width g) (bateria_x g)); lia.
  - intros j b Hj Hjb.
    apply find_first_Some in Hbay as (b0 & Hb0 & _ & Hbefore).
    apply (Hbefore j b Hj). unfold bays. rewrite lookup_take_lt; [done|].
    apply lookup_lt_Some in Hb0. unfold bays in Hb0.
    rewrite length_take in Hb0. lia.
  - intros j s Hj Hjs.
    apply find_first_Some in Hslot as (s0 & _ & _ & Hbefore).
    specialize (Hbefore j s Hj Hjs). by apply negb_false_iff in Hbefore.
Qed.

Lemma tentar_disparar_fires_witness :
  ∃ g', tentar_disparar oracle_fire 0 game_one_loaded = Some (g', true, Some 0%nat)
        ∧ foguetes g' !! 0%nat
          = Some (Build_Foguete 0 60 29 0 0 DIR_VERTICAL 0 true 0)
        ∧ shots_fired g' = 1.
Proof.
  eexists. split.
  - apply (tentar_disparar_fires oracle_fire 0 game_one_loaded 0 0 fog_zero);
      by vm_compute.
  - by vm_compute.
Defined.

(** X10. When the allocation of the task's arguments fails, [tentar_disparar]
    returns [true] although no task was started: the slot stays active with
    its old thread id, [num_foguetes_ativos] and [shots_fired] stay
    incremented, and the bay stays unloaded. *)
Theorem tentar_disparar_malloc_failure (o : Oracle) (new_tid : nat)
    (g : GameState) (l f : nat) (r : Foguete) :
  mutex_lancadores g = false →
  mutex_foguetes g = false →
  find_first tem_foguete (bays g) = Some l →
  find_first (λ r, negb (fog_ativa r)) (foguetes g) = Some f →
  foguetes g !! f = Some r →
  o_malloc_ok o = false →
  ∃ g', tentar_disparar o new_tid g = Some (g', true, None)
        ∧ fog_ativa <$> foguetes g' !! f = Some true
        ∧ fog_thread_id <$> foguetes g' !! f = Some (fog_thread_id r)
        ∧ num_foguetes_ativos g' = num_foguetes_ativos g + 1
        ∧ shots_fired g' = shots_fired g + 1
        ∧ tem_foguete <$> lancadores g' !! l = Some false.
Proof.
  intros Hl Hf Hbay Hslot Hr Hm.
  pose proof (tentar_disparar_launch o new_tid g l f r Hl Hf Hbay Hslot Hr
                (or_introl Hm)) as Hcall.
  cbv zeta in Hcall. rewrite Hm in Hcall.
  eexists. split; [exact Hcall|]. gsimpl.
  apply find_first_Some in Hbay as (b & Hb & _).
  unfold bays in Hb. apply lookup_take_Some in Hb as [Hb _].
  rewrite list_lookup_insert_eq by by eapply lookup_lt_Some.
  rewrite list_lookup_alter_eq, Hb. done.
Qed.

Lemma tentar_disparar_malloc_failure_witness :
  ∃ g', tentar_disparar oracle_malloc_fails 0 game_one_loaded
        = Some (g', true, None)
        ∧ fog_ativa <$> foguetes g' !! 0%nat = Some true
        ∧ fog_thread_id <$> foguetes g' !! 0%nat = Some (fog_thread_id fog_zero)
        ∧ num_foguetes_ativos g' = num_foguetes_ativos game_one_loaded + 1
        ∧ shots_fired g' = shots_fired game_one_loaded + 1
        ∧ tem_foguete <$> lancadores g' !! 0%nat = Some false.
Proof.
  apply (tentar_disparar_malloc_failure oracle_malloc_fails 0 game_one_loaded
           0 0 fog_zero); by vm_compute.
Defined.

(** ** What every step keeps *)

Ltac keep_cases :=
  step_cases;
  unfold steady, score_rel, quiet, lock_step, screen_ok in *; gsimpl_all;
  rewrite ?length_alter, ?length_insert.

Ltac keep_close :=
  unfold steady, score_rel, quiet, lock_step, screen_ok in *;
  repeat split; intros; destruct_and?; try done; try lia; try congruence;
  try (by auto).

Lemma thread_nave_step_keep k g pc g' pc' e :
  thread_nave_step k g pc = Some (g', pc', e) →
  steady g g' ∧ (score_rel g → score_rel g') ∧ quiet g g'
  ∧ num_naves_ativas g' - Z.of_nat (live_nave (k, pc'))
    = num_naves_ativas g - Z.of_nat (live_nave (k, pc))
  ∧ live_nave (k, pc) = 1%nat.
Proof.
  intros H. destruct pc; cbn [thread_nave_step] in H; keep_cases;
    cbn [live_nave snd]; keep_close.
Qed.

Lemma thread_foguete_step_keep k g pc g' pc' e :
  thread_foguete_step k g pc = Some (g', pc', e) →
  steady g g' ∧ (score_rel g → score_rel g') ∧ quiet g g'
  ∧ num_naves_ativas g' = num_naves_ativas g.
Proof.
  intros H. destruct pc; cbn [thread_foguete_step] in H; keep_cases;
    keep_close.
Qed.

Lemma find_first_lt {A} (p : A → bool) (l : list A) (i : nat) :
  find_first p l = Some i → (i < length l)%nat.
Proof.
  intros H. apply find_first_Some in H as (x & Hx & _).
  by eapply lookup_lt_Some.
Qed.

Lemma find_first_bays_lt p g i :
  find_first p (bays g) = Some i → (i < length (lancadores g))%nat.
Proof.
  intros H. apply find_first_lt in H. unfold bays in H.
  rewrite length_take in H. lia.
Qed.

Lemma thread_artilheiro_step_keep g pc g' pc' :
  thread_artilheiro_step g pc = Some (g', pc') →
  steady g g' ∧ (score_rel g → score_rel g')
  ∧ mutex_naves g' = mutex_naves g
  ∧ mutex_foguetes g' = mutex_foguetes g
  ∧ screen_width g' = screen_width g
  ∧ screen_height g' = screen_height g
  ∧ num_naves_ativas g' = num_naves_ativas g
  ∧ lock_step (art_holds_lancadores pc) (art_holds_lancadores pc')
      (mutex_lancadores g) (mutex_lancadores g')
  ∧ (art_slot_ok g pc → art_slot_ok g' pc').
Proof.
  intros H. destruct pc; cbn [thread_artilheiro_step] in H; keep_cases;
    cbn [art_holds_lancadores art_slot_ok]; gsimpl;
    rewrite ?length_alter; keep_close.
  all: try (intros; by eapply find_first_bays_lt).
Qed.

Lemma tentar_disparar_step_keep o tid g pc g' pc' sp e :
  tentar_disparar_step o tid g pc = Some (g', pc', sp, e) →
  steady g g' ∧ (score_rel g → score_rel g')
  ∧ mutex_naves g' = mutex_naves g
  ∧ screen_width g' = screen_width g
  ∧ screen_height g' = screen_height g
  ∧ num_naves_ativas g' = num_naves_ativas g
  ∧ lock_step (input_holds_lancadores (I_fire pc))
      (input_holds_lancadores (I_fire pc'))
      (mutex_lancadores g) (mutex_lancadores g')
  ∧ lock_step (input_holds_foguetes (I_fire pc))
      (input_holds_foguetes (I_fire pc'))
      (mutex_foguetes g) (mutex_foguetes g')
  ∧ (fire_slot_ok g (I_fire pc) → fire_slot_ok g' (I_fire pc'))
  ∧ (fire_slot_ok g (I_fire pc) →
     ∀ f, sp = Some f → (f < length (foguetes g'))%nat).
Proof.
  intros H. destruct pc; cbn [tentar_disparar_step] in H; keep_cases;
    cbn [input_holds_lancadores input_holds_foguetes fire_slot_ok]; gsimpl;
    rewrite ?length_alter; keep_close.
  all: try (intros; by eapply find_first_bays_lt).
  all: try (intros; by eapply find_first_lt).
  all: try (intros; simplify_eq; tauto).
Qed.

Lemma process_input_keep g key g' fire :
  process_input g key = (g', fire) →
  steady g g' ∧ (score_rel g → score_rel g') ∧ quiet g g'
  ∧ num_naves_ativas g' = num_naves_ativas g
  ∧ naves g' = naves g ∧ foguetes g' = foguetes g
  ∧ lancadores g' = lancadores g.
Proof.
  unfold process_input. intros H. keep_cases; keep_close.
Qed.

Lemma thread_input_step_keep o tid g pc g' pc' sp e :
  thread_input_step o tid g pc = Some (g', pc', sp, e) →
  steady g g' ∧ (score_rel g → score_rel g')
  ∧ mutex_naves g' = mutex_naves g
  ∧ screen_width g' = screen_width g
  ∧ screen_height g' = screen_height g
  ∧ num_naves_ativas g' = num_naves_ativas g
  ∧ lock_step (input_holds_lancadores pc) (input_holds_lancadores pc')
      (mutex_lancadores g) (mutex_lancadores g')
  ∧ lock_step (input_holds_foguetes pc) (input_holds_foguetes pc')
      (mutex_foguetes g) (mutex_foguetes g')
  ∧ (fire_slot_ok g pc → fire_slot_ok g' pc')
  ∧ (fire_slot_ok g pc →
     ∀ f, sp = Some f → (f < length (foguetes g'))%nat).
Proof.
  intros H. destruct pc; cbn [thread_input_step] in H.
  - keep_cases; cbn [input_holds_lancadores input_holds_foguetes fire_slot_ok];
      keep_close.
  - keep_cases; cbn [input_holds_lancadores input_holds_foguetes fire_slot_ok];
      keep_close.
  - destruct (process_input g ch) as [g1 fire] eqn:Hp.
    pose proof (process_input_keep g ch g1 fire Hp)
      as (Hs & Hsc & (? & ? & ? & ? & ?) & ? & ? & ? & ?).
    destruct fire; simplify_eq;
      cbn [input_holds_lancadores input_holds_foguetes fire_slot_ok];
      keep_close.
  - destruct pc as [| | | | |b].
    6:{ simplify_eq.
        cbn [input_holds_lancadores input_holds_foguetes fire_slot_ok].
        keep_close. }
    all: destruct (tentar_disparar_step o tid g _)
           as [[[[g1 pc1] sp1] e1]|] eqn:Hs; [|done];
         cbn [mbind option_bind] in H; simplify_eq;
         by apply (tentar_disparar_step_keep _ _ _ _ _ _ _ _ Hs).
  - done.
Qed.

Lemma criar_nave_step_keep o tid g pc g' pc' sp e wt :
  criar_nave_step o tid g pc = Some (g', pc', sp, e) →
  steady g g' ∧ (score_rel g → score_rel g')
  ∧ mutex_foguetes g' = mutex_foguetes g
  ∧ mutex_lancadores g' = mutex_lancadores g
  ∧ screen_width g' = screen_width g
  ∧ screen_height g' = screen_height g
  ∧ lock_step (holds_naves (M_principal (P_criar wt pc)))
      (holds_naves (M_principal (P_criar wt pc')))
      (mutex_naves g) (mutex_naves g')
  ∧ (criar_slot_ok g (M_principal (P_criar wt pc)) →
     criar_slot_ok g' (M_principal (P_criar wt pc'))
     ∧ ∀ idx, sp = Some idx → (idx < length (naves g'))%nat)
  ∧ num_naves_ativas g - counted_ahead (M_principal (P_criar wt pc))
    <= num_naves_ativas g' - counted_ahead (M_principal (P_criar wt pc'))
       - spawned_one sp
  ∧ (num_naves_ativas g + Z.b2z (holds_naves (M_principal (P_criar wt pc)))
     <= MAX_NAVES →
     num_naves_ativas g' + Z.b2z (holds_naves (M_principal (P_criar wt pc')))
     <= MAX_NAVES).
Proof.
  intros H. destruct pc; cbn [criar_nave_step] in H; keep_cases;
    cbn [holds_naves criar_slot_ok counted_ahead spawned_one Z.b2z]; gsimpl;
    rewrite ?length_alter; keep_close.
  all: try (by eapply find_first_lt).
Qed.

Lemma render_game_step_keep o g pc g' pc' wt :
  render_game_step o g pc = Some (g', pc') →
  steady g g' ∧ (score_rel g → score_rel g')
  ∧ mutex_naves g' = mutex_naves g
  ∧ mutex_foguetes g' = mutex_foguetes g
  ∧ mutex_lancadores g' = mutex_lancadores g
  ∧ num_naves_ativas g' = num_naves_ativas g
  ∧ (publish_big (M_principal (P_render wt pc)) → screen_ok g →
     publish_big (M_principal (P_render wt pc')) ∧ screen_ok g').
Proof.
  intros H. destruct pc; cbn [render_game_step] in H; keep_cases;
    cbn [publish_big]; keep_close.
Qed.

Lemma finalizar_threads_step_keep dn df dl g pc g' pc' :
  finalizar_threads_step dn df dl g pc = Some (g', pc') →
  steady g g' ∧ (score_rel g → score_rel g') ∧ quiet g g'
  ∧ num_naves_ativas g' = num_naves_ativas g
  ∧ (pc = Z_over → game_over g' = true)
  ∧ (pc' = Z_ret → dl = true).
Proof.
  intros H. destruct pc; cbn [finalizar_threads_step] in H; keep_cases;
    keep_close.
  all: try (by repeat match goal with
                      | H : _ && _ = true |- _ => apply andb_true_iff in H as [? ?]
                      end).
Qed.

Lemma thread_principal_step_keep o tid g pc g' pc' sp e :
  thread_principal_step o tid g pc = Some (g', pc', sp, e) →
  steady g g' ∧ (score_rel g → score_rel g')
  ∧ mutex_foguetes g' = mutex_foguetes g
  ∧ mutex_lancadores g' = mutex_lancadores g
  ∧ lock_step (holds_naves (M_principal pc)) (holds_naves (M_principal pc'))
      (mutex_naves g) (mutex_naves g')
  ∧ (criar_slot_ok g (M_principal pc) →
     criar_slot_ok g' (M_principal pc')
     ∧ ∀ idx, sp = Some idx → (idx < length (naves g'))%nat)
  ∧ num_naves_ativas g - counted_ahead (M_principal pc)
    <= num_naves_ativas g' - counted_ahead (M_principal pc') - spawned_one sp
  ∧ (num_naves_ativas g + Z.b2z (holds_naves (M_principal pc)) <= MAX_NAVES →
     num_naves_ativas g' + Z.b2z (holds_naves (M_principal pc')) <= MAX_NAVES)
  ∧ (publish_big (M_principal pc) → screen_ok g →
     publish_big (M_principal pc') ∧ screen_ok g')
  ∧ (pc' = P_over → rule_end g' = true)
  ∧ (pc' = P_ret → game_over g' = true).
Proof.
  intros H. destruct pc as [|wt|wt| |wt c|wt r|]; cbn [thread_principal_step] in H.
  - keep_cases;
      cbn [holds_naves criar_slot_ok counted_ahead spawned_one Z.b2z publish_big];
      keep_close.
  - keep_cases;
      cbn [holds_naves criar_slot_ok counted_ahead spawned_one Z.b2z publish_big];
      keep_close.
  - unfold rule_end.
    keep_cases;
      cbn [holds_naves criar_slot_ok counted_ahead spawned_one Z.b2z publish_big];
      keep_close.
  - keep_cases;
      cbn [holds_naves criar_slot_ok counted_ahead spawned_one Z.b2z publish_big];
      keep_close.
  - destruct c.
    6:{ keep_cases;
          cbn [holds_naves criar_slot_ok counted_ahead spawned_one Z.b2z publish_big];
          keep_close. }
    all: destruct (criar_nave_step o tid g _)
           as [[[[g1 c1] sp1] e1]|] eqn:Hs; [|done];
         cbn [mbind option_bind] in H; simplify_eq;
         pose proof (criar_nave_step_keep _ _ _ _ _ _ _ _ wt Hs)
           as (? & ? & ? & ? & Hw & Hh & ? & ? & ? & ?);
         split_and!; try done;
         cbn [publish_big]; unfold screen_ok; rewrite ?Hw, ?Hh;
         try (destruct H as (? & ? & ? & ? & ? & Hhud & Hch & _);
              rewrite ?Hhud, ?Hch; tauto).
  - destruct r.
    8:{ simplify_eq.
        cbn [holds_naves criar_slot_ok counted_ahead spawned_one Z.b2z publish_big].
        keep_close. }
    all: destruct (render_game_step o g _) as [[g1 r1]|] eqn:Hs; [|done];
         cbn [mbind option_bind] in H; simplify_eq;
         pose proof (render_game_step_keep _ _ _ _ _ wt Hs)
           as (Hst & ? & Hmn & ? & ? & Hnum & ?);
         cbn [holds_naves criar_slot_ok counted_ahead spawned_one Z.b2z];
         unfold lock_step; rewrite ?Hmn, ?Hnum;
         split_and!; try done; try lia; intros; split_and?; try done.
  - done.
Qed.

(** ** The invariant of a run *)

Lemma lock_combine (h h' m m' other : bool) :
  lock_step h h' m m' →
  m = h || other → h && other = false →
  m' = h' || other ∧ h' && other = false.
Proof.
  unfold lock_step. intros Hs -> Hx.
  destruct h, h', other; simpl in *; try done;
    destruct Hs as [-> Hs]; try done; split; try done;
    by specialize (Hs eq_refl eq_refl).
Qed.

Lemma lock_single (h h' m m' : bool) :
  lock_step h h' m m' → m = h → m' = h'.
Proof.
  unfold lock_step. intros Hs ->.
  destruct h, h'; simpl in *; by destruct Hs as [-> Hs].
Qed.

Lemma rule_end_steady g g' :
  steady g g' → rule_end g = true → rule_end g' = true.
Proof.
  unfold steady, rule_end. intros ?. destruct_and!.
  rewrite !orb_true_iff, !Z.ltb_lt, !Z.leb_le.
  match goal with H : naves_total g' = _ |- _ => rewrite H end. lia.
Qed.

Lemma screen_ok_same g g' :
  steady g g' →
  screen_width g' = screen_width g → screen_height g' = screen_height g →
  screen_ok g → screen_ok g'.
Proof.
  unfold steady, screen_ok. intros ? Hw Hh ?. destruct_and!.
  rewrite Hw, Hh. split_and!; congruence.
Qed.

Lemma slots_same g g' (w : World) :
  steady g g' →
  (length (naves g) = Z.to_nat MAX_NAVES
   ∧ length (foguetes g) = Z.to_nat MAX_FOGUETES
   ∧ length (lancadores g) = Z.to_nat MAX_LANCADORES
   → length (naves g') = Z.to_nat MAX_NAVES
     ∧ length (foguetes g') = Z.to_nat MAX_FOGUETES
     ∧ length (lancadores g') = Z.to_nat MAX_LANCADORES)
  ∧ (∀ pc, criar_slot_ok g pc → criar_slot_ok g' pc)
  ∧ (∀ pc, fire_slot_ok g pc → fire_slot_ok g' pc)
  ∧ (∀ pc, art_slot_ok g pc → art_slot_ok g' pc).
Proof.
  unfold steady. intros ?. destruct_and!. split_and!.
  - intros (? & ? & ?). split_and!; congruence.
  - intros [[| | | |? []| |]| |]; cbn [criar_slot_ok]; congruence.
  - intros [| | |[]|]; cbn [fire_slot_ok]; try congruence;
      intros [? ?]; split; congruence.
  - intros []; cbn [art_slot_ok]; congruence.
Qed.

Lemma loops_done_eq (w w' : World) :
  th_input w' = th_input w → th_artilheiro w' = th_artilheiro w →
  loops_done w' = loops_done w.
Proof. unfold loops_done. by intros -> ->. Qed.

Lemma coherent_init d now : coherent (init_world d now).
Proof.
  unfold coherent. split_and!.
  - unfold score_rel. cbn. lia.
  - unfold screen_ok. cbn. unfold DEF_W, DEF_H. lia.
  - done.
  - cbn [init_world game]. unfold game_init. cbn [naves_total].
    destruct (game_init_cases d now) as [H|[H|H]];
      unfold game_init in H; cbn [cfg] in H; rewrite H; by vm_compute.
  - by unfold locks_ok.
  - unfold slots_ok. cbn. rewrite !length_replicate. split_and!; done.
  - unfold tasks_ok, live_naves. cbn. unfold MAX_NAVES. lia.
  - by unfold ending_ok.
Qed.

Lemma steady_total g g' : steady g g' → naves_total g' = naves_total g.
Proof. unfold steady. intros ?. by destruct_and!. Qed.

Lemma steady_over g g' :
  steady g g' → game_over g = true → game_over g' = true.
Proof. unfold steady. intros ?. by destruct_and!. Qed.

Lemma ending_same (w w' : World) :
  steady (game w) (game w') →
  th_main w' = th_main w → th_input w' = th_input w →
  th_artilheiro w' = th_artilheiro w →
  ending_ok w → ending_ok w'.
Proof.
  unfold ending_ok. intros Hst Hm Hi Ha (H1 & H2 & H3).
  rewrite Hm, (loops_done_eq w w' Hi Ha). split_and!.
  - intros Hp. by eapply rule_end_steady; [|apply H1].
  - intros Hp. by eapply steady_over; [|apply H2].
  - done.
Qed.

Lemma nave_step_coherent o t w w' e :
  coherent w → step_thread o (TNave t) w = Some (w', e) → coherent w'.
Proof.
  intros (Hsc & Hscr & Hpub & Htot & Hlk & Hsl & Htk & Hend) H.
  cbn [step_thread] in H.
  destruct (th_naves w !! t) as [[k pc]|] eqn:Ht; [|done].
  cbn [mbind option_bind] in H.
  destruct (thread_nave_step k (game w) pc) as [[[g1 pc1] e1]|] eqn:Hs; [|done].
  cbn [mbind option_bind] in H. simplify_eq.
  pose proof (thread_nave_step_keep _ _ _ _ _ _ Hs)
    as (Hst & Hsc' & (Hmn & Hmf & Hml & Hw & Hh) & Hnum & Hlive).
  pose proof (slots_same _ _ w Hst) as (Hlen & Hc & Hf & Ha).
  unfold coherent. split_and!.
  - by apply Hsc'.
  - by eapply screen_ok_same.
  - done.
  - cbn [game]. by rewrite (steady_total _ _ Hst).
  - unfold locks_ok in *. cbn [game th_main th_input th_artilheiro].
    by rewrite Hmn, Hmf, Hml.
  - unfold slots_ok in *. cbn [game th_main th_input th_artilheiro th_naves th_foguetes].
    destruct Hsl as (? & ? & ? & Hfn & ? & ? & ? & ?).
    destruct Hlen as (? & ? & ?); [done|].
    split_and!; try done; auto.
    apply Forall_insert; [done|]. cbn [fst].
    by apply (Forall_lookup_1 _ _ _ _ Hfn Ht).
  - unfold tasks_ok, live_naves in *.
    cbn [game th_main th_naves].
    pose proof (sum_list_with_insert live_nave _ t _ (k, pc1) Ht).
    assert (live_nave (k, pc1) ≤ 1)%nat
      by (unfold live_nave; cbn [snd]; destruct pc1; lia).
    lia.
  - by eapply ending_same.
Qed.

Lemma foguete_step_coherent o t w w' e :
  coherent w → step_thread o (TFoguete t) w = Some (w', e) → coherent w'.
Proof.
  intros (Hsc & Hscr & Hpub & Htot & Hlk & Hsl & Htk & Hend) H.
  cbn [step_thread] in H.
  destruct (th_foguetes w !! t) as [[k pc]|] eqn:Ht; [|done].
  cbn [mbind option_bind] in H.
  destruct (thread_foguete_step k (game w) pc) as [[[g1 pc1] e1]|] eqn:Hs; [|done].
  cbn [mbind option_bind] in H. simplify_eq.
  pose proof (thread_foguete_step_keep _ _ _ _ _ _ Hs)
    as (Hst & Hsc' & (Hmn & Hmf & Hml & Hw & Hh) & Hnum).
  pose proof (slots_same _ _ w Hst) as (Hlen & Hc & Hf & Ha).
  unfold coherent. split_and!.
  - by apply Hsc'.
  - by eapply screen_ok_same.
  - done.
  - cbn [game]. by rewrite (steady_total _ _ Hst).
  - unfold locks_ok in *. cbn [game th_main th_input th_artilheiro].
    by rewrite Hmn, Hmf, Hml.
  - unfold slots_ok in *. cbn [game th_main th_input th_artilheiro th_naves th_foguetes].
    destruct Hsl as (? & ? & ? & ? & Hff & ? & ? & ?).
    destruct Hlen as (? & ? & ?); [done|].
    split_and!; try done; auto.
    apply Forall_insert; [done|]. cbn [fst].
    by apply (Forall_lookup_1 _ _ _ _ Hff Ht).
  - unfold tasks_ok, live_naves in *.
    cbn [game th_main th_naves]. by rewrite Hnum.
  - by eapply ending_same.
Qed.

Lemma artilheiro_step_coherent o w w' e :
  coherent w → step_thread o TArtilheiro w = Some (w', e) → coherent w'.
Proof.
  intros (Hsc & Hscr & Hpub & Htot & Hlk & Hsl & Htk & Hend) H.
  cbn [step_thread] in H.
  destruct (thread_artilheiro_step (game w) _) as [[g1 pc1]|] eqn:Hs; [|done].
  cbn [mbind option_bind] in H. simplify_eq.
  pose proof (thread_artilheiro_step_keep _ _ _ _ Hs)
    as (Hst & Hsc' & Hmn & Hmf & Hw & Hh & Hnum & Hlock & Hslot).
  pose proof (slots_same _ _ w Hst) as (Hlen & Hc & Hf & Ha).
  unfold coherent. split_and!.
  - by apply Hsc'.
  - by eapply screen_ok_same.
  - done.
  - cbn [game]. by rewrite (steady_total _ _ Hst).
  - unfold locks_ok in *. cbn [game th_main th_input th_artilheiro].
    destruct Hlk as (Hn & Hfo & Hl & Hx).
    rewrite Hmn, Hmf. split_and!; [done..| |].
    + rewrite orb_comm. eapply lock_combine; [exact Hlock| |].
      * by rewrite orb_comm.
      * by rewrite andb_comm.
    + rewrite andb_comm. eapply lock_combine; [exact Hlock| |].
      * by rewrite orb_comm.
      * by rewrite andb_comm.
  - unfold slots_ok in *. cbn [game th_main th_input th_artilheiro th_naves th_foguetes].
    destruct Hsl as (? & ? & ? & ? & ? & ? & ? & ?).
    destruct Hlen as (? & ? & ?); [done|].
    split_and!; try done; auto.
  - unfold tasks_ok, live_naves in *.
    cbn [game th_main th_naves]. by rewrite Hnum.
  - unfold ending_ok in *. cbn [game th_main].
    destruct Hend as (H1 & H2 & H3). split_and!.
    + intros Hp. by eapply rule_end_steady; [|apply H1].
    + intros Hp. by eapply steady_over; [|apply H2].
    + intros Hp. specialize (H3 Hp). unfold loops_done in H3.
      destruct (th_input w), (th_artilheiro w); try done.
Qed.

Lemma Forall_spawn_foguete sp (l : list (nat * FoguetePc)) :
  (∀ f, sp = Some f → (f < Z.to_nat MAX_FOGUETES)%nat) →
  Forall (λ t, (t.1 < Z.to_nat MAX_FOGUETES)%nat) l →
  Forall (λ t, (t.1 < Z.to_nat MAX_FOGUETES)%nat) (spawn_foguete sp l).
Proof.
  intros Hsp Hl. destruct sp as [f|]; [|done]. cbn [spawn_foguete].
  apply Forall_app. split; [done|]. apply Forall_singleton. by apply Hsp.
Qed.

Lemma Forall_spawn_nave sp (l : list (nat * NavePc)) :
  (∀ f, sp = Some f → (f < Z.to_nat MAX_NAVES)%nat) →
  Forall (λ t, (t.1 < Z.to_nat MAX_NAVES)%nat) l →
  Forall (λ t, (t.1 < Z.to_nat MAX_NAVES)%nat) (spawn_nave sp l).
Proof.
  intros Hsp Hl. destruct sp as [f|]; [|done]. cbn [spawn_nave].
  apply Forall_app. split; [done|]. apply Forall_singleton. by apply Hsp.
Qed.

Lemma live_naves_spawn sp (l : list (nat * NavePc)) :
  Z.of_nat (sum_list_with live_nave (spawn_nave sp l))
  = Z.of_nat (sum_list_with live_nave l) + spawned_one sp.
Proof.
  destruct sp as [f|]; cbn [spawn_nave spawned_one]; [|lia].
  rewrite sum_list_with_app. cbn. lia.
Qed.

Lemma input_step_coherent o w w' e :
  coherent w → step_thread o TInput w = Some (w', e) → coherent w'.
Proof.
  intros (Hsc & Hscr & Hpub & Htot & Hlk & Hsl & Htk & Hend) H.
  cbn [step_thread] in H.
  destruct (thread_input_step o _ (game w) _)
    as [[[[g1 pc1] sp1] e1]|] eqn:Hs; [|done].
  cbn [mbind option_bind] in H. simplify_eq.
  pose proof (thread_input_step_keep _ _ _ _ _ _ _ _ Hs)
    as (Hst & Hsc' & Hmn & Hw & Hh & Hnum & Hlock & Hlockf & Hslot & Hsp).
  pose proof (slots_same _ _ w Hst) as (Hlen & Hc & Hf & Ha).
  unfold coherent. split_and!.
  - by apply Hsc'.
  - by eapply screen_ok_same.
  - done.
  - cbn [game]. by rewrite (steady_total _ _ Hst).
  - unfold locks_ok in *. cbn [game th_main th_input th_artilheiro].
    destruct Hlk as (Hn & Hfo & Hl & Hx).
    rewrite Hmn. split_and!; [done| | |].
    + by eapply lock_single.
    + by eapply lock_combine.
    + by eapply lock_combine.
  - unfold slots_ok in *. cbn [game th_main th_input th_artilheiro th_naves th_foguetes].
    destruct Hsl as (? & ? & ? & ? & ? & ? & ? & ?).
    destruct Hlen as (? & Hlf & ?); [done|].
    split_and!; try done; auto.
    apply Forall_spawn_foguete; [|done]. intros f Hf'. rewrite <- Hlf. by eapply Hsp.
  - unfold tasks_ok, live_naves in *.
    cbn [game th_main th_naves]. by rewrite Hnum.
  - unfold ending_ok in *. cbn [game th_main].
    destruct Hend as (H1 & H2 & H3). split_and!.
    + intros Hp. by eapply rule_end_steady; [|apply H1].
    + intros Hp. by eapply steady_over; [|apply H2].
    + intros Hp. specialize (H3 Hp). unfold loops_done in H3.
      destruct (th_input w), (th_artilheiro w); try done.
Qed.

Lemma main_step_coherent o w w' e :
  coherent w → step_thread o TMain w = Some (w', e) → coherent w'.
Proof.
  intros (Hsc & Hscr & Hpub & Htot & Hlk & Hsl & Htk & Hend) H.
  cbn [step_thread] in H. unfold main_step in H.
  destruct (th_main w) as [pc|pc|] eqn:Hm; [| |done];
    unfold locks_ok, slots_ok, tasks_ok, ending_ok in Hlk, Hsl, Htk, Hend;
    rewrite Hm in Hlk, Hsl, Htk, Hend.
  - assert (pc = P_ret ∨ pc ≠ P_ret) as [->|Hne]
      by (destruct pc; (by left) || (by right)).
    { simplify_eq. unfold coherent, locks_ok, slots_ok, tasks_ok, ending_ok,
        live_naves, loops_done in *.
      rewrite ?Hm in *.
      cbn [game th_main th_input th_artilheiro th_naves th_foguetes
           holds_naves criar_slot_ok counted_ahead publish_big main_past_loop
           main_joined] in *.
      destruct_and!. split_and!; try done; auto. }
    assert (thread_principal_step o (length (th_naves w)) (game w) pc
            ≫= (λ '(g1, pc1, sp, e),
                  Some (Build_World g1 (M_principal pc1) (th_input w)
                          (th_artilheiro w) (spawn_nave sp (th_naves w))
                          (th_foguetes w), e))
            = Some (w', e)) as H' by (by destruct pc).
    clear H.
    destruct (thread_principal_step o _ (game w) pc)
      as [[[[g1 pc1] sp1] e1]|] eqn:Hs; [|done].
    cbn [mbind option_bind] in H'. simplify_eq.
    pose proof (thread_principal_step_keep _ _ _ _ _ _ _ _ Hs)
      as (Hst & Hsc' & Hmf & Hml & Hlock & Hslot & Hnum & Hcap & Hpb & Hover
          & Hret).
    pose proof (slots_same _ _ w Hst) as (Hlen & Hc & Hf & Ha).
    unfold coherent. split_and!.
    + by apply Hsc'.
    + by apply Hpb.
    + by apply Hpb.
    + cbn [game]. by rewrite (steady_total _ _ Hst).
    + unfold locks_ok in *. cbn [game th_main th_input th_artilheiro].
      destruct Hlk as (Hn & Hfo & Hl & Hx).
      rewrite Hmf, Hml. split_and!; try done.
      eapply lock_single; [exact Hlock|done].
    + unfold slots_ok in *.
      cbn [game th_main th_input th_artilheiro th_naves th_foguetes].
      destruct Hsl as (? & ? & ? & ? & ? & Hcs & ? & ?).
      destruct Hlen as (Hln & ? & ?); [done|].
      destruct (Hslot Hcs) as [Hcs' Hsp].
      split_and!; try done; auto.
      apply Forall_spawn_nave; [|done]. intros f Hf'. rewrite <- Hln. by eapply Hsp.
    + unfold tasks_ok, live_naves in *. cbn [game th_main th_naves].
      rewrite live_naves_spawn. split; [lia|]. apply Hcap. lia.
    + unfold ending_ok in *. cbn [game th_main]. split_and!.
      * intros [= ->]. by apply Hover.
      * intros Hp. destruct pc1; try done. by apply Hret.
      * done.
  - assert (pc = Z_ret ∨ pc ≠ Z_ret) as [->|Hne]
      by (destruct pc; (by left) || (by right)).
    { simplify_eq. unfold coherent, locks_ok, slots_ok, tasks_ok, ending_ok,
        live_naves, loops_done in *.
      rewrite ?Hm in *.
      cbn [game th_main th_input th_artilheiro th_naves th_foguetes
           holds_naves criar_slot_ok counted_ahead publish_big main_past_loop
           main_joined] in *.
      destruct_and!. split_and!; try done. }
    assert (finalizar_threads_step (nave_done w) (foguete_done w)
              (loops_done w) (game w) pc
            ≫= (λ '(g1, pc1),
                  Some (Build_World g1 (M_final pc1) (th_input w)
                          (th_artilheiro w) (th_naves w) (th_foguetes w), Tau))
            = Some (w', e)) as H' by (by destruct pc).
    clear H.
    destruct (finalizar_threads_step _ _ _ (game w) pc)
      as [[g1 pc1]|] eqn:Hs; [|done].
    cbn [mbind option_bind] in H'. simplify_eq.
    pose proof (finalizar_threads_step_keep _ _ _ _ _ _ _ Hs)
      as (Hst & Hsc' & (Hmn & Hmf & Hml & Hw & Hh) & Hnum & Hover & Hjoin).
    pose proof (slots_same _ _ w Hst) as (Hlen & Hc & Hf & Ha).
    unfold coherent. split_and!.
    + by apply Hsc'.
    + by eapply screen_ok_same.
    + done.
    + cbn [game]. by rewrite (steady_total _ _ Hst).
    + unfold locks_ok in *. cbn [game th_main th_input th_artilheiro].
      by rewrite Hmn, Hmf, Hml.
    + unfold slots_ok in *.
      cbn [game th_main th_input th_artilheiro th_naves th_foguetes].
      destruct Hsl as (? & ? & ? & ? & ? & ? & ? & ?).
      destruct Hlen as (? & ? & ?); [done|].
      split_and!; try done; auto.
    + unfold tasks_ok, live_naves in *. cbn [game th_main th_naves].
      by rewrite Hnum.
    + unfold ending_ok in *. cbn [game th_main].
      destruct Hend as (H1 & H2 & H3). split_and!.
      * done.
      * intros _. by eapply steady_over; [|apply H2].
      * intros Hp. destruct pc1; try done.
        rewrite <- (Hjoin eq_refl). by apply loops_done_eq.
Qed.

Lemma step_thread_coherent o t w w' e :
  coherent w → step_thread o t w = Some (w', e) → coherent w'.
Proof.
  destruct t.
  - apply main_step_coherent.
  - apply input_step_coherent.
  - apply artilheiro_step_coherent.
  - apply nave_step_coherent.
  - apply foguete_step_coherent.
Qed.

Lemma exec_coherent w tr w' : exec w tr w' → coherent w → coherent w'.
Proof.
  induction 1 as [w|w tr w1 l w2 Hex IH Hstep]; [done|].
  intros Hw. destruct Hstep as [o t w1 w2 e Hstep].
  eapply step_thread_coherent; [by apply IH|done].
Qed.

Lemma reachable_coherent w : reachable w → coherent w.
Proof.
  intros (d & now & tr & Hex). eapply exec_coherent; [done|].
  apply coherent_init.
Qed.

(** ** Runs, composed *)

Lemma exec_trans w tr w1 tr' w2 :
  exec w tr w1 → exec w1 tr' w2 → exec w (tr ++ tr') w2.
Proof.
  intros H1 H2. induction H2 as [w1|w1 tr' w2 l w3 Hex IH Hstep].
  - by rewrite app_nil_r.
  - rewrite app_assoc. eapply exec_snoc; [by apply IH|done].
Qed.

Lemma reachable_exec w tr w' : reachable w → exec w tr w' → reachable w'.
Proof.
  intros (d & now & tr0 & H0) H. exists d, now, (tr0 ++ tr).
  by eapply exec_trans.
Qed.

Lemma world_easy_16_reachable : reachable world_easy_16.
Proof. exists 0, 0, trace_easy_16. apply trace_easy_16_exec. Qed.

Lemma world_easy_over_reachable : reachable world_easy_over.
Proof.
  eapply (reachable_exec _ trace_easy_over); [apply world_easy_16_reachable|].
  apply (run_trace_exec (by_thread TMain 1)). by vm_compute.
Qed.

Lemma trace_easy_exit_exec : exec world_easy_over trace_easy_exit world_easy_exit.
Proof. apply (run_trace_exec sched_easy_exit). by vm_compute. Qed.

Lemma world_easy_exit_reachable : reachable world_easy_exit.
Proof.
  eapply reachable_exec; [apply world_easy_over_reachable|].
  apply trace_easy_exit_exec.
Qed.

Lemma world_detected_reachable : reachable world_detected.
Proof.
  exists 0, 0, trace_detect. apply (run_trace_exec sched_detect). by vm_compute.
Qed.

Lemma world_stale_gate_reachable : reachable world_stale_gate.
Proof.
  eapply (reachable_exec _ trace_stale_gate); [apply world_detected_reachable|].
  apply (run_trace_exec sched_stale_gate). by vm_compute.
Qed.

(** ** The score counters *)

(** X11. In every state of every run, the score is ten times [naves_destruidas],
    [shots_hit] equals [naves_destruidas], and
    [0 <= current_streak <= best_streak <= naves_destruidas]. *)
Theorem score_counters_consistent (w : World) :
  reachable w →
  pontuacao (game w) = 10 * naves_destruidas (game w)
  ∧ shots_hit (game w) = naves_destruidas (game w)
  ∧ 0 <= current_streak (game w) <= best_streak (game w)
  ∧ best_streak (game w) <= naves_destruidas (game w)
  ∧ 0 <= naves_chegaram (game w).
Proof. intros Hw. by destruct (reachable_coherent w Hw) as (? & _). Qed.

Lemma score_counters_consistent_witness :
  score_counters (game world_stale_gate) = (20, 2, 0, 2, 2, 2)
  ∧ pontuacao (game world_stale_gate) = 10 * naves_destruidas (game world_stale_gate).
Proof.
  split; [by vm_compute|].
  apply (score_counters_consistent world_stale_gate).
  apply world_stale_gate_reachable.
Defined.

(** ** The mutexes *)

(** X12. Between the steps of any run, [mutex_naves] is held exactly while
    [criar_nave] is between its scan and its write of the slot,
    [mutex_foguetes] exactly while [tentar_disparar] is between its scan of
    the slots and its unlock, and [mutex_lancadores] exactly while
    [tentar_disparar] or the reloader is between its scan of the bays and
    its unlock, never both; [mutex_foguetes] is only held together with
    [mutex_lancadores]. *)
Theorem mutexes_have_one_holder (w : World) :
  reachable w →
  mutex_naves (game w) = holds_naves (th_main w)
  ∧ mutex_foguetes (game w) = input_holds_foguetes (th_input w)
  ∧ mutex_lancadores (game w)
    = input_holds_lancadores (th_input w) || art_holds_lancadores (th_artilheiro w)
  ∧ input_holds_lancadores (th_input w) && art_holds_lancadores (th_artilheiro w)
    = false
  ∧ (mutex_foguetes (game w) = true → mutex_lancadores (game w) = true).
Proof.
  intros Hw.
  destruct (reachable_coherent w Hw) as (_ & _ & _ & _ & Hl & _).
  destruct Hl as (Hn & Hf & Hl & Hx). split_and!; try done.
  rewrite Hf, Hl. destruct (th_input w) as [| | |[]|]; done.
Qed.

Lemma world_loaded_reachable : reachable world_loaded.
Proof.
  exists 0, 0, (default [] (fst <$> run_trace (by_thread TArtilheiro 4)
                                       (init_world 0 0))).
  apply (run_trace_exec (by_thread TArtilheiro 4)). by vm_compute.
Qed.

Lemma world_firing_reachable : reachable world_firing.
Proof.
  eapply (reachable_exec _ trace_firing); [apply world_loaded_reachable|].
  apply (run_trace_exec (by_thread TInput 5)). by vm_compute.
Qed.

Lemma mutexes_have_one_holder_witness :
  th_input world_firing = I_fire (T_slot 0 0)
  ∧ mutex_lancadores (game world_firing) = true
  ∧ mutex_foguetes (game world_firing)
    = input_holds_foguetes (th_input world_firing).
Proof.
  do 2 (split; [by vm_compute|]).
  destruct (mutexes_have_one_holder world_firing world_firing_reachable)
    as (_ & H & _).
  exact H.
Defined.

(** ** The ship tasks *)

(** X13. In every state of every run, the ship tasks that have not returned are
    at most [num_naves_ativas], which is at most [MAX_NAVES]; and every ship
    and rocket task works on a slot inside its array. *)
Theorem ship_tasks_bounded (w : World) :
  reachable w →
  Z.of_nat (live_naves w) <= num_naves_ativas (game w) <= MAX_NAVES
  ∧ length (naves (game w)) = Z.to_nat MAX_NAVES
  ∧ Forall (λ t, (t.1 < length (naves (game w)))%nat) (th_naves w)
  ∧ Forall (λ t, (t.1 < length (foguetes (game w)))%nat) (th_foguetes w).
Proof.
  intros Hw.
  destruct (reachable_coherent w Hw) as (_ & _ & _ & _ & _ & Hs & Ht & _).
  destruct Ht as [H1 H2].
  destruct Hs as (Hn & Hf & _ & Hfn & Hff & _).
  assert (0 <= counted_ahead (th_main w))
    by (destruct (th_main w) as [[| | | |? []| |]| |]; simpl; lia).
  assert (0 <= Z.b2z (holds_naves (th_main w)))
    by (destruct (holds_naves (th_main w)); simpl; lia).
  rewrite Hn, Hf. split_and!; try done; lia.
Qed.

Lemma ship_tasks_bounded_witness :
  live_naves world_detected = 1%nat
  ∧ Z.of_nat (live_naves world_detected)
    <= num_naves_ativas (game world_detected) <= MAX_NAVES.
Proof.
  split; [by vm_compute|].
  destruct (ship_tasks_bounded world_detected world_detected_reachable)
    as (H & _).
  exact H.
Defined.

(** ** The end of [main] *)

(** X14. In a run in which [main] has started the input task and the
    reloader (lines 40-47 did not return), [main] gets past
    [finalizar_threads] (line 50) only with [game_over] set and with the
    input task and the reloader returned. *)
Theorem main_exit_after_loops (w : World) :
  reachable w →
  th_main w = M_exit →
  game_over (game w) = true
  ∧ th_input w = I_done
  ∧ th_artilheiro w = A_done.
Proof.
  intros Hw Hm.
  destruct (reachable_coherent w Hw) as (_ & _ & _ & _ & _ & _ & _ & He).
  destruct He as (_ & H2 & H3). rewrite Hm in H2, H3.
  specialize (H2 eq_refl). specialize (H3 eq_refl).
  unfold loops_done in H3.
  destruct (th_input w), (th_artilheiro w); done.
Qed.

Lemma main_exit_after_loops_witness :
  game_over (game world_easy_exit) = true
  ∧ th_input world_easy_exit = I_done
  ∧ th_artilheiro world_easy_exit = A_done.
Proof.
  apply (main_exit_after_loops world_easy_exit).
  - apply world_easy_exit_reachable.
  - by vm_compute.
Defined.

(** ** Counters along a run *)

Lemma steady_refl g : steady g g.
Proof. unfold steady. split_and!; done || lia. Qed.

Lemma steady_trans g1 g2 g3 : steady g1 g2 → steady g2 g3 → steady g1 g3.
Proof.
  unfold steady. intros ? ?. destruct_and!.
  split_and!; try congruence; try lia; auto.
Qed.

Lemma step_thread_steady o t w w' e :
  step_thread o t w = Some (w', e) → steady (game w) (game w').
Proof.
  intros H. destruct t as [| | |t|t]; cbn [step_thread] in H.
  - unfold main_step in H.
    destruct (th_main w) as [pc|pc|]; [| |done].
    + assert (pc = P_ret ∨ pc ≠ P_ret) as [->|Hne]
        by (destruct pc; (by left) || (by right)).
      { simplify_eq. apply steady_refl. }
      assert (thread_principal_step o (length (th_naves w)) (game w) pc
              ≫= (λ '(g1, pc1, sp, e),
                    Some (Build_World g1 (M_principal pc1) (th_input w)
                            (th_artilheiro w) (spawn_nave sp (th_naves w))
                            (th_foguetes w), e))
              = Some (w', e)) as H' by (by destruct pc).
      destruct (thread_principal_step o _ (game w) pc)
        as [[[[g1 pc1] sp1] e1]|] eqn:Hs; [|done].
      cbn [mbind option_bind] in H'. simplify_eq.
      by destruct (thread_principal_step_keep _ _ _ _ _ _ _ _ Hs) as (? & _).
    + assert (pc = Z_ret ∨ pc ≠ Z_ret) as [->|Hne]
        by (destruct pc; (by left) || (by right)).
      { simplify_eq. apply steady_refl. }
      assert (finalizar_threads_step (nave_done w) (foguete_done w)
                (loops_done w) (game w) pc
              ≫= (λ '(g1, pc1),
                    Some (Build_World g1 (M_final pc1) (th_input w)
                            (th_artilheiro w) (th_naves w) (th_foguetes w), Tau))
              = Some (w', e)) as H' by (by destruct pc).
      destruct (finalizar_threads_step _ _ _ (game w) pc)
        as [[g1 pc1]|] eqn:Hs; [|done].
      cbn [mbind option_bind] in H'. simplify_eq.
      by destruct (finalizar_threads_step_keep _ _ _ _ _ _ _ Hs) as (? & _).
  - destruct (thread_input_step o _ (game w) _)
      as [[[[g1 pc1] sp1] e1]|] eqn:Hs; [|done].
    cbn [mbind option_bind] in H. simplify_eq.
    by destruct (thread_input_step_keep _ _ _ _ _ _ _ _ Hs) as (? & _).
  - destruct (thread_artilheiro_step (game w) _) as [[g1 pc1]|] eqn:Hs; [|done].
    cbn [mbind option_bind] in H. simplify_eq.
    by destruct (thread_artilheiro_step_keep _ _ _ _ Hs) as (? & _).
  - destruct (th_naves w !! t) as [[k pc]|] eqn:Ht; [|done].
    cbn [mbind option_bind] in H.
    destruct (thread_nave_step k (game w) pc) as [[[g1 pc1] e1]|] eqn:Hs; [|done].
    cbn [mbind option_bind] in H. simplify_eq.
    by destruct (thread_nave_step_keep _ _ _ _ _ _ Hs) as (? & _).
  - destruct (th_foguetes w !! t) as [[k pc]|] eqn:Ht; [|done].
    cbn [mbind option_bind] in H.
    destruct (thread_foguete_step k (game w) pc) as [[[g1 pc1] e1]|] eqn:Hs; [|done].
    cbn [mbind option_bind] in H. simplify_eq.
    by destruct (thread_foguete_step_keep _ _ _ _ _ _ Hs) as (? & _).
Qed.

Lemma exec_steady w tr w' : exec w tr w' → steady (game w) (game w').
Proof.
  induction 1 as [w|w tr w1 l w2 Hex IH Hstep]; [apply steady_refl|].
  destruct Hstep as [o t w1 w2 e Hstep].
  eapply steady_trans; [done|]. by eapply step_thread_steady.
Qed.

(** X15. Along any run, the score, the ships destroyed, landed and spawned, the
    shots fired and hit and the best streak never go down, and the
    difficulty, its configuration, the ship total, the number of launchers,
    the reload time, the heights of the two bands and the start time never
    change. *)
Theorem counters_never_decrease (w : World) (tr : list (Tid * Event))
    (w' : World) :
  exec w tr w' →
  pontuacao (game w) <= pontuacao (game w')
  ∧ naves_destruidas (game w) <= naves_destruidas (game w')
  ∧ naves_chegaram (game w) <= naves_chegaram (game w')
  ∧ naves_spawned (game w) <= naves_spawned (game w')
  ∧ shots_fired (game w) <= shots_fired (game w')
  ∧ shots_hit (game w) <= shots_hit (game w')
  ∧ best_streak (game w) <= best_streak (game w')
  ∧ cfg (game w') = cfg (game w)
  ∧ dificuldade (game w') = dificuldade (game w)
  ∧ naves_total (game w') = naves_total (game w)
  ∧ num_lancadores (game w') = num_lancadores (game w)
  ∧ tempo_recarga (game w') = tempo_recarga (game w)
  ∧ hud_height (game w') = hud_height (game w)
  ∧ controls_height (game w') = controls_height (game w)
  ∧ start_time (game w') = start_time (game w).
Proof.
  intros Hex. pose proof (exec_steady _ _ _ Hex) as H. unfold steady in H.
  destruct_and!. split_and!; done.
Qed.

Lemma counters_never_decrease_witness :
  pontuacao (game world_detected) = 0
  ∧ pontuacao (game world_stale_gate) = 20
  ∧ pontuacao (game world_detected) <= pontuacao (game world_stale_gate).
Proof.
  do 2 (split; [by vm_compute|]).
  destruct (counters_never_decrease world_detected trace_stale_gate
              world_stale_gate) as (H & _); [|exact H].
  apply (run_trace_exec sched_stale_gate). by vm_compute.
Defined.

(** ** The verdict *)




(** ** The ships that remain *)

Lemma handled_le_total (w : World) :
  reachable w →
  naves_destruidas (game w) + naves_chegaram (game w) <= naves_total (game w)
  ∧ 0 <= naves_spawned (game w) <= naves_total (game w).
Proof.
  intros (d & now & tr & Hex).
  destruct (exec_acc all_slots _ _ _ Hex)
    as (Hsc & Hfl & Hh & Ht & _ & Hsp & Hres & _).
  rewrite init_world_alive in Hfl.
  pose proof (game_init_total d now) as Htot.
  pose proof (uncounted_le_reserved (th_main w)) as Hps.
  pose proof (exec_steady _ _ _ Hex) as Hst. unfold steady in Hst.
  unfold handled in Hh. cbn [init_world game th_main uncounted reserved] in *.
  change (pending all_slots (init_world d now)) with 0%nat in Hsc.
  assert (naves_spawned (game_init d now) = 0) as Hs0 by reflexivity.
  assert (naves_destruidas (game_init d now) = 0) as Hd0 by reflexivity.
  assert (naves_chegaram (game_init d now) = 0) as Hc0 by reflexivity.
  lia.
Qed.

(** X17. In every state of every run, the number of remaining ships on the HUD is
    [naves_total - naves_destruidas - naves_chegaram], between 0 and
    [naves_total]: the clamp at 0 is never used. *)
Theorem hud_remaining_exact (w : World) :
  reachable w →
  hud_remaining (naves_total (game w)) (naves_destruidas (game w))
    (naves_chegaram (game w))
  = naves_total (game w) - naves_destruidas (game w) - naves_chegaram (game w)
  ∧ 0 <= hud_remaining (naves_total (game w)) (naves_destruidas (game w))
           (naves_chegaram (game w))
      <= naves_total (game w).
Proof.
  intros Hw. destruct (handled_le_total w Hw) as [Hh _].
  destruct (reachable_coherent w Hw) as (Hsc & _). unfold score_rel in Hsc.
  unfold hud_remaining. cbv zeta.
  destruct (Z.ltb_spec (naves_total (game w)
                        - (naves_destruidas (game w) + naves_chegaram (game w))) 0);
    lia.
Qed.

Lemma hud_remaining_exact_witness :
  hud_remaining (naves_total (game world_easy_16))
    (naves_destruidas (game world_easy_16)) (naves_chegaram (game world_easy_16))
  = 14
  ∧ hud_remaining (naves_total (game world_easy_16))
      (naves_destruidas (game world_easy_16))
      (naves_chegaram (game world_easy_16))
    = naves_total (game world_easy_16) - naves_destruidas (game world_easy_16)
      - naves_chegaram (game world_easy_16).
Proof.
  split; [by vm_compute|].
  destruct (hud_remaining_exact world_easy_16 world_easy_16_reachable)
    as (H & _).
  exact H.
Defined.

(** ** No deadlock on the mutexes *)

Ltac enabled_cases :=
  repeat first
    [ done
    | by eexists
    | progress cbn [mbind option_bind]
    | match goal with
      | |- context [if ?c then _ else _] => destruct c eqn:?
      end
    | case_match ].

Lemma free_enabled o t w :
  coherent w → mutexes_free (game w) →
  is_Some (next_spawn_ms (cfg (game w)) (o_rand o)) →
  can_run w t →
  is_Some (step_thread o t w).
Proof.
  intros (_ & _ & _ & _ & _ & Hsl & _ & _) (Hn & Hf & Hl) [ms Hms] Hrun.
  destruct Hsl as (Hln & Hlf & Hll & Hfn & Hff & Hcs & Hfs & Has).
  destruct t as [| | |t|t]; cbn [step_thread can_run] in *.
  - unfold main_step. destruct (th_main w) as [pc|pc|]; [| |done].
    + destruct pc as [|wt|wt| |wt c|wt r|];
        cbn [thread_principal_step]; rewrite ?Hms; try (by enabled_cases).
      * destruct c; cbn [criar_nave_step]; rewrite ?Hn, ?Hms; by enabled_cases.
      * destruct r; cbn [render_game_step]; rewrite ?Hn, ?Hf, ?Hl;
          by enabled_cases.
    + destruct pc; try done; cbn [finalizar_threads_step];
        rewrite ?Hn, ?Hf, ?Hl; by enabled_cases.
  - destruct (th_input w) as [| |ch|pc|]; try done;
      cbn [thread_input_step]; try (by enabled_cases).
    destruct pc; cbn [tentar_disparar_step]; rewrite ?Hf, ?Hl;
      by enabled_cases.
  - destruct Hrun as [Hd Hwt].
    destruct (th_artilheiro w) as [| |i|i d u| |]; try done;
      cbn [thread_artilheiro_step]; rewrite ?Hl; try (by enabled_cases).
    cbn [art_slot_ok] in Has.
    destruct (lookup_lt_is_Some_2 _ _ Has) as [x ->]. by enabled_cases.
  - destruct Hrun as (k & pc & Ht & Hpc). rewrite Ht. cbn [mbind option_bind].
    assert (is_Some (naves (game w) !! k)) as [x Hx].
    { apply lookup_lt_is_Some_2. rewrite Hln.
      by apply (Forall_lookup_1 _ _ _ _ Hfn Ht). }
    destruct pc; try done; cbn [thread_nave_step]; rewrite ?Hn, ?Hf, ?Hx;
      cbn [mbind option_bind]; by enabled_cases.
  - destruct Hrun as (k & pc & Ht & Hpc). rewrite Ht. cbn [mbind option_bind].
    assert (is_Some (foguetes (game w) !! k)) as [x Hx].
    { apply lookup_lt_is_Some_2. rewrite Hlf.
      by apply (Forall_lookup_1 _ _ _ _ Hff Ht). }
    destruct pc; try done; cbn [thread_foguete_step]; rewrite ?Hn, ?Hf, ?Hx;
      cbn [mbind option_bind]; by enabled_cases.
Qed.

Lemma reachable_spawn_ms o w :
  reachable w → is_Some (next_spawn_ms (cfg (game w)) (o_rand o)).
Proof.
  intros (d & now & tr & Hex).
  pose proof (exec_steady _ _ _ Hex) as (Hcfg & _).
  cbn [init_world game] in Hcfg. rewrite Hcfg.
  destruct (next_spawn_ms_init d now (o_rand o)) as (ms & -> & _). by eexists.
Qed.

Lemma run_holders_app s1 s2 w w1 w2 :
  run_holders s1 w = Some w1 →
  run_holders s2 w1 = Some w2 →
  run_holders (s1 ++ s2) w = Some w2.
Proof.
  revert w. induction s1 as [|[o t] s1 IH]; intros w H1 H2.
  - cbn in H1. by simplify_eq.
  - cbn [run_holders app] in *.
    destruct (holder w t); [|done].
    destruct (step_thread o t w) as [[w0 e]|]; [|done].
    cbn [mbind option_bind] in *. by apply IH.
Qed.

Lemma run_holders_one o t w w' e :
  holder w t = true →
  step_thread o t w = Some (w', e) →
  run_holders [(o, t)] w = Some w'.
Proof. intros Hh H. cbn [run_holders]. by rewrite Hh, H. Qed.

Lemma run_holders_trace sched w w' :
  run_holders sched w = Some w' → ∃ tr, run_trace sched w = Some (tr, w').
Proof.
  revert w. induction sched as [|[o t] sched IH]; intros w H.
  - cbn in H. simplify_eq. by exists [].
  - cbn [run_holders run_trace] in *.
    destruct (holder w t); [|done].
    destruct (step_thread o t w) as [[w0 e]|]; [|done].
    cbn [mbind option_bind] in *.
    destruct (IH _ H) as (tr & ->). by eexists.
Qed.

Lemma run_holders_reachable sched w w' :
  reachable w → run_holders sched w = Some w' → reachable w'.
Proof.
  intros Hw H. destruct (run_holders_trace _ _ _ H) as (tr & Htr).
  eapply reachable_exec; [done|by eapply run_trace_exec].
Qed.

Lemma main_releases o w :
  holds_naves (th_main w) = true →
  ∃ w', run_holders [(o, TMain)] w = Some w'
        ∧ holds_naves (th_main w') = false
        ∧ holds_render (th_main w') = false
        ∧ th_input w' = th_input w
        ∧ th_artilheiro w' = th_artilheiro w.
Proof.
  intros H. destruct (th_main w) as [[| | | |wt []| |]| |] eqn:Hm; try done.
  eexists. split.
  - eapply run_holders_one; [by cbn [holder]; rewrite Hm|].
    cbn [step_thread]. unfold main_step. rewrite Hm.
    cbn [thread_principal_step criar_nave_step mbind option_bind]. reflexivity.
  - done.
Qed.

Lemma art_releases o w :
  art_holds_lancadores (th_artilheiro w) = true →
  ∃ w', run_holders [(o, TArtilheiro)] w = Some w'
        ∧ art_holds_lancadores (th_artilheiro w') = false
        ∧ th_main w' = th_main w
        ∧ th_input w' = th_input w.
Proof.
  intros H. destruct (th_artilheiro w) eqn:Ha; try done.
  eexists. split.
  - eapply run_holders_one; [by cbn [holder]; rewrite Ha|].
    cbn [step_thread]. rewrite Ha.
    cbn [thread_artilheiro_step mbind option_bind]. reflexivity.
  - done.
Qed.

Lemma input_count_releases o w l f :
  th_input w = I_fire (T_count l f) →
  ∃ w', run_holders [(o, TInput)] w = Some w'
        ∧ input_holds_lancadores (th_input w') = false
        ∧ th_main w' = th_main w
        ∧ th_artilheiro w' = th_artilheiro w.
Proof.
  intros Hi.
  assert (∃ w' e, step_thread o TInput w = Some (w', e)
                  ∧ input_holds_lancadores (th_input w') = false
                  ∧ th_main w' = th_main w
                  ∧ th_artilheiro w' = th_artilheiro w)
    as (w' & e & Hs & ?).
  { cbn [step_thread]. rewrite Hi.
    cbn [thread_input_step tentar_disparar_step].
    destruct (negb (o_malloc_ok o)); [|destruct (o_create_ok o)];
      cbn [mbind option_bind]; by eexists _, _. }
  exists w'. split; [|done].
  eapply run_holders_one; [by cbn [holder]; rewrite Hi|done].
Qed.

Lemma input_slot_steps o w l f :
  th_input w = I_fire (T_slot l f) →
  ∃ w', run_holders [(o, TInput)] w = Some w'
        ∧ th_input w' = I_fire (T_count l f)
        ∧ th_main w' = th_main w
        ∧ th_artilheiro w' = th_artilheiro w.
Proof.
  intros Hi. eexists. split.
  - eapply run_holders_one; [by cbn [holder]; rewrite Hi|].
    cbn [step_thread]. rewrite Hi.
    cbn [thread_input_step tentar_disparar_step mbind option_bind].
    reflexivity.
  - done.
Qed.

Lemma input_bay_steps o w l :
  th_input w = I_fire (T_bay l) →
  mutex_foguetes (game w) = false →
  ∃ w', run_holders [(o, TInput)] w = Some w'
        ∧ (input_holds_lancadores (th_input w') = false
           ∨ ∃ f, th_input w' = I_fire (T_slot l f))
        ∧ th_main w' = th_main w
        ∧ th_artilheiro w' = th_artilheiro w.
Proof.
  intros Hi Hf.
  assert (∃ w' e, step_thread o TInput w = Some (w', e)
                  ∧ (input_holds_lancadores (th_input w') = false
                     ∨ ∃ f, th_input w' = I_fire (T_slot l f))
                  ∧ th_main w' = th_main w
                  ∧ th_artilheiro w' = th_artilheiro w)
    as (w' & e & Hs & ?).
  { cbn [step_thread]. rewrite Hi.
    cbn [thread_input_step tentar_disparar_step]. rewrite Hf.
    destruct (find_first _ _) as [f|]; cbn [mbind option_bind];
      eexists _, _; (split; [reflexivity|]);
      cbn [th_input th_main th_artilheiro]; split_and!; eauto. }
  exists w'. split; [|done].
  eapply run_holders_one; [by cbn [holder]; rewrite Hi|done].
Qed.

Lemma input_releases (o : Oracle) (w : World) :
  coherent w →
  input_holds_lancadores (th_input w) = true →
  ∃ sched w', (length sched ≤ 3)%nat
              ∧ run_holders sched w = Some w'
              ∧ input_holds_lancadores (th_input w') = false
              ∧ th_main w' = th_main w
              ∧ th_artilheiro w' = th_artilheiro w.
Proof.
  intros Hc H.
  assert (∀ w l f, th_input w = I_fire (T_slot l f) →
            ∃ w', run_holders [(o, TInput); (o, TInput)] w = Some w'
                  ∧ input_holds_lancadores (th_input w') = false
                  ∧ th_main w' = th_main w
                  ∧ th_artilheiro w' = th_artilheiro w) as Hslot.
  { intros w0 l f Hi.
    destruct (input_slot_steps o w0 l f Hi) as (w1 & Hs & Hi1 & Hm1 & Ha1).
    destruct (input_count_releases o w1 l f Hi1) as (w2 & Hr & ? & Hm2 & Ha2).
    exists w2. split.
    - by apply (run_holders_app [(o, TInput)] [(o, TInput)] w0 w1).
    - split_and!; [done|congruence..]. }
  destruct (th_input w) as [| | |[|l|l f|l f| |]|] eqn:Hi; try done.
  - destruct Hc as (_ & _ & _ & _ & Hl & _).
    destruct Hl as (_ & Hf & _). rewrite Hi in Hf. cbn in Hf.
    destruct (input_bay_steps o w l Hi Hf)
      as (w1 & Hs & [Hfree|[f Hi1]] & Hm1 & Ha1).
    + exists [(o, TInput)], w1. split; [simpl; lia|done].
    + destruct (Hslot w1 l f Hi1) as (w2 & Hr & ? & Hm2 & Ha2).
      exists ([(o, TInput)] ++ [(o, TInput); (o, TInput)]), w2.
      split; [simpl; lia|]. split; [by eapply run_holders_app|].
      split_and!; [done|congruence..].
  - destruct (Hslot w l f Hi) as (w2 & ? & ? & ? & ?).
    exists [(o, TInput); (o, TInput)], w2. split; [simpl; lia|done].
  - destruct (input_count_releases o w l f Hi) as (w2 & ? & ? & ? & ?).
    exists [(o, TInput)], w2. split; [simpl; lia|done].
Qed.

Lemma render_step o w wt r g1 r1 :
  th_main w = M_principal (P_render wt r) →
  holds_render (th_main w) = true →
  render_game_step o (game w) r = Some (g1, r1) →
  run_holders [(o, TMain)] w
  = Some {| game := g1; th_main := M_principal (P_render wt r1);
            th_input := th_input w; th_artilheiro := th_artilheiro w;
            th_naves := th_naves w; th_foguetes := th_foguetes w |}.
Proof.
  intros Hm Hh Hs. cbn [run_holders holder]. rewrite Hh, orb_true_r.
  cbn [step_thread]. unfold main_step. rewrite Hm.
  destruct r; try (by rewrite Hm in Hh);
    cbn [thread_principal_step]; rewrite Hs; reflexivity.
Qed.

Lemma render_releases (o : Oracle) (w : World) :
  holds_render (th_main w) = true →
  mutex_lancadores (game w) = false →
  ∃ sched w', (length sched ≤ 3)%nat
              ∧ run_holders sched w = Some w'
              ∧ holds_render (th_main w') = false
              ∧ holds_naves (th_main w') = false
              ∧ th_input w' = th_input w
              ∧ th_artilheiro w' = th_artilheiro w.
Proof.
  assert (∀ w wt, th_main w = M_principal (P_render wt R_bar) →
            mutex_lancadores (game w) = false →
            ∃ w', run_holders [(o, TMain)] w = Some w'
                  ∧ holds_render (th_main w') = false
                  ∧ holds_naves (th_main w') = false
                  ∧ th_input w' = th_input w
                  ∧ th_artilheiro w' = th_artilheiro w) as Hbar.
  { intros w0 wt Hm Hl. eexists. split.
    - eapply (render_step o w0 wt R_bar); [done|by rewrite Hm|].
      cbn [render_game_step]. rewrite Hl. reflexivity.
    - done. }
  assert (∀ w wt, th_main w = M_principal (P_render wt R_hud) →
            mutex_lancadores (game w) = false →
            ∃ w', run_holders [(o, TMain); (o, TMain)] w = Some w'
                  ∧ holds_render (th_main w') = false
                  ∧ holds_naves (th_main w') = false
                  ∧ th_input w' = th_input w
                  ∧ th_artilheiro w' = th_artilheiro w) as Hhud.
  { intros w0 wt Hm Hl.
    pose proof (render_step o w0 wt R_hud _ _ Hm ltac:(by rewrite Hm)
                  eq_refl) as Hs.
    match type of Hs with
    | _ = Some ?w1 =>
        destruct (Hbar w1 wt eq_refl Hl) as (w2 & Hr & ? & ? & ? & ?)
    end.
    exists w2. split; [|done].
    by apply (run_holders_app [(o, TMain)] [(o, TMain)] w0 _ w2 Hs). }
  intros Hh Hl.
  destruct (th_main w) as [[| | | | |wt []|]| |] eqn:Hm; try done.
  - pose proof (render_step o w wt (R_publish real_w real_h) _ _ Hm
                  ltac:(by rewrite Hm) eq_refl) as Hs.
    match type of Hs with
    | _ = Some ?w1 =>
        destruct (Hhud w1 wt eq_refl) as (w2 & Hr & ? & ? & ? & ?)
    end.
    { cbn [game]. case_match; by gsimpl. }
    exists ([(o, TMain)] ++ [(o, TMain); (o, TMain)]), w2.
    split; [simpl; lia|]. split; [by eapply run_holders_app|done].
  - destruct (Hhud w wt Hm Hl) as (w2 & ? & ? & ? & ? & ?).
    exists [(o, TMain); (o, TMain)], w2. split; [simpl; lia|done].
  - destruct (Hbar w wt Hm Hl) as (w2 & ? & ? & ? & ? & ?).
    exists [(o, TMain)], w2. split; [simpl; lia|done].
Qed.

(** X18. No state of a run is a deadlock on the mutexes.  From every state of
    every run, at most six steps, each taken by a task that holds a mutex
    and so waits for no other task, lead to a state in which [mutex_naves],
    [mutex_foguetes], [mutex_lancadores] and [mutex_render] are all free;
    there, every task can take its next step, except those that have
    returned, the reloader inside [pthread_cond_wait] and the main thread
    inside [pthread_join]. *)
Theorem no_deadlock_on_mutexes (o : Oracle) (w : World) :
  reachable w →
  ∃ sched w',
    (length sched ≤ 6)%nat
    ∧ run_holders sched w = Some w'
    ∧ mutex_naves (game w') = false
    ∧ mutex_foguetes (game w') = false
    ∧ mutex_lancadores (game w') = false
    ∧ holds_render (th_main w') = false
    ∧ ∀ t, can_run w' t → is_Some (step_thread o t w').
Proof.
  intros Hw.
  (* the entity mutexes: the main thread first, then the player or the
     reloader *)
  assert (∃ s1 w1,
            (length s1 ≤ 1)%nat ∧ run_holders s1 w = Some w1
            ∧ holds_naves (th_main w1) = false
            ∧ (length s1 = 1%nat → holds_render (th_main w1) = false))
    as (s1 & w1 & Hn1 & Hr1 & Hh1 & Hx1).
  { destruct (holds_naves (th_main w)) eqn:Hh.
    - destruct (main_releases o w Hh) as (w1 & Hs & ? & ? & _).
      exists [(o, TMain)], w1. split; [simpl; lia|done].
    - exists [], w. split; [simpl; lia|]. done. }
  pose proof (run_holders_reachable _ _ _ Hw Hr1) as Hw1.
  pose proof (reachable_coherent w1 Hw1) as Hc1.
  assert (∃ s2 w2,
            (length s2 ≤ 3)%nat ∧ run_holders s2 w1 = Some w2
            ∧ th_main w2 = th_main w1
            ∧ input_holds_lancadores (th_input w2) = false
            ∧ art_holds_lancadores (th_artilheiro w2) = false)
    as (s2 & w2 & Hn2 & Hr2 & Hm2 & Hi2 & Ha2).
  { destruct (input_holds_lancadores (th_input w1)) eqn:Hi.
    - destruct (input_releases o w1 Hc1 Hi) as (s & w2 & ? & Hr & ? & Hm & Ha).
      exists s, w2. rewrite Ha. split_and!; try done.
      destruct Hc1 as (_ & _ & _ & _ & Hl & _).
      destruct Hl as (_ & _ & _ & Hx). rewrite Hi in Hx. done.
    - destruct (art_holds_lancadores (th_artilheiro w1)) eqn:Ha.
      + destruct (art_releases o w1 Ha) as (w2 & Hs & ? & Hm & Hi').
        exists [(o, TArtilheiro)], w2.
        rewrite Hi'. split; [simpl; lia|done].
      + exists [], w1. split; [simpl; lia|]. done. }
  pose proof (run_holders_reachable _ _ _ Hw1 Hr2) as Hw2.
  pose proof (reachable_coherent w2 Hw2) as Hc2.
  assert (mutex_lancadores (game w2) = false) as Hl2.
  { destruct Hc2 as (_ & _ & _ & _ & Hl & _).
    destruct Hl as (_ & _ & Hl & _). by rewrite Hl, Hi2, Ha2. }
  (* [mutex_render] *)
  assert (∃ s3 w3,
            (length s1 + length s3 ≤ 3)%nat ∧ run_holders s3 w2 = Some w3
            ∧ holds_naves (th_main w3) = false
            ∧ holds_render (th_main w3) = false
            ∧ input_holds_lancadores (th_input w3) = false
            ∧ art_holds_lancadores (th_artilheiro w3) = false)
    as (s3 & w3 & Hn3 & Hr3 & Hh3 & Hx3 & Hi3 & Ha3).
  { destruct (holds_render (th_main w2)) eqn:Hh.
    - destruct (render_releases o w2 Hh Hl2)
        as (s & w3 & ? & Hr & ? & ? & Hi & Ha).
      exists s, w3. rewrite Hi, Ha. split_and!; try done.
      destruct s1 as [|? [|]]; [simpl; lia| |simpl in Hn1; lia].
      rewrite Hm2, Hx1 in Hh by done. done.
    - exists [], w2. rewrite Hm2 in Hh |- *. split_and!; try done. simpl. lia. }
  pose proof (run_holders_reachable _ _ _ Hw2 Hr3) as Hw3.
  pose proof (reachable_coherent w3 Hw3) as Hc3.
  assert (mutexes_free (game w3)) as Hfree.
  { destruct Hc3 as (_ & _ & _ & _ & Hl & _).
    destruct Hl as (Hn & Hf & Hl & _).
    unfold mutexes_free. rewrite Hn, Hf, Hl, Hh3, Hi3, Ha3. split_and!; try done.
    destruct (th_input w3) as [| | |[]|]; done. }
  exists (s1 ++ s2 ++ s3), w3. split_and!.
  - rewrite !length_app. lia.
  - eapply run_holders_app; [done|]. by eapply run_holders_app.
  - apply Hfree.
  - apply Hfree.
  - apply Hfree.
  - done.
  - intros t Ht. apply free_enabled; [done..| |done].
    by apply reachable_spawn_ms.
Qed.

Lemma no_deadlock_on_mutexes_witness :
  reachable world_firing
  ∧ ∃ sched w',
      (length sched ≤ 6)%nat
      ∧ run_holders sched world_firing = Some w'
      ∧ mutex_naves (game w') = false
      ∧ mutex_foguetes (game w') = false
      ∧ mutex_lancadores (game w') = false
      ∧ holds_render (th_main w') = false
      ∧ ∀ t, can_run w' t → is_Some (step_thread oracle_fire t w').
Proof.
  split; [apply world_firing_reachable|].
  apply (no_deadlock_on_mutexes oracle_fire world_firing),
    world_firing_reachable.
Defined.

(** ** The explosion ring *)

Lemma expl_shift_spec fuel (k n : nat) (arr : list Explosion) :
  (n ≤ length arr)%nat → (k < n)%nat → (n - 1 - k ≤ fuel)%nat →
  ∃ arr2,
    expl_shift fuel (Z.of_nat k) (Build_ExplRing arr (Z.of_nat n))
    = Some (Build_ExplRing arr2 (Z.of_nat n))
    ∧ length arr2 = length arr
    ∧ take (n - 1) arr2 = take k arr ++ drop (S k) (take n arr).
Proof.
  revert k arr. induction fuel as [|fuel IH]; intros k arr Hn Hk Hf.
  - assert (k = (n - 1)%nat) as -> by lia.
    exists arr. cbn [expl_shift s_expl_count].
    destruct (Z.ltb_spec (Z.of_nat (n - 1)) (Z.of_nat n - 1)); [lia|].
    split; [done|]. split; [done|].
    replace (S (n - 1)) with n by lia.
    rewrite drop_ge by (rewrite length_take; lia). by rewrite app_nil_r.
  - cbn [expl_shift s_expl_count s_expl].
    destruct (Z.ltb_spec (Z.of_nat k) (Z.of_nat n - 1)) as [Hlt|Hge];
      cbn [negb].
    + replace (Z.to_nat (Z.of_nat k + 1)) with (S k) by lia.
      rewrite Nat2Z.id.
      destruct (lookup_lt_is_Some_2 arr (S k)) as [e He]; [lia|].
      rewrite He. cbn [mbind option_bind].
      replace (Z.of_nat k + 1) with (Z.of_nat (S k)) by lia.
      destruct (IH (S k) (<[k := e]> arr)) as (arr2 & Hs & Hl & Ht);
        [rewrite length_insert; lia|lia|lia|].
      exists arr2. split; [done|]. rewrite length_insert in Hl.
      split; [done|]. rewrite Ht.
      rewrite (take_S_r (<[k:=e]> arr) k e)
        by (rewrite list_lookup_insert_eq; [done|lia]).
      rewrite take_insert_ge by lia.
      rewrite (take_insert_lt arr n k) by lia.
      rewrite drop_insert_lt by lia.
      rewrite (drop_S (take n arr) e (S k))
        by (rewrite lookup_take_lt; [done|lia]).
      by rewrite <- app_assoc.
    + assert (k = (n - 1)%nat) as -> by lia.
      exists arr. split; [done|]. split; [done|].
      replace (S (n - 1)) with n by lia.
      rewrite drop_ge by (rewrite length_take; lia). by rewrite app_nil_r.
Qed.

Lemma expl_update_loop_spec fuel (k n : nat) (arr : list Explosion) :
  (n ≤ length arr)%nat → (k ≤ n)%nat → (n - k ≤ fuel)%nat →
  ∃ arr',
    expl_update_loop fuel (Z.of_nat k) (Build_ExplRing arr (Z.of_nat n))
    = Some (Build_ExplRing arr'
              (Z.of_nat (length (take k arr
                                 ++ filter (λ e, 0 < frames_left e)
                                      (expl_age <$> drop k (take n arr))))))
    ∧ length arr' = length arr
    ∧ take (length (take k arr
                    ++ filter (λ e, 0 < frames_left e)
                         (expl_age <$> drop k (take n arr)))) arr'
      = take k arr
        ++ filter (λ e, 0 < frames_left e) (expl_age <$> drop k (take n arr)).
Proof.
  revert k n arr. induction fuel as [|fuel IH]; intros k n arr Hn Hk Hf.
  - assert (k = n) as -> by lia.
    exists arr. cbn [expl_update_loop s_expl_count].
    destruct (Z.ltb_spec (Z.of_nat n) (Z.of_nat n)); [lia|]. cbn [negb].
    rewrite drop_ge by (rewrite length_take; lia).
    cbn. rewrite app_nil_r, length_take_le by lia. done.
  - cbn [expl_update_loop s_expl_count s_expl].
    destruct (Z.ltb_spec (Z.of_nat k) (Z.of_nat n)) as [Hlt|Hge]; cbn [negb].
    2:{ assert (k = n) as -> by lia. exists arr.
        rewrite drop_ge by (rewrite length_take; lia).
        cbn. rewrite app_nil_r, length_take_le by lia. done. }
    rewrite !Nat2Z.id.
    destruct (lookup_lt_is_Some_2 arr k) as [e He]; [lia|].
    rewrite He. cbn [mbind option_bind].
    assert (drop k (take n arr) = e :: drop (S k) (take n arr)) as Hdrop
      by (apply drop_S; rewrite lookup_take_lt; [done|lia]).
    rewrite Hdrop, fmap_cons, filter_cons.
    destruct (Z.leb_spec (frames_left (expl_age e)) 0) as [Hdead|Hlive].
    + destruct (decide (0 < frames_left (expl_age e))) as [?|_]; [lia|].
      destruct (expl_shift_spec n k n (<[k := expl_age e]> arr))
        as (arr2 & Hs & Hl2 & Ht2); [rewrite length_insert; lia|lia|lia|].
      rewrite Hs. cbn [mbind option_bind s_expl s_expl_count].
      replace (Z.of_nat k - 1 + 1) with (Z.of_nat k) by lia.
      replace (Z.of_nat n - 1) with (Z.of_nat (n - 1)) by lia.
      rewrite length_insert in Hl2.
      destruct (IH k (n - 1)%nat arr2) as (arr' & Hu & Hl' & Ht');
        [lia|lia|lia|].
      rewrite take_insert_ge in Ht2 by lia.
      rewrite (take_insert_lt arr n k) in Ht2 by lia.
      rewrite drop_insert_lt in Ht2 by lia.
      assert (take k arr2 = take k arr) as Hk2.
      { transitivity (take k (take (n - 1) arr2)).
        { rewrite take_take. f_equal. lia. }
        rewrite Ht2, take_app_le by (rewrite length_take; lia).
        rewrite take_take. f_equal. lia. }
      assert (drop k (take (n - 1) arr2) = drop (S k) (take n arr)) as Hd2.
      { rewrite Ht2. apply drop_app_length'. rewrite length_take. lia. }
      rewrite Hk2, Hd2 in Hu, Ht'.
      exists arr'. split; [done|]. split; [congruence|done].
    + destruct (decide (0 < frames_left (expl_age e))) as [_|?]; [|lia].
      replace (Z.of_nat k + 1) with (Z.of_nat (S k)) by lia.
      destruct (IH (S k) n (<[k := expl_age e]> arr)) as (arr' & Hu & Hl' & Ht');
        [rewrite length_insert; lia|lia|lia|].
      rewrite length_insert in Hl'.
      rewrite (take_S_r (<[k:=expl_age e]> arr) k (expl_age e)) in Hu, Ht'
        by (rewrite list_lookup_insert_eq; [done|lia]).
      rewrite take_insert_ge in Hu, Ht' by lia.
      rewrite (take_insert_lt arr n k) in Hu, Ht' by lia.
      rewrite drop_insert_lt in Hu, Ht' by lia.
      rewrite <- app_assoc in Hu, Ht'. cbn [app] in Hu, Ht'.
      exists arr'. done.
Qed.

Lemma expl_update_spec (r : ExplRing) :
  0 <= s_expl_count r →
  (Z.to_nat (s_expl_count r) ≤ length (s_expl r))%nat →
  ∃ r', expl_update r = Some r'
        ∧ expl_live r'
          = filter (λ e, 0 < frames_left e) (expl_age <$> expl_live r)
        ∧ s_expl_count r' = Z.of_nat (length (expl_live r'))
        ∧ length (s_expl r') = length (s_expl r).
Proof.
  intros Hc Hl. destruct r as [arr c]. cbn [s_expl s_expl_count] in *.
  unfold expl_update, expl_live. cbn [s_expl s_expl_count].
  destruct (expl_update_loop_spec (Z.to_nat c) 0 (Z.to_nat c) arr)
    as (arr' & Hu & Hl' & Ht'); [lia..|].
  rewrite Z2Nat.id in Hu by lia. change (Z.of_nat 0) with 0 in Hu.
  rewrite take_0, drop_0 in Hu, Ht'. cbn [app] in Hu, Ht'.
  eexists. split; [exact Hu|]. cbn [s_expl s_expl_count].
  rewrite Nat2Z.id, Ht'. split; [done|]. split; [done|done].
Qed.

(** X19. With the count within the array, [expl_update] ends without reading
    outside the array; it takes one frame off every explosion and keeps, in
    their order, those with frames left; the count is their number and the
    array keeps its size. *)
Theorem expl_update_filters (r : ExplRing) :
  0 <= s_expl_count r →
  (Z.to_nat (s_expl_count r) ≤ length (s_expl r))%nat →
  ∃ r', expl_update r = Some r'
        ∧ expl_live r'
          = filter (λ e, 0 < frames_left e) (expl_age <$> expl_live r)
        ∧ s_expl_count r' = Z.of_nat (length (expl_live r'))
        ∧ length (s_expl r') = length (s_expl r).
Proof. apply expl_update_spec. Qed.

Lemma expl_update_filters_witness :
  ∃ r', expl_update (expl_add 7 9 (expl_add 3 4 ring_init)) = Some r'
        ∧ expl_live r' = [Build_Explosion 3 4 4; Build_Explosion 7 9 4].
Proof.
  destruct (expl_update_filters (expl_add 7 9 (expl_add 3 4 ring_init)))
    as (r' & Hu & Hl & _); [by vm_compute|vm_compute; lia|].
  exists r'. split; [done|]. rewrite Hl. by vm_compute.
Defined.

Lemma expl_live_length r :
  0 <= s_expl_count r →
  (Z.to_nat (s_expl_count r) ≤ length (s_expl r))%nat →
  Z.of_nat (length (expl_live r)) = s_expl_count r.
Proof. intros. unfold expl_live. rewrite length_take. lia. Qed.

Lemma expl_add_live x y r :
  0 <= s_expl_count r < MAX_EXPLOSIONS →
  length (s_expl r) = Z.to_nat MAX_EXPLOSIONS →
  expl_live (expl_add x y r) = expl_live r ++ [Build_Explosion x y 5].
Proof.
  unfold MAX_EXPLOSIONS. intros Hlt Hl. unfold expl_add, expl_live, MAX_EXPLOSIONS.
  destruct (Z.ltb_spec (s_expl_count r) 32); [|lia].
  cbn [s_expl s_expl_count].
  replace (Z.to_nat (s_expl_count r + 1)) with (S (Z.to_nat (s_expl_count r)))
    by lia.
  rewrite (take_S_r _ _ (Build_Explosion x y 5))
    by (rewrite list_lookup_insert_eq; [done|lia]).
  by rewrite take_insert_ge by lia.
Qed.

Lemma expl_add_ring_ok x y r : ring_ok r → ring_ok (expl_add x y r).
Proof.
  intros (Hc & Hl & Hf). unfold ring_ok.
  destruct (Z.ltb_spec (s_expl_count r) MAX_EXPLOSIONS) as [Hlt|Hge].
  - rewrite expl_add_live by (done || lia). unfold expl_add.
    destruct (Z.ltb_spec (s_expl_count r) MAX_EXPLOSIONS); [|lia].
    cbn [s_expl s_expl_count]. rewrite length_insert.
    split_and!; [lia..|done|].
    intros e He. apply elem_of_app in He as [He|He]; [by apply Hf|].
    apply list_elem_of_singleton in He as ->. cbn. lia.
  - unfold expl_add.
    destruct (Z.ltb_spec (s_expl_count r) MAX_EXPLOSIONS); [lia|]. done.
Qed.

Lemma expl_update_ring_ok r :
  ring_ok r → ∃ r', expl_update r = Some r' ∧ ring_ok r'.
Proof.
  intros (Hc & Hl & Hf). unfold MAX_EXPLOSIONS in *.
  destruct (expl_update_spec r) as (r' & Hu & Hl' & Hc' & Hlen); [lia..|].
  exists r'. split; [done|]. unfold ring_ok, MAX_EXPLOSIONS.
  assert (length (expl_live r') ≤ length (expl_live r))%nat as Hle.
  { rewrite Hl'. etrans; [apply length_filter|]. by rewrite length_fmap. }
  pose proof (expl_live_length r ltac:(lia) ltac:(lia)).
  split_and!; [lia..|congruence|].
  intros e He. rewrite Hl' in He.
  apply list_elem_of_filter in He as [Hpos He].
  apply list_elem_of_fmap in He as (e0 & -> & He0).
  specialize (Hf e0 He0). cbn in *. lia.
Qed.

(** X20. From [render_init] on, under [expl_add] and [expl_update], the ring
    holds at most [MAX_EXPLOSIONS] explosions, each with one to five frames
    left.  [expl_add] appends an explosion with five frames below the
    capacity, and drops it at the capacity. *)
Theorem explosion_ring_bounded :
  ring_ok ring_init
  ∧ (∀ x y r, ring_ok r →
       ring_ok (expl_add x y r)
       ∧ (s_expl_count r < MAX_EXPLOSIONS →
          expl_live (expl_add x y r) = expl_live r ++ [Build_Explosion x y 5])
       ∧ (s_expl_count r = MAX_EXPLOSIONS → expl_add x y r = r))
  ∧ (∀ r, ring_ok r → ∃ r', expl_update r = Some r' ∧ ring_ok r').
Proof.
  split_and!.
  - unfold ring_ok, ring_init, expl_live, MAX_EXPLOSIONS. cbn.
    split_and!; [lia..|done|]. intros e He. by apply elem_of_nil in He.
  - intros x y r Hr. split_and!.
    + by apply expl_add_ring_ok.
    + intros Hlt. destruct Hr as (Hc & Hl & _). apply expl_add_live; [lia|done].
    + intros Hfull. unfold expl_add.
      destruct (Z.ltb_spec (s_expl_count r) MAX_EXPLOSIONS); [lia|done].
  - apply expl_update_ring_ok.
Qed.

Lemma filter_age_step (k : nat) (l : list Explosion) :
  filter (λ e, 0 < frames_left e)
    (expl_age <$> filter (λ e, 0 < frames_left e) (expl_age_by k <$> l))
  = filter (λ e, 0 < frames_left e) (expl_age_by (S k) <$> l).
Proof.
  induction l as [|e l IH]; [done|].
  rewrite !fmap_cons, !filter_cons.
  destruct (decide (0 < frames_left (expl_age_by k e))) as [H1|H1];
    destruct (decide (0 < frames_left (expl_age_by (S k) e))) as [H2|H2];
    cbn in H1, H2; try lia.
  - rewrite fmap_cons, filter_cons.
    destruct (decide (0 < frames_left (expl_age (expl_age_by k e)))) as [H3|H3];
      cbn in H3; [|lia].
    rewrite IH. f_equal. unfold expl_age, expl_age_by. cbn. f_equal. lia.
  - rewrite fmap_cons, filter_cons.
    destruct (decide (0 < frames_left (expl_age (expl_age_by k e)))) as [H3|H3];
      cbn in H3; [lia|done].
  - done.
Qed.

Lemma filter_all {A} (P : A → Prop) `{∀ x, Decision (P x)} (l : list A) :
  (∀ x, x ∈ l → P x) → filter P l = l.
Proof.
  induction l as [|a l IH]; intros Hl; [done|].
  rewrite filter_cons. destruct (decide (P a)) as [_|Hn].
  - rewrite IH; [done|]. intros x Hx. apply Hl. by apply list_elem_of_further.
  - destruct Hn. apply Hl. apply list_elem_of_here.
Qed.

Lemma filter_none {A} (P : A → Prop) `{∀ x, Decision (P x)} (l : list A) :
  (∀ x, x ∈ l → ¬ P x) → filter P l = [].
Proof.
  induction l as [|a l IH]; intros Hl; [done|].
  rewrite filter_cons. destruct (decide (P a)) as [Hp|_].
  - destruct (Hl a); [apply list_elem_of_here|done].
  - apply IH. intros x Hx. apply Hl. by apply list_elem_of_further.
Qed.

Lemma expl_frames_live (k : nat) (r : ExplRing) :
  ring_ok r →
  ∃ r', expl_frames k r = Some r'
        ∧ ring_ok r'
        ∧ expl_live r'
          = filter (λ e, 0 < frames_left e) (expl_age_by k <$> expl_live r).
Proof.
  intros Hr. induction k as [|k IH].
  - exists r. split; [done|]. split; [done|].
    assert (expl_age_by 0 <$> expl_live r = expl_live r) as ->.
    { rewrite <- (list_fmap_id (expl_live r)) at 2. apply list_fmap_ext.
      intros _ [x y f] _. unfold expl_age_by. cbn. f_equal. lia. }
    symmetry. apply filter_all. intros e He.
    destruct Hr as (_ & _ & Hf). specialize (Hf e He). lia.
  - destruct IH as (rk & Hk & Hok & Hlive).
    unfold expl_frames in *. rewrite Nat.iter_succ, Hk. cbn [mbind option_bind].
    pose proof Hok as (Hc & Hl & _). unfold MAX_EXPLOSIONS in *.
    destruct (expl_update_spec rk) as (r' & Hu & Hl' & _); [lia..|].
    destruct (expl_update_ring_ok rk Hok) as (r'' & Hu' & Hok').
    rewrite Hu in Hu'. simplify_eq.
    exists r''. split; [done|]. split; [done|].
    rewrite Hl', Hlive. apply filter_age_step.
Qed.

(** X21. An explosion added to a ring that is not full is the last one of the
    ring for the next four frames, counting down from five, and the ring is
    empty after five frames without further explosions. *)
Theorem explosion_lifetime (x y : Z) (r : ExplRing) (k : nat) :
  ring_ok r →
  s_expl_count r < MAX_EXPLOSIONS →
  ∃ rk, expl_frames k (render_add_explosion x y r) = Some rk
        ∧ ((k < 5)%nat →
           last (expl_live rk) = Some (Build_Explosion x y (5 - Z.of_nat k)))
        ∧ ((5 ≤ k)%nat → expl_live rk = []).
Proof.
  intros Hr Hlt. unfold render_add_explosion.
  destruct (expl_frames_live k (expl_add x y r)) as (rk & Hk & Hok & Hlive);
    [by apply expl_add_ring_ok|].
  exists rk. split; [done|].
  pose proof Hr as (Hc & Hl & Hf).
  rewrite expl_add_live in Hlive by (done || lia).
  rewrite fmap_app, filter_app in Hlive. cbn [fmap list_fmap] in Hlive.
  split.
  - intros Hk5. rewrite Hlive, filter_cons.
    destruct (decide (0 < frames_left (expl_age_by k (Build_Explosion x y 5))))
      as [_|Hn]; [|cbn in Hn; lia].
    rewrite filter_nil, last_snoc. done.
  - intros Hk5. rewrite Hlive, filter_cons.
    destruct (decide (0 < frames_left (expl_age_by k (Build_Explosion x y 5))))
      as [Hp|_]; [cbn in Hp; lia|].
    rewrite filter_nil, app_nil_r.
    apply filter_none. intros e He.
    apply list_elem_of_fmap in He as (e0 & -> & He0).
    specialize (Hf e0 He0). cbn. lia.
Qed.

Lemma explosion_lifetime_witness :
  ∃ rk, expl_frames 4 (render_add_explosion 60 4 ring_init) = Some rk
        ∧ ((4 < 5)%nat →
           last (expl_live rk) = Some (Build_Explosion 60 4 (5 - Z.of_nat 4)))
        ∧ ((5 ≤ 4)%nat → expl_live rk = []).
Proof.
  apply (explosion_lifetime 60 4 ring_init 4).
  - unfold ring_ok. split_and!; [by vm_compute..|].
    intros e He. by apply elem_of_nil in He.
  - by vm_compute.
Defined.

(** ** The playfield on the pad *)

Lemma in_field_inside sw lo hi x y c :
  in_field sw lo hi x y = true → draw_inside sw lo hi (Addch y x c).
Proof.
  unfold in_field, draw_inside.
  rewrite !andb_true_iff, !Z.leb_le, !Z.ltb_lt. lia.
Qed.

Lemma draw_ground_inside sw lo hi ground_y d :
  lo <= ground_y < hi →
  d ∈ draw_ground sw ground_y → draw_inside sw lo hi d.
Proof.
  intros Hy Hd. unfold draw_ground in Hd.
  apply list_elem_of_fmap in Hd as (x & -> & Hx).
  apply elem_of_seqZ in Hx. cbn. lia.
Qed.

Lemma draw_ships_inside sw lo hi ships d :
  d ∈ draw_ships sw lo hi ships → draw_inside sw lo hi d.
Proof.
  unfold draw_ships. intros Hd.
  apply list_elem_of_omap in Hd as ([x y] & _ & Hd).
  destruct (in_field sw lo hi x y) eqn:Hf; [|done]. simplify_eq.
  by apply in_field_inside.
Qed.

Lemma draw_rockets_inside sw lo hi rockets d :
  d ∈ draw_rockets sw lo hi rockets → draw_inside sw lo hi d.
Proof.
  unfold draw_rockets. intros Hd.
  apply list_elem_of_omap in Hd as ([[x y] dir] & _ & Hd).
  destruct (in_field sw lo hi x y) eqn:Hf; [|done]. simplify_eq.
  by apply in_field_inside.
Qed.

Lemma draw_battery_inside sw lo hi ground_y bx d :
  lo <= ground_y < hi →
  d ∈ draw_battery sw ground_y bx → draw_inside sw lo hi d.
Proof.
  intros Hy. unfold draw_battery.
  destruct ((0 <=? bx) && (bx <? sw)) eqn:H1;
    [|intros Hd; by apply elem_of_nil in Hd].
  apply andb_true_iff in H1 as [H1 H2]. apply Z.leb_le in H1.
  apply Z.ltb_lt in H2.
  destruct ((0 <? bx) && (bx <? sw - 1)) eqn:H3.
  - apply andb_true_iff in H3 as [H3 H4]. apply Z.ltb_lt in H3, H4.
    intros Hd.
    repeat (apply elem_of_cons in Hd as [->|Hd]; [cbn; lia|]).
    by apply elem_of_nil in Hd.
  - intros Hd. apply elem_of_cons in Hd as [->|Hd]; [cbn; lia|].
    by apply elem_of_nil in Hd.
Qed.

Lemma draw_aim_inside n sw lo hi px py dx dy c d :
  d ∈ draw_aim n sw lo hi px py dx dy c → draw_inside sw lo hi d.
Proof.
  revert px py. induction n as [|n IH]; intros px py Hd.
  - by apply elem_of_nil in Hd.
  - cbn [draw_aim] in Hd. apply elem_of_app in Hd as [Hd|Hd]; [|by eapply IH].
    destruct (in_field sw lo hi (px + dx) (py + dy)) eqn:Hf;
      [|by apply elem_of_nil in Hd].
    apply list_elem_of_singleton in Hd as ->. by apply in_field_inside.
Qed.

Lemma draw_explosion_inside sw lo hi e d :
  d ∈ draw_explosion sw lo hi e → draw_inside sw lo hi d.
Proof.
  unfold draw_explosion.
  destruct (in_field sw lo hi (expl_x e) (expl_y e)) eqn:Hf;
    [|intros Hd; by apply elem_of_nil in Hd].
  unfold in_field in Hf.
  rewrite !andb_true_iff, !Z.leb_le, !Z.ltb_lt in Hf.
  intros Hd.
  repeat (apply elem_of_app in Hd as [Hd|Hd];
          [repeat case_match; try (by apply elem_of_nil in Hd);
           apply list_elem_of_singleton in Hd as ->; cbn;
           repeat match goal with
                  | H : (_ <? _) = true |- _ => apply Z.ltb_lt in H
                  end; lia|]).
  repeat case_match; try (by apply elem_of_nil in Hd).
  apply list_elem_of_singleton in Hd as ->. cbn.
  repeat match goal with
         | H : (_ <? _) = true |- _ => apply Z.ltb_lt in H
         end; lia.
Qed.

Lemma draw_playfield_inside sw sh hud ch bx dir ships rockets r d :
  hud <= sh - ch - 1 →
  d ∈ draw_playfield sw sh hud ch bx dir ships rockets r →
  draw_inside sw hud (sh - ch) d.
Proof.
  intros Hy. unfold draw_playfield.
  destruct (aim_of dir) as [[dx dy] c].
  rewrite !elem_of_app. intros [Hd|[Hd|[Hd|[Hd|[Hd|Hd]]]]].
  - eapply draw_ground_inside; [|done]. lia.
  - by eapply draw_ships_inside.
  - by eapply draw_rockets_inside.
  - eapply draw_battery_inside; [|done]. lia.
  - by eapply draw_aim_inside.
  - apply list_elem_of_bind in Hd as (e & Hd & _).
    by eapply draw_explosion_inside.
Qed.

(** X22. Every character that [render_game] puts on the playfield (ground line,
    ships, rockets, battery, aim, explosions) lands in a column of the screen
    and in a row between the HUD and the controls, provided these leave a
    row; in every state of every run they do (rows 3 to [screen_height - 3]),
    and the battery glyph is drawn on the ground line in column
    [bateria_x]. *)
Theorem playfield_stays_inside :
  (∀ sw sh hud ch bx dir ships rockets r d,
     hud <= sh - ch - 1 →
     d ∈ draw_playfield sw sh hud ch bx dir ships rockets r →
     draw_inside sw hud (sh - ch) d)
  ∧ (∀ w r d,
       reachable w →
       d ∈ draw_playfield (screen_width (game w)) (screen_height (game w))
             (hud_height (game w)) (controls_height (game w))
             (bateria_x (game w)) (direcao_atual (game w))
             (ships_snapshot (game w)) (rockets_snapshot (game w)) r →
       draw_inside (screen_width (game w)) 3 (screen_height (game w) - 2) d)
  ∧ (∀ w r,
       reachable w →
       Addch (screen_height (game w) - 3) (bateria_x (game w)) ch_caret
       ∈ draw_playfield (screen_width (game w)) (screen_height (game w))
           (hud_height (game w)) (controls_height (game w))
           (bateria_x (game w)) (direcao_atual (game w))
           (ships_snapshot (game w)) (rockets_snapshot (game w)) r).
Proof.
  split_and!.
  - intros. by eapply draw_playfield_inside.
  - intros w r d Hw Hd.
    destruct (reachable_coherent w Hw) as (_ & (Hsw & Hsh & Hhud & Hch) & _).
    rewrite Hhud, Hch in Hd. unfold HUD_H, CTRL_H in Hd.
    apply draw_playfield_inside in Hd; [done|lia].
  - intros w r Hw.
    destruct (reachable_coherent w Hw) as (_ & (Hsw & Hsh & Hhud & Hch) & _).
    destruct Hw as (d0 & now & tr & Hex).
    destruct (exec_acc all_slots _ _ _ Hex) as (_ & _ & _ & _ & _ & _ & _ & Haim).
    destruct Haim as [_ Hbx]; [split; [done|by vm_compute]|].
    unfold aim_ok in Hbx.
    rewrite Hhud, Hch. unfold HUD_H, CTRL_H, draw_playfield.
    destruct (aim_of _) as [[dx dy] c].
    rewrite !elem_of_app. do 3 right. left.
    unfold draw_battery.
    replace (screen_height (game w) - 2 - 1) with (screen_height (game w) - 3)
      by lia.
    destruct (Z.leb_spec 0 (bateria_x (game w))); [|lia].
    destruct (Z.ltb_spec (bateria_x (game w)) (screen_width (game w))); [|lia].
    cbn [andb].
    destruct ((0 <? bateria_x (game w))
              && (bateria_x (game w) <? screen_width (game w) - 1)).
    + apply list_elem_of_further, list_elem_of_here.
    + apply list_elem_of_here.
Qed.

(** ** The aim indicator *)

Lemma draw_aim_cells_from n m sw lo hi px py dx dy c :
  draw_aim n sw lo hi (px + m * dx) (py + m * dy) dx dy c
  = omap (λ i, if in_field sw lo hi (px + i * dx) (py + i * dy)
               then Some (Addch (py + i * dy) (px + i * dx) c) else None)
      (seqZ (m + 1) (Z.of_nat n)).
Proof.
  revert m. induction n as [|n IH]; intros m; [done|].
  cbn [draw_aim].
  replace (px + m * dx + dx) with (px + (m + 1) * dx) by lia.
  replace (py + m * dy + dy) with (py + (m + 1) * dy) by lia.
  rewrite IH, (seqZ_cons (m + 1) (Z.of_nat (S n))) by lia.
  cbn [omap list_omap].
  replace (Z.pred (Z.of_nat (S n))) with (Z.of_nat n) by lia.
  replace (Z.succ (m + 1)) with (m + 1 + 1) by lia.
  by destruct (in_field sw lo hi (px + (m + 1) * dx) (py + (m + 1) * dy)).
Qed.

Lemma draw_aim_cells n sw lo hi px py dx dy c :
  draw_aim n sw lo hi px py dx dy c
  = omap (λ i, if in_field sw lo hi (px + i * dx) (py + i * dy)
               then Some (Addch (py + i * dy) (px + i * dx) c) else None)
      (seqZ 1 (Z.of_nat n)).
Proof.
  pose proof (draw_aim_cells_from n 0 sw lo hi px py dx dy c) as H.
  by replace (px + 0 * dx) with px in H by lia;
    replace (py + 0 * dy) with py in H by lia.
Qed.

Lemma foguete_moves_pos (n k : nat) (g : GameState) (fr : Foguete) :
  mutex_foguetes g = false →
  foguetes g !! k = Some fr →
  fog_ativa fr = true →
  ∃ gn, foguete_moves n k g = Some gn
        ∧ mutex_foguetes gn = false
        ∧ foguetes gn !! k
          = Some (fog_set_xy (fog_x fr + Z.of_nat n * fog_dx fr)
                    (fog_y fr + Z.of_nat n * fog_dy fr) fr).
Proof.
  intros Hm Hk Ha. induction n as [|n IH].
  - exists g. split; [done|]. split; [done|]. rewrite Hk. f_equal.
    destruct fr. unfold fog_set_xy. cbn. f_equal; lia.
  - destruct IH as (gn & Hn & Hmn & Hkn).
    unfold foguete_moves in *. rewrite Nat.iter_succ, Hn.
    cbn [mbind option_bind]. unfold foguete_move.
    cbn [thread_foguete_step]. rewrite Hmn, Hkn. cbn [mbind option_bind].
    cbn [fog_set_xy fog_ativa]. rewrite Ha. cbn [negb mbind option_bind].
    eexists. split; [reflexivity|]. gsimpl. split; [done|].
    rewrite list_lookup_alter_eq, Hkn. cbn. f_equal.
    unfold fog_set_xy. cbn. f_equal; lia.
Qed.

Lemma aim_of_dir_vector dir :
  aim_of dir = (dir_vector dir, rocket_sym dir).
Proof. by destruct dir. Qed.

(** X23. The aim indicator shows the path of the next rocket: with the battery
    inside the screen, a successful [tentar_disparar] puts the rocket at the
    battery, its task sets the displacement of the current aim, which is the
    step of the indicator, so that after [n] moves the rocket is [n] steps
    from the battery; the indicator marks steps 1 to 4, those inside the
    playfield, with the glyph the rocket is drawn with. *)
Theorem aim_shows_rocket_path (o : Oracle) (new_tid : nat) (g : GameState)
    (l f : nat) (r : Foguete) (dx dy c : Z) :
  mutex_lancadores g = false →
  mutex_foguetes g = false →
  find_first tem_foguete (bays g) = Some l →
  find_first (λ r, negb (fog_ativa r)) (foguetes g) = Some f →
  foguetes g !! f = Some r →
  o_malloc_ok o = true →
  o_create_ok o = true →
  0 <= bateria_x g < screen_width g →
  aim_of (direcao_atual g) = (dx, dy, c) →
  let ground_y := screen_height g - controls_height g - 1 in
  (∃ g1 g2,
     tentar_disparar o new_tid g = Some (g1, true, Some f)
     ∧ thread_foguete_step f g1 F_init = Some (g2, F_loop, Tau)
     ∧ ∀ n : nat,
         ∃ gn rn,
           foguete_moves n f g2 = Some gn
           ∧ foguetes gn !! f = Some rn
           ∧ fog_ativa rn = true
           ∧ fog_x rn = bateria_x g + Z.of_nat n * dx
           ∧ fog_y rn = ground_y + Z.of_nat n * dy
           ∧ rocket_sym (fog_direcao rn) = c)
  ∧ draw_aim 4 (screen_width g) (hud_height g)
      (screen_height g - controls_height g) (bateria_x g) ground_y dx dy c
    = omap (λ i, if in_field (screen_width g) (hud_height g)
                      (screen_height g - controls_height g)
                      (bateria_x g + i * dx) (ground_y + i * dy)
                 then Some (Addch (ground_y + i * dy) (bateria_x g + i * dx) c)
                 else None)
        [1; 2; 3; 4].
Proof.
  intros Hl Hf Hbay Hslot Hr Hm Hc Hbx Haim ground_y.
  split; [|apply draw_aim_cells].
  pose proof (tentar_disparar_launch o new_tid g l f r Hl Hf Hbay Hslot Hr
                (or_intror Hc)) as Hcall.
  cbv zeta in Hcall. rewrite Hm in Hcall.
  destruct (Z.ltb_spec (bateria_x g) 0); [lia|].
  destruct (Z.leb_spec (screen_width g) (bateria_x g)); [lia|].
  rewrite aim_of_dir_vector in Haim.
  assert (f < length (foguetes g))%nat as Hlen by by eapply lookup_lt_Some.
  destruct (dir_vector (direcao_atual g)) as [dx0 dy0] eqn:Hdv.
  simplify_eq.
  eexists _, _. split; [exact Hcall|]. split.
  { cbn [thread_foguete_step]. gsimpl.
    rewrite list_lookup_insert_eq by done. cbn [mbind option_bind fog_direcao].
    rewrite Hdv. reflexivity. }
  intros n.
  match goal with
  | |- ∃ gn rn, foguete_moves n f ?g2 = _ ∧ _ =>
      destruct (foguete_moves_pos n f g2
                  (Build_Foguete (Z.of_nat f) (bateria_x g) ground_y dx dy
                     (direcao_atual g) (Z.of_nat l) true new_tid))
        as (gn & Hn & _ & Hkn)
  end.
  - gsimpl. by destruct g; cbn in *; subst.
  - gsimpl. rewrite list_lookup_alter_eq, list_lookup_insert_eq by done.
    reflexivity.
  - done.
  - exists gn. eexists. split; [exact Hn|]. split; [exact Hkn|].
    cbn. split_and!; done.
Qed.

Lemma aim_shows_rocket_path_witness :
  ∃ g1 g2,
    tentar_disparar oracle_fire 0 game_one_loaded = Some (g1, true, Some 0%nat)
    ∧ thread_foguete_step 0 g1 F_init = Some (g2, F_loop, Tau)
    ∧ ∀ n : nat,
        ∃ gn rn,
          foguete_moves n 0 g2 = Some gn
          ∧ foguetes gn !! 0%nat = Some rn
          ∧ fog_ativa rn = true
          ∧ fog_x rn = 60 + Z.of_nat n * 0
          ∧ fog_y rn = 29 + Z.of_nat n * -1
          ∧ rocket_sym (fog_direcao rn) = ch_bar.
Proof.
  destruct (aim_shows_rocket_path oracle_fire 0 game_one_loaded 0 0 fog_zero
              0 (-1) ch_bar) as [H _]; [by vm_compute..|exact H].
Defined.
